(** * PANDA key exchange and the key-registration glue: a shallow embedding

    The development follows the two Go sources of the repository:
    - the [panda] package (secret strings, shared secrets, the resumable
      key-exchange state machine);
    - [keys.go] (the HTTP handlers that store and fetch pre-key bundles).

    Go values are modelled as follows.  A [[]byte], a [string] and an
    [[n]byte] array are all [list byte]; Go's [copy], slicing and indexing
    are written out, with the run-time panics they can raise.  Go's [int] is
    [Z] (the code performs no [int] arithmetic that could wrap; the explicit
    conversions to [int32] and [uint32] are modelled with their wrap-around).
    A call that can return an error or panic yields an [outcome]. *)

From Stdlib Require Import ZArith NArith Lia Bool.
From Stdlib Require Import Strings.Byte.
From stdpp Require Import base option list numbers strings pretty gmap.

Local Open Scope Z_scope.

(** ** Results of Go calls *)

(** Error values that exist outside the function returning them, so that a
    collaborator can return them too: [ShutdownErr], the package-level
    variable of the [panda] package; [io_EOF] and [io_ErrUnexpectedEOF], the
    two values [io.ReadFull] returns; [foreign], any error value made by a
    collaborator (meeting place, protobuf, hkdf, scrypt, subprocess). *)
Inductive error_value : Type :=
| ShutdownErr
| io_EOF
| io_ErrUnexpectedEOF
| foreign (code : N).

(** Go [error] values: the above, or a value made by [errors.New] at a
    return statement of the package, identified by its message. *)
Inductive error : Type :=
| global (v : error_value)
| errors_New (msg : string).
Coercion global : error_value >-> error.

(** The [(value, err)] pair a collaborator returns. *)
Inductive result (A : Type) : Type :=
| Val (a : A)
| Fail (e : error_value).
Arguments Val {A} a.
Arguments Fail {A} e.

(** The value a panic carries: the string of [panic("...")], the error of
    [panic(err)], or a run-time error (index or slice out of range, negative
    length for [make], call of a nil function), named by the expression of
    the source that raised it. *)
Inductive panic_value : Type :=
| panic_string (s : string)
| panic_error (e : error)
| runtime_error (site : string).

(** What a call of the package does: it returns a value, returns an error,
    or panics. *)
Inductive outcome (A : Type) : Type :=
| Ok (a : A)
| Err (e : error)
| Panic (p : panic_value).
Arguments Ok {A} a.
Arguments Err {A} e.
Arguments Panic {A} p.

Definition of_result {A} (r : result A) : outcome A :=
  match r with Val a => Ok a | Fail e => Err e end.

Definition is_Ok {A} (o : outcome A) : bool :=
  match o with Ok _ => true | _ => false end.
Definition is_Err {A} (o : outcome A) : bool :=
  match o with Err _ => true | _ => false end.
Definition is_Panic {A} (o : outcome A) : bool :=
  match o with Panic _ => true | _ => false end.

(** ** Bytes, slices and fixed-width integers *)

Definition bytes_of (s : string) : list byte := String.list_byte_of_string s.

Definition byte_of_N (n : N) : byte :=
  match Byte.of_N (n mod 256)%N with Some b => b | None => x00 end.

Definition byte_of_Z (z : Z) : byte := byte_of_N (Z.to_N (z mod 256)).

Definition Z_of_byte (b : byte) : Z := Z.of_N (Byte.to_N b).

Definition byte_eqb (a b : byte) : bool := Byte.eqb a b.

Fixpoint bytes_eqb (a b : list byte) : bool :=
  match a, b with
  | [], [] => true
  | x :: a', y :: b' => byte_eqb x y && bytes_eqb a' b'
  | _, _ => false
  end.

(** [len(s)] as a Go [int]. *)
Definition len {A} (s : list A) : Z := Z.of_nat (length s).

(** [make([]byte, n)], written [site] in the source: panics for a negative
    length. *)
Definition make (site : string) (n : Z) : outcome (list byte) :=
  if n <? 0 then Panic (runtime_error site)
  else Ok (replicate (Z.to_nat n) x00).

(** A zeroed [[n]byte] array. *)
Definition zeros (n : nat) : list byte := replicate n x00.

(** [copy(dst, src)]: overwrites the first [min(len dst, len src)] elements of
    [dst]; the result is the new content of [dst]. *)
Definition copy {A} (dst src : list A) : list A :=
  take (length dst) src ++ drop (length src) dst.

(** [copy(dst[off:], src)] seen from [dst], for [off <= len dst]. *)
Definition copy_at {A} (dst : list A) (off : nat) (src : list A) : list A :=
  take off dst ++ copy (drop off dst) src.

(** [s[n:]], written [site] in the source: panics when [n] is out of
    range. *)
Definition slice_from {A} (site : string) (s : list A) (n : Z)
  : outcome (list A) :=
  if (n <? 0) || (len s <? n) then Panic (runtime_error site)
  else Ok (drop (Z.to_nat n) s).

(** [s[i]] for an index known to be in range at every use. *)
Definition index (s : list byte) (i : nat) : byte := nth i s x00.

(** [strings.HasPrefix]. *)
Definition HasPrefix (s prefix : list byte) : bool :=
  bytes_eqb (take (length prefix) s) prefix.

(** [uint32(x)] and [int32(x)] for a Go [int] [x]. *)
Definition uint32 (x : Z) : Z := x mod 2 ^ 32.
Definition int32 (x : Z) : Z := (x + 2 ^ 31) mod 2 ^ 32 - 2 ^ 31.

(** [binary.LittleEndian.PutUint32(b, v)]: panics when [b] is shorter than
    four bytes, otherwise overwrites its first four bytes. *)
Definition le32 (v : Z) : list byte :=
  [byte_of_Z v; byte_of_Z (Z.shiftr v 8); byte_of_Z (Z.shiftr v 16);
   byte_of_Z (Z.shiftr v 24)].

Definition PutUint32 (b : list byte) (v : Z) : outcome (list byte) :=
  if len b <? 4 then Panic (runtime_error "binary.LittleEndian.PutUint32")
  else Ok (copy b (le32 v)).

(** [binary.LittleEndian.Uint32(b)] for [len b >= 4]. *)
Definition Uint32 (b : list byte) : Z :=
  Z.lor (Z_of_byte (index b 0))
    (Z.lor (Z.shiftl (Z_of_byte (index b 1)) 8)
       (Z.lor (Z.shiftl (Z_of_byte (index b 2)) 16)
          (Z.shiftl (Z_of_byte (index b 3)) 24))).

(** ** io.Reader

    The random source is a deterministic byte stream: the bytes still to be
    delivered.  Reading past its end is the reader's failure. *)
Definition Reader : Type := list byte.

(** [r.Read(buf)] with [len buf = n], as [NewSecretString] uses it: one call,
    which may deliver fewer than [n] bytes without an error. *)
Definition Reader_Read (r : Reader) (n : nat) : result (list byte) * Reader :=
  match n, r with
  | O, _ => (Val [], r)
  | _, [] => (Fail io_EOF, r)
  | _, _ => (Val (take n r), drop n r)
  end.

(** [io.ReadFull(r, buf)] with [len buf = n].  The first component is what
    was written to the front of [buf] (all of it on success, a strict prefix
    on failure); an empty buffer succeeds without reading. *)
Definition io_ReadFull (r : Reader) (n : nat)
  : list byte * option error_value * Reader :=
  if decide (n <= length r)%nat then (take n r, None, drop n r)
  else (r, Some (match r with [] => io_EOF | _ => io_ErrUnexpectedEOF end), []).

(** ** encoding/hex *)
Module hex.

Definition hextable : list byte := bytes_of "0123456789abcdef".

Definition digit (n : N) : byte := nth (N.to_nat n) hextable x00.

Definition EncodeToString (src : list byte) : list byte :=
  flat_map (fun v => [digit (Byte.to_N v / 16); digit (Byte.to_N v mod 16)]) src.

(** [reverseHexTable]: the value of a hexadecimal digit, in either case. *)
Definition fromHexChar (c : byte) : option N :=
  let n := Byte.to_N c in
  if ((48 <=? n) && (n <=? 57))%N then Some (n - 48)%N
  else if ((97 <=? n) && (n <=? 102))%N then Some (n - 97 + 10)%N
  else if ((65 <=? n) && (n <=? 70))%N then Some (n - 65 + 10)%N
  else None.

Definition DecodedLen (x : Z) : Z := x / 2.

(** [hex.Decode]: [None] is the error return ([InvalidByteError] or
    [ErrLength]). *)
Fixpoint Decode (src : list byte) : option (list byte) :=
  match src with
  | [] => Some []
  | [_] => None
  | p :: q :: rest =>
      match fromHexChar p, fromHexChar q with
      | Some a, Some b =>
          match Decode rest with
          | Some out => Some (byte_of_N (a * 16 + b) :: out)
          | None => None
          end
      | _, _ => None
      end
  end.

End hex.

(** ** crypto/sha256 (FIPS 180-4) *)
Module sha256.
Local Open Scope N_scope.

Definition w32 (x : N) : N := x mod 2 ^ 32.
Definition add32 (x y : N) : N := w32 (x + y).
Definition rotr (n x : N) : N :=
  N.lor (N.shiftr x n) (w32 (N.shiftl x (32 - n))).
Definition shr (n x : N) : N := N.shiftr x n.
Definition not32 (x : N) : N := N.lxor x 0xffffffff.

Definition Ch (x y z : N) : N := N.lxor (N.land x y) (N.land (not32 x) z).
Definition Maj (x y z : N) : N :=
  N.lxor (N.land x y) (N.lxor (N.land x z) (N.land y z)).
Definition Sigma0 (x : N) : N := N.lxor (rotr 2 x) (N.lxor (rotr 13 x) (rotr 22 x)).
Definition Sigma1 (x : N) : N := N.lxor (rotr 6 x) (N.lxor (rotr 11 x) (rotr 25 x)).
Definition sigma0 (x : N) : N := N.lxor (rotr 7 x) (N.lxor (rotr 18 x) (shr 3 x)).
Definition sigma1 (x : N) : N := N.lxor (rotr 17 x) (N.lxor (rotr 19 x) (shr 10 x)).

(** The round constants: the first 32 bits of the fractional parts of the
    cube roots of the first 64 primes (FIPS 180-4, section 4.2.2). *)
Definition is_prime (n : N) : bool :=
  forallb (fun d => negb (n mod N.of_nat d =? 0)%N) (seq 2 (N.to_nat n - 2)).

Definition first_primes (count : nat) : list N :=
  take count (List.filter is_prime (map N.of_nat (seq 2 400))).

(** The integer cube root, one bit at a time from bit 35 down. *)
Definition icbrt (n : N) : N :=
  fold_left (fun r i => let c := (r + 2 ^ N.of_nat i)%N in
                        if (c * c * c <=? n)%N then c else r)
    (rev (seq 0 36)) 0%N.

Definition K : list N := Eval vm_compute in
  map (fun p => (icbrt (p * 2 ^ 96) mod 2 ^ 32)%N) (first_primes 64).

(** The eight working variables / the chaining value. *)
Record state : Type := State { sa : N; sb : N; sc : N; sd : N;
                               se : N; sf : N; sg : N; sh : N }.

Definition init : state :=
  State 0x6a09e667 0xbb67ae85 0x3c6ef372 0xa54ff53a
        0x510e527f 0x9b05688c 0x1f83d9ab 0x5be0cd19.

Definition be32 (b0 b1 b2 b3 : byte) : N :=
  N.lor (N.shiftl (Byte.to_N b0) 24)
    (N.lor (N.shiftl (Byte.to_N b1) 16)
       (N.lor (N.shiftl (Byte.to_N b2) 8) (Byte.to_N b3))).

Fixpoint words (bs : list byte) : list N :=
  match bs with
  | b0 :: b1 :: b2 :: b3 :: rest => be32 b0 b1 b2 b3 :: words rest
  | _ => []
  end.

(** Message schedule; [rev_w] holds the words computed so far, newest
    first. *)
Fixpoint schedule (n : nat) (rev_w : list N) : list N :=
  match n with
  | O => rev rev_w
  | S n' =>
      let w := add32 (add32 (sigma1 (nth 1 rev_w 0)) (nth 6 rev_w 0))
                     (add32 (sigma0 (nth 14 rev_w 0)) (nth 15 rev_w 0)) in
      schedule n' (w :: rev_w)
  end.

Definition round (s : state) (kw : N * N) : state :=
  let t1 := add32 (add32 (add32 (sh s) (Sigma1 (se s)))
                         (add32 (Ch (se s) (sf s) (sg s)) (fst kw))) (snd kw) in
  let t2 := add32 (Sigma0 (sa s)) (Maj (sa s) (sb s) (sc s)) in
  State (add32 t1 t2) (sa s) (sb s) (sc s) (add32 (sd s) t1) (se s) (sf s) (sg s).

Definition compress (h : state) (block : list byte) : state :=
  let w := schedule 48 (rev (words block)) in
  let s := fold_left round (zip K w) h in
  State (add32 (sa h) (sa s)) (add32 (sb h) (sb s)) (add32 (sc h) (sc s))
        (add32 (sd h) (sd s)) (add32 (se h) (se s)) (add32 (sf h) (sf s))
        (add32 (sg h) (sg s)) (add32 (sh h) (sh s)).

Definition be_bytes (n : nat) (x : N) : list byte :=
  map (fun i => byte_of_N (N.shiftr x (8 * N.of_nat i))) (rev (seq 0 n)).

Definition pad (msg : list byte) : list byte :=
  let l := length msg in
  let k := ((64 - (l + 9) mod 64) mod 64)%nat in
  msg ++ x80 :: zeros k ++ be_bytes 8 (8 * N.of_nat l).

Fixpoint blocks (n : nat) (h : state) (bs : list byte) : state :=
  match n with
  | O => h
  | S n' => blocks n' (compress h (take 64 bs)) (drop 64 bs)
  end.

(** [h := sha256.New(); h.Write(msg); h.Sum(nil)]. *)
Definition Sum256 (msg : list byte) : list byte :=
  let p := pad msg in
  let s := blocks (length p / 64) init p in
  be_bytes 4 (sa s) ++ be_bytes 4 (sb s) ++ be_bytes 4 (sc s) ++ be_bytes 4 (sd s)
  ++ be_bytes 4 (se s) ++ be_bytes 4 (sf s) ++ be_bytes 4 (sg s) ++ be_bytes 4 (sh s).

End sha256.


(** ** Secret strings *)

Definition generatedSecretStringPrefix : list byte := bytes_of "r!".
Definition generatedSecretStringPrefix2 : list byte := bytes_of "r[".

(** The bytes [NewSecretString] hex-encodes, from the 16 bytes of its
    buffer after the read: the buffer followed by the first two bytes of its
    SHA-256 digest. *)
Definition secret_body (b : list byte) : list byte :=
  let digest := sha256.Sum256 b in
  b ++ [index digest 0; index digest 1].

(** [NewSecretString]: one [Read] into a zeroed 16-byte buffer (the number
    of bytes read is ignored, as in the source), then checksum and
    hex-encode.  The panic message carries the reader's error text in the
    source. *)
Definition NewSecretString (rand : Reader) : outcome (list byte) * Reader :=
  match Reader_Read rand 16 with
  | (Val got, rand') =>
      let b := copy (zeros 16) got in
      (Ok (generatedSecretStringPrefix ++ hex.EncodeToString (secret_body b)), rand')
  | (Fail _, rand') => (Panic (panic_string "error reading from rand: "), rand')
  end.

Definition isValidSecretString (s : list byte) : bool :=
  if negb (HasPrefix s generatedSecretStringPrefix)
     && negb (HasPrefix s generatedSecretStringPrefix2)
  then false
  else
    let s := drop (length generatedSecretStringPrefix) s in
    if (len s mod 2 =? 1) || negb (hex.DecodedLen (len s) =? 18) then false
    else
      match hex.Decode s with
      | None => false
      | Some decoded =>
          let b := copy (zeros 18) decoded in
          let digest := sha256.Sum256 (take 16 b) in
          byte_eqb (index b 16) (index digest 0)
          && byte_eqb (index b 17) (index digest 1)
      end.

Definition IsAcceptableSecretString (s : list byte) : bool :=
  if negb (HasPrefix s generatedSecretStringPrefix)
     && negb (HasPrefix s generatedSecretStringPrefix2)
  then true
  else isValidSecretString s.

(** ** The serialised records

    Modelled from the spec: the generated protobuf package [panda/proto] is
    not among the sources.  Section 6 of the specification gives the record:
    a status enum; a shared-secret record (optional text secret, optional
    deck count with a per-card count vector, optional appointment sub-record
    with day, month, year, hours, minutes); the payload bytes; and raw byte
    fields for the DH private key, the derived key, the two rendezvous tags,
    the session shared key and the two messages.  An optional scalar is an
    [option]; a getter on an absent field returns the zero value. *)
Module panda_proto.

Inductive KeyExchange_Status : Type :=
| KeyExchange_INIT
| KeyExchange_EXCHANGE1
| KeyExchange_EXCHANGE2
| KeyExchange_Status_other (v : Z).

Record KeyExchange_SharedSecret_Time : Type := mkTime {
  Day : option Z;
  Month : option Z;
  Year : option Z;
  Hours : option Z;
  Minutes : option Z
}.

Record KeyExchange_SharedSecret : Type := mkSharedSecret {
  Secret : option (list byte);
  NumDecks : option Z;
  CardCount : list Z;
  Time : option KeyExchange_SharedSecret_Time
}.

Record KeyExchange : Type := mkKeyExchange {
  Status : option KeyExchange_Status;
  SharedSecret : option KeyExchange_SharedSecret;
  KeyExchangeBytes : list byte;
  DhPrivate : list byte;
  Key : list byte;
  Meeting1 : list byte;
  Meeting2 : list byte;
  Message1 : list byte;
  Message2 : list byte;
  SharedKey : list byte
}.

Definition GetSecret (p : KeyExchange_SharedSecret) : list byte :=
  default [] (Secret p).
Definition GetNumDecks (p : KeyExchange_SharedSecret) : Z :=
  default 0 (NumDecks p).
(** Getters of the appointment sub-record, on a possibly nil pointer. *)
Definition GetDay (t : option KeyExchange_SharedSecret_Time) : Z :=
  default 0 (t ≫= Day).
Definition GetMonth (t : option KeyExchange_SharedSecret_Time) : Z :=
  default 0 (t ≫= Month).
Definition GetYear (t : option KeyExchange_SharedSecret_Time) : Z :=
  default 0 (t ≫= Year).
Definition GetHours (t : option KeyExchange_SharedSecret_Time) : Z :=
  default 0 (t ≫= Hours).
Definition GetMinutes (t : option KeyExchange_SharedSecret_Time) : Z :=
  default 0 (t ≫= Minutes).
Definition GetStatus (p : KeyExchange) : KeyExchange_Status :=
  default KeyExchange_INIT (Status p).

End panda_proto.

Abbreviation KeyExchange_Status := panda_proto.KeyExchange_Status.
Abbreviation KeyExchange_INIT := panda_proto.KeyExchange_INIT.
Abbreviation KeyExchange_EXCHANGE1 := panda_proto.KeyExchange_EXCHANGE1.
Abbreviation KeyExchange_EXCHANGE2 := panda_proto.KeyExchange_EXCHANGE2.

Definition is_INIT (s : KeyExchange_Status) : bool :=
  match s with KeyExchange_INIT => true | _ => false end.

(** ** Card stacks

    Modelled from the spec: [card.go] is not among the sources.  A card-deck
    secret is a number of decks plus a fixed-length vector counting, for each
    distinct card, how many times it appears.  The vector has [numCards]
    entries; [numCards] and [Canonicalise] are collaborators (below). *)
Record CardStack : Type := mkCardStack {
  NumDecks : Z;
  counts : list Z
}.

Record SharedSecret : Type := mkSharedSecret {
  Secret : list byte;
  Cards : CardStack;
  Day : Z;
  Month : Z;
  Year : Z;
  Hours : Z;
  Minutes : Z
}.

(** ** Collaborators

    The libraries the package calls and the pieces of the repository that
    are not among the sources.  Each is a function of exactly the arguments
    the source passes.  Functions that fill a fixed-size array return the
    bytes written; the caller copies them into the array. *)
Class Externals : Type := {
  (** [card.go]: the number of distinct cards and the canonical summary. *)
  numCards : nat;
  Canonicalise : CardStack -> CardStack;
  (** [proto.Marshal] and [proto.Unmarshal] at the two message types. *)
  proto_Marshal_SharedSecret :
    panda_proto.KeyExchange_SharedSecret -> result (list byte);
  proto_Marshal_KeyExchange : panda_proto.KeyExchange -> result (list byte);
  proto_Unmarshal_KeyExchange : list byte -> result panda_proto.KeyExchange;
  (** [hkdf.New(sha256.New, secret, nil, info)] followed by reads: the [n]
      bytes of the output stream from offset [off]. *)
  hkdf_Read : list byte -> list byte -> nat -> nat -> result (list byte);
  (** [scrypt.Key(password, salt, N, r, p, keyLen)]. *)
  scrypt_Key : list byte -> list byte -> Z -> Z -> Z -> Z -> result (list byte);
  (** The [--panda-scrypt] subprocess: standard input to standard output,
      or the error of [cmd.Run]. *)
  scrypt_subprocess : list byte -> result (list byte);
  runtime_GOARCH : string;
  runtime_GOOS : string;
  (** [rijndael.NewCipher(key).Encrypt(dst, src)] and [Decrypt]. *)
  rijndael_Encrypt : list byte -> list byte -> list byte;
  rijndael_Decrypt : list byte -> list byte -> list byte;
  curve25519_ScalarBaseMult : list byte -> list byte;
  curve25519_ScalarMult : list byte -> list byte -> list byte;
  (** [secretbox.Seal(nil, message, nonce, key)] and
      [secretbox.Open(nil, box, nonce, key)]. *)
  secretbox_Seal : list byte -> list byte -> list byte -> list byte;
  secretbox_Open : list byte -> list byte -> list byte -> option (list byte)
}.

(** [secretbox.Overhead], the size of the Poly1305 tag. *)
Definition secretbox_Overhead : Z := 16.

(** The content of a [[32]byte] array after a collaborator wrote [l] to it. *)
Definition array32 (l : list byte) : list byte := copy (zeros 32) l.

(** ** Shutdown channel

    A [chan struct{}]: nil, open with a number of buffered values, or
    closed. *)
Inductive chan : Type :=
| chan_nil
| chan_open (pending : nat)
| chan_closed.

(** The non-blocking receive of [shouldStop]: whether a value was received,
    and the channel afterwards. *)
Definition try_recv (c : chan) : bool * chan :=
  match c with
  | chan_nil => (false, chan_nil)
  | chan_open O => (false, chan_open O)
  | chan_open (S n) => (true, chan_open n)
  | chan_closed => (true, chan_closed)
  end.

(** ** Meeting place

    An implementation of the [MeetingPlace] interface: its fixed message
    size, its behaviour as a function of the calls made so far, of the
    logger and shutdown channel it is handed and of the current call, and
    the calls made so far, each a pair of an id and a message. *)
Record MeetingPlace : Type := mkMeetingPlace {
  Padding : Z;
  script : list (list byte * list byte) -> bool -> chan ->
           list byte -> list byte -> result (list byte);
  calls : list (list byte * list byte)
}.

Definition Exchange (mp : MeetingPlace) (log : bool) (id message : list byte)
  (shutdown : chan) : result (list byte) * MeetingPlace :=
  (script mp (calls mp) log shutdown id message,
   mkMeetingPlace (Padding mp) (script mp) (calls mp ++ [(id, message)])).

(** ** Key exchange state

    [Log] is [true] when the field holds a function and [false] when it is
    nil.  [rand], [meetingPlace] and [ShutdownChan] refer to objects outside
    the struct; their state is threaded through the record.  The mutex only
    guards [serialised] against concurrent readers and is not modelled. *)
Record KeyExchange : Type := mkKeyExchange {
  Log : bool;
  Testing : bool;
  ShutdownChan : chan;
  rand : Reader;
  status : KeyExchange_Status;
  meetingPlace : MeetingPlace;
  sharedSecret : SharedSecret;
  serialised : list byte;
  kxBytes : list byte;
  key : list byte;
  meeting1 : list byte;
  meeting2 : list byte;
  dhPublic : list byte;
  dhPrivate : list byte;
  sharedKey : list byte;
  message1 : list byte;
  message2 : list byte
}.

Definition set_Log (v : bool) (kx : KeyExchange) : KeyExchange :=
  mkKeyExchange v (Testing kx) (ShutdownChan kx) (rand kx) (status kx)
    (meetingPlace kx) (sharedSecret kx) (serialised kx) (kxBytes kx) (key kx)
    (meeting1 kx) (meeting2 kx) (dhPublic kx) (dhPrivate kx) (sharedKey kx)
    (message1 kx) (message2 kx).
Definition set_Testing (v : bool) (kx : KeyExchange) : KeyExchange :=
  mkKeyExchange (Log kx) v (ShutdownChan kx) (rand kx) (status kx)
    (meetingPlace kx) (sharedSecret kx) (serialised kx) (kxBytes kx) (key kx)
    (meeting1 kx) (meeting2 kx) (dhPublic kx) (dhPrivate kx) (sharedKey kx)
    (message1 kx) (message2 kx).
Definition set_ShutdownChan (v : chan) (kx : KeyExchange) : KeyExchange :=
  mkKeyExchange (Log kx) (Testing kx) v (rand kx) (status kx)
    (meetingPlace kx) (sharedSecret kx) (serialised kx) (kxBytes kx) (key kx)
    (meeting1 kx) (meeting2 kx) (dhPublic kx) (dhPrivate kx) (sharedKey kx)
    (message1 kx) (message2 kx).
Definition set_rand (v : Reader) (kx : KeyExchange) : KeyExchange :=
  mkKeyExchange (Log kx) (Testing kx) (ShutdownChan kx) v (status kx)
    (meetingPlace kx) (sharedSecret kx) (serialised kx) (kxBytes kx) (key kx)
    (meeting1 kx) (meeting2 kx) (dhPublic kx) (dhPrivate kx) (sharedKey kx)
    (message1 kx) (message2 kx).
Definition set_status (v : KeyExchange_Status) (kx : KeyExchange) : KeyExchange :=
  mkKeyExchange (Log kx) (Testing kx) (ShutdownChan kx) (rand kx) v
    (meetingPlace kx) (sharedSecret kx) (serialised kx) (kxBytes kx) (key kx)
    (meeting1 kx) (meeting2 kx) (dhPublic kx) (dhPrivate kx) (sharedKey kx)
    (message1 kx) (message2 kx).
Definition set_meetingPlace (v : MeetingPlace) (kx : KeyExchange) : KeyExchange :=
  mkKeyExchange (Log kx) (Testing kx) (ShutdownChan kx) (rand kx) (status kx)
    v (sharedSecret kx) (serialised kx) (kxBytes kx) (key kx) (meeting1 kx)
    (meeting2 kx) (dhPublic kx) (dhPrivate kx) (sharedKey kx) (message1 kx)
    (message2 kx).
Definition set_serialised (v : list byte) (kx : KeyExchange) : KeyExchange :=
  mkKeyExchange (Log kx) (Testing kx) (ShutdownChan kx) (rand kx) (status kx)
    (meetingPlace kx) (sharedSecret kx) v (kxBytes kx) (key kx) (meeting1 kx)
    (meeting2 kx) (dhPublic kx) (dhPrivate kx) (sharedKey kx) (message1 kx)
    (message2 kx).
Definition set_key (v : list byte) (kx : KeyExchange) : KeyExchange :=
  mkKeyExchange (Log kx) (Testing kx) (ShutdownChan kx) (rand kx) (status kx)
    (meetingPlace kx) (sharedSecret kx) (serialised kx) (kxBytes kx) v
    (meeting1 kx) (meeting2 kx) (dhPublic kx) (dhPrivate kx) (sharedKey kx)
    (message1 kx) (message2 kx).
Definition set_meeting1 (v : list byte) (kx : KeyExchange) : KeyExchange :=
  mkKeyExchange (Log kx) (Testing kx) (ShutdownChan kx) (rand kx) (status kx)
    (meetingPlace kx) (sharedSecret kx) (serialised kx) (kxBytes kx) (key kx)
    v (meeting2 kx) (dhPublic kx) (dhPrivate kx) (sharedKey kx) (message1 kx)
    (message2 kx).
Definition set_meeting2 (v : list byte) (kx : KeyExchange) : KeyExchange :=
  mkKeyExchange (Log kx) (Testing kx) (ShutdownChan kx) (rand kx) (status kx)
    (meetingPlace kx) (sharedSecret kx) (serialised kx) (kxBytes kx) (key kx)
    (meeting1 kx) v (dhPublic kx) (dhPrivate kx) (sharedKey kx) (message1 kx)
    (message2 kx).
Definition set_dhPublic (v : list byte) (kx : KeyExchange) : KeyExchange :=
  mkKeyExchange (Log kx) (Testing kx) (ShutdownChan kx) (rand kx) (status kx)
    (meetingPlace kx) (sharedSecret kx) (serialised kx) (kxBytes kx) (key kx)
    (meeting1 kx) (meeting2 kx) v (dhPrivate kx) (sharedKey kx) (message1 kx)
    (message2 kx).
Definition set_dhPrivate (v : list byte) (kx : KeyExchange) : KeyExchange :=
  mkKeyExchange (Log kx) (Testing kx) (ShutdownChan kx) (rand kx) (status kx)
    (meetingPlace kx) (sharedSecret kx) (serialised kx) (kxBytes kx) (key kx)
    (meeting1 kx) (meeting2 kx) (dhPublic kx) v (sharedKey kx) (message1 kx)
    (message2 kx).
Definition set_sharedKey (v : list byte) (kx : KeyExchange) : KeyExchange :=
  mkKeyExchange (Log kx) (Testing kx) (ShutdownChan kx) (rand kx) (status kx)
    (meetingPlace kx) (sharedSecret kx) (serialised kx) (kxBytes kx) (key kx)
    (meeting1 kx) (meeting2 kx) (dhPublic kx) (dhPrivate kx) v (message1 kx)
    (message2 kx).
Definition set_message1 (v : list byte) (kx : KeyExchange) : KeyExchange :=
  mkKeyExchange (Log kx) (Testing kx) (ShutdownChan kx) (rand kx) (status kx)
    (meetingPlace kx) (sharedSecret kx) (serialised kx) (kxBytes kx) (key kx)
    (meeting1 kx) (meeting2 kx) (dhPublic kx) (dhPrivate kx) (sharedKey kx) v
    (message2 kx).
Definition set_message2 (v : list byte) (kx : KeyExchange) : KeyExchange :=
  mkKeyExchange (Log kx) (Testing kx) (ShutdownChan kx) (rand kx) (status kx)
    (meetingPlace kx) (sharedSecret kx) (serialised kx) (kxBytes kx) (key kx)
    (meeting1 kx) (meeting2 kx) (dhPublic kx) (dhPrivate kx) (sharedKey kx)
    (message1 kx) v.

(** A computation on a key exchange: the outcome and the struct afterwards
    (fields assigned before a failure stay assigned). *)
Definition M (A : Type) : Type := KeyExchange -> outcome A * KeyExchange.

Definition ret {A} (a : A) : M A := fun kx => (Ok a, kx).
Definition fail {A} (e : error) : M A := fun kx => (Err e, kx).
Definition panic {A} (p : panic_value) : M A := fun kx => (Panic p, kx).
Definition bind {A B} (c : M A) (k : A -> M B) : M B :=
  fun kx =>
    match c kx with
    | (Ok a, kx') => k a kx'
    | (Err e, kx') => (Err e, kx')
    | (Panic m, kx') => (Panic m, kx')
    end.
Definition get : M KeyExchange := fun kx => (Ok kx, kx).
Definition modify (f : KeyExchange -> KeyExchange) : M unit :=
  fun kx => (Ok tt, f kx).
Definition lift {A} (o : outcome A) : M A := fun kx => (o, kx).
Definition call {A} (r : result A) : M A := lift (of_result r).

Notation "x <- c ;; k" := (bind c (fun x => k))
  (at level 20, c at level 99, k at level 200, only parsing).
Notation "c ;; k" := (bind c (fun _ => k))
  (at level 100, k at level 200, right associativity, only parsing).

(** [io.ReadFull(kx.rand, buf)] for a buffer of [n] bytes: the bytes written
    to the front of the buffer, and whether the read failed. *)
Definition ReadFull_rand (n : nat) : M (list byte * option error_value) :=
  kx <- get ;;
  let '(got, err, r) := io_ReadFull (rand kx) n in
  modify (set_rand r) ;;
  ret (got, err).

(** [kx.meetingPlace.Exchange(kx.Log, id, message, kx.ShutdownChan)]. *)
Definition call_Exchange (id message : list byte) : M (list byte) :=
  kx <- get ;;
  let '(reply, mp) :=
    Exchange (meetingPlace kx) (Log kx) id message (ShutdownChan kx) in
  modify (set_meetingPlace mp) ;;
  call reply.

(** [kx.Log(...)]: calling a nil function value panics. *)
Definition call_Log : M unit :=
  kx <- get ;;
  if Log kx then ret tt
  else panic (runtime_error "kx.Log").

Section panda.
Context {E : Externals}.

(** ** Shared secrets *)

Definition isStrongRandom (s : SharedSecret) : bool :=
  HasPrefix (Secret s) generatedSecretStringPrefix2
  && isValidSecretString (Secret s).

Definition toProto (s : SharedSecret) : panda_proto.KeyExchange_SharedSecret :=
  let with_decks := 0 <? NumDecks (Cards s) in
  panda_proto.mkSharedSecret
    (if 0 <? len (Secret s) then Some (Secret s) else None)
    (if with_decks then Some (int32 (NumDecks (Cards s))) else None)
    (if with_decks then counts (Canonicalise (Cards s)) else [])
    (if Year s =? 0 then None
     else Some (panda_proto.mkTime
                  (Some (int32 (Day s))) (Some (int32 (Month s)))
                  (Some (int32 (Year s))) (Some (int32 (Hours s)))
                  (Some (int32 (Minutes s))))).

(** [newSharedSecret(p)] for a non-nil [p]; [None] is the [(nil, false)]
    return.  [ret.Cards] starts as the zero [CardStack], whose count vector
    is an array of [numCards] zeros. *)
Definition newSharedSecret (p : panda_proto.KeyExchange_SharedSecret)
  : option SharedSecret :=
  let ret_ cards :=
    mkSharedSecret (panda_proto.GetSecret p) cards
      (panda_proto.GetDay (panda_proto.Time p))
      (panda_proto.GetMonth (panda_proto.Time p))
      (panda_proto.GetYear (panda_proto.Time p))
      (panda_proto.GetHours (panda_proto.Time p))
      (panda_proto.GetMinutes (panda_proto.Time p)) in
  let numDecks := panda_proto.GetNumDecks p in
  if 0 <? numDecks then
    if negb (length (panda_proto.CardCount p) =? numCards)%nat then None
    else Some (ret_ (mkCardStack numDecks
                       (copy (replicate numCards 0) (panda_proto.CardCount p))))
  else
    if len (panda_proto.GetSecret p) =? 0 then None
    else Some (ret_ (mkCardStack numDecks (replicate numCards 0))).

(** ** Serialisation *)

(** The message [updateSerialised] builds. *)
Definition snapshot (kx : KeyExchange) : panda_proto.KeyExchange :=
  if is_INIT (status kx) then
    panda_proto.mkKeyExchange (Some (status kx))
      (Some (toProto (sharedSecret kx))) (kxBytes kx) [] [] [] [] [] [] []
  else
    panda_proto.mkKeyExchange (Some (status kx))
      (Some (toProto (sharedSecret kx))) (kxBytes kx)
      (dhPrivate kx) (key kx) (meeting1 kx) (meeting2 kx)
      (message1 kx) (message2 kx) (sharedKey kx).

Definition updateSerialised : M unit :=
  kx <- get ;;
  match proto_Marshal_KeyExchange (snapshot kx) with
  | Val serialised_ => modify (set_serialised serialised_)
  | Fail err => panic (panic_error err)
  end.

Definition Marshal (kx : KeyExchange) : list byte := serialised kx.

(** ** Construction *)

Definition NewKeyExchange (rand_ : Reader) (meetingPlace_ : MeetingPlace)
  (sharedSecret_ : SharedSecret) (kxBytes_ : list byte) : outcome KeyExchange :=
  if Padding meetingPlace_ <? 24 + 4 + len kxBytes_ + secretbox_Overhead then
    Err (errors_New "panda: key exchange too large for meeting place")
  else
    let kx := mkKeyExchange true false chan_nil rand_ KeyExchange_INIT
                meetingPlace_ sharedSecret_ [] kxBytes_
                (zeros 32) (zeros 32) (zeros 32) (zeros 32) (zeros 32)
                (zeros 32) [] [] in
    let c : M unit :=
      r <- ReadFull_rand 32 ;;
      modify (fun kx => set_dhPrivate (copy (dhPrivate kx) (fst r)) kx) ;;
      match snd r with
      | Some err => fail err
      | None =>
          modify (fun kx =>
            set_dhPublic (array32 (curve25519_ScalarBaseMult (dhPrivate kx))) kx) ;;
          updateSerialised
      end in
    match c kx with
    | (Ok _, kx') => Ok kx'
    | (Err e, _) => Err e
    | (Panic m, _) => Panic m
    end.

Definition UnmarshalKeyExchange (rand_ : Reader) (meetingPlace_ : MeetingPlace)
  (serialised_ : list byte) : outcome KeyExchange :=
  match proto_Unmarshal_KeyExchange serialised_ with
  | Fail e => Err e
  | Val p =>
      match panda_proto.SharedSecret p with
      | None => Panic (runtime_error "p.Time")
      | Some ps =>
          match newSharedSecret ps with
          | None =>
              Err (errors_New
                     "panda: invalid shared secret in serialised key exchange")
          | Some sharedSecret_ =>
              let dhPrivate_ := copy (zeros 32) (panda_proto.DhPrivate p) in
              Ok (mkKeyExchange false false chan_nil rand_
                    (panda_proto.GetStatus p) meetingPlace_ sharedSecret_
                    serialised_ (panda_proto.KeyExchangeBytes p)
                    (copy (zeros 32) (panda_proto.Key p))
                    (copy (zeros 32) (panda_proto.Meeting1 p))
                    (copy (zeros 32) (panda_proto.Meeting2 p))
                    (array32 (curve25519_ScalarBaseMult dhPrivate_))
                    dhPrivate_
                    (copy (zeros 32) (panda_proto.SharedKey p))
                    (panda_proto.Message1 p) (panda_proto.Message2 p))
          end
      end
  end.

(** ** The protocol steps *)

Definition shouldStop : M bool :=
  kx <- get ;;
  let '(stop, c) := try_recv (ShutdownChan kx) in
  modify (set_ShutdownChan c) ;;
  ret stop.

Definition hkdf_info : list byte := bytes_of "PANDA strong secret expansion".

(** The first half of [derivePassword]: fills [key], [meeting1] and
    [meeting2]. *)
Definition deriveKeys (serialised_ : list byte) : M unit :=
  kx <- get ;;
  if Testing kx || isStrongRandom (sharedSecret kx) then
    k <- call (hkdf_Read serialised_ hkdf_info 0 32) ;;
    modify (fun kx => set_key (copy (key kx) k) kx) ;;
    m1 <- call (hkdf_Read serialised_ hkdf_info 32 32) ;;
    modify (fun kx => set_meeting1 (copy (meeting1 kx) m1) kx) ;;
    m2 <- call (hkdf_Read serialised_ hkdf_info 64 32) ;;
    modify (fun kx => set_meeting2 (copy (meeting2 kx) m2) kx)
  else
    data <-
      (if String.eqb runtime_GOARCH "386" && String.eqb runtime_GOOS "linux"
       then
         out <- call (scrypt_subprocess
                        (le32 (uint32 (len serialised_)) ++ serialised_)) ;;
         if negb (len out =? 32 * 3) then
           fail (errors_New
                   ("scrypt subprocess returned wrong number of bytes: "
                    +:+ pretty (len out)))
         else ret out
       else call (scrypt_Key serialised_ [] (Z.shiftl 1 17) 16 4 (32 * 3))) ;;
    modify (fun kx => set_key (copy (key kx) data) kx) ;;
    d32 <- lift (slice_from "data[32:]" data 32) ;;
    modify (fun kx => set_meeting1 (copy (meeting1 kx) d32) kx) ;;
    d64 <- lift (slice_from "data[64:]" data 64) ;;
    modify (fun kx => set_meeting2 (copy (meeting2 kx) d64) kx).

Definition derivePassword : M unit :=
  kx <- get ;;
  serialised_ <- call (proto_Marshal_SharedSecret (toProto (sharedSecret kx))) ;;
  deriveKeys serialised_ ;;
  kx <- get ;;
  let encryptedDHPublic := array32 (rijndael_Encrypt (key kx) (dhPublic kx)) in
  let l := len encryptedDHPublic in
  let padding := Padding (meetingPlace kx) in
  if padding <? l then
    fail (errors_New "panda: initial message too large for meeting place")
  else
    let l := if l <? padding then padding else l in
    m <- lift (make "make([]byte, l)" l) ;;
    modify (set_message1 (copy m encryptedDHPublic)) ;;
    r <- ReadFull_rand (Z.to_nat l - length encryptedDHPublic) ;;
    modify (fun kx =>
      set_message1 (copy_at (message1 kx) (length encryptedDHPublic) (fst r)) kx) ;;
    match snd r with
    | Some err => fail err
    | None => ret tt
    end.

(** What [secretbox.Seal(buf[off:off], ...)] leaves in [buf] when the
    sealed box is [box]: the box is written in place when it fits the
    capacity behind [off], and goes to a fresh array otherwise. *)
Definition seal_at (buf : list byte) (off : nat) (box : list byte) : list byte :=
  if decide (off + length box <= length buf)%nat
  then take off buf ++ box ++ drop (off + length box) buf
  else buf.

Definition exchange1 : M unit :=
  kx <- get ;;
  reply <- call_Exchange (meeting1 kx) (message1 kx) ;;
  if len reply <? 32 then
    fail (errors_New "panda: meeting point reply too small")
  else
    let encryptedPeerDHPublic := copy (zeros 32) reply in
    let peerDHPublic := array32 (rijndael_Decrypt (key kx) encryptedPeerDHPublic) in
    modify (fun kx =>
      set_sharedKey (array32 (curve25519_ScalarMult (dhPrivate kx) peerDHPublic)) kx) ;;
    kx <- get ;;
    let paddedLen := Padding (meetingPlace kx) in
    padded <- lift (make "make([]byte, paddedLen-24-secretbox.Overhead)"
                      (paddedLen - 24 - secretbox_Overhead)) ;;
    padded <- lift (PutUint32 padded (uint32 (len (kxBytes kx)))) ;;
    let padded := copy_at padded 4 (kxBytes kx) in
    filler <- lift (slice_from "padded[4+len(kx.kxBytes):]" padded
                      (4 + len (kxBytes kx))) ;;
    r <- ReadFull_rand (length filler) ;;
    let padded := copy_at padded (4 + length (kxBytes kx)) (fst r) in
    match snd r with
    | Some err => fail err
    | None =>
        r <- ReadFull_rand 24 ;;
        let nonce := copy (zeros 24) (fst r) in
        match snd r with
        | Some err => fail err
        | None =>
            m <- lift (make "make([]byte, paddedLen)" paddedLen) ;;
            kx <- get ;;
            modify (set_message2
                      (seal_at (copy m nonce) 24
                         (secretbox_Seal padded nonce (sharedKey kx))))
        end
    end.

Definition exchange2 : M (list byte) :=
  kx <- get ;;
  reply <- call_Exchange (meeting2 kx) (message2 kx) ;;
  if len reply <? 24 then
    fail (errors_New "panda: meeting point reply too small")
  else if byte_eqb (index (sharedKey kx) 0) x00
          && byte_eqb (index (sharedKey kx) 1) x00 then
    panic (panic_string "here")
  else
    let nonce := copy (zeros 24) reply in
    match secretbox_Open (drop 24 reply) nonce (sharedKey kx) with
    | None => fail (errors_New "panda: peer's message cannot be authenticated")
    | Some message =>
        if len message <? 4 then
          fail (errors_New "panda: peer's message is invalid")
        else
          let l := Uint32 message in
          let message := drop 4 message in
          if uint32 (len message) <? l then
            fail (errors_New "panda: peer's message is truncated")
          else ret (take (Z.to_nat l) message)
    end.

(** ** Run

    The [switch] with its [fallthrough]s: each case runs its step and
    continues with the next case. *)
Definition Run_EXCHANGE2 : M (list byte) := exchange2.

Definition Run_EXCHANGE1 : M (list byte) :=
  exchange1 ;;
  modify (set_status KeyExchange_EXCHANGE2) ;;
  updateSerialised ;;
  call_Log ;;
  stop <- shouldStop ;;
  if (stop : bool) then fail ShutdownErr else Run_EXCHANGE2.

Definition Run_INIT : M (list byte) :=
  derivePassword ;;
  modify (set_status KeyExchange_EXCHANGE1) ;;
  updateSerialised ;;
  call_Log ;;
  stop <- shouldStop ;;
  if (stop : bool) then fail ShutdownErr else Run_EXCHANGE1.

Definition Run : M (list byte) :=
  kx <- get ;;
  match status kx with
  | KeyExchange_INIT => Run_INIT
  | KeyExchange_EXCHANGE1 => Run_EXCHANGE1
  | KeyExchange_EXCHANGE2 => Run_EXCHANGE2
  | panda_proto.KeyExchange_Status_other _ => panic (panic_string "unknown state")
  end.

End panda.

(** ** keys.go: registration and lookup of pre-key bundles *)
Module keys.

Record Key : Type := mkKey {
  Key_KeyID : Z;
  Key_PublicKey : list byte
}.

Record SignedKey : Type := mkSignedKey {
  SignedKey_KeyID : Z;
  SignedKey_PublicKey : list byte;
  SignedKey_Signature : list byte
}.

Record PreKeys : Type := mkPreKeys {
  signedPreKey : SignedKey;
  IdentityKey : list byte;
  LastResortKey : Key;
  Keys : list Key
}.

(** The collaborators of the two handlers.  [encodeNumber] is declared
    elsewhere in the repository and is not among the sources; it is taken
    as it is used, a function from the user name to an identifier. *)
Class Glue : Type := {
  sha1_Sum : list byte -> list byte;
  encodeNumber : list byte -> list byte;
  json_Unmarshal : list byte -> result PreKeys
}.

(** Modelled from the spec: [writeDB] and [readDB] are not among the
    sources; the specification names the storage of registered public-key
    bundles a key-value store.  An entry is addressed by an identifier and
    a column; writing replaces the entry, reading an absent entry is an
    error. *)
Abbreviation DB := (gmap (list N * list N) (list byte)).

Definition db_key (id column : list byte) : list N * list N :=
  (Byte.to_N <$> id, Byte.to_N <$> column).

Definition writeDB (id column value : list byte) (db : DB) : DB :=
  <[db_key id column := value]> db.

Definition readDB (id column : list byte) (db : DB) : result (list byte) :=
  match db !! db_key id column with
  | Some value => Val value
  | None => Fail (foreign 404)
  end.

(** What a handler is given: the result of [req.BasicAuth()] (user name
    and password, when present) and of reading the request body. *)
Record Request : Type := mkRequest {
  BasicAuth : option (list byte * list byte);
  Body : result (list byte)
}.

(** What a handler wrote to the [http.ResponseWriter]. *)
Record Response : Type := mkResponse {
  StatusCode : Z;
  Written : list byte
}.

(** [http.Error(w, msg, code)]. *)
Definition http_Error (msg : string) (code : Z) : Response :=
  mkResponse code (bytes_of msg ++ [x0a]).

Section handlers.
Context {G : Glue}.

Definition registerKeys (req : Request) (db : DB) : Response * DB :=
  match BasicAuth req with
  | None => (http_Error "auth fail" 401, db)
  | Some (uname, _) =>
      match Body req with
      | Fail _ => (http_Error "server error" 500, db)
      | Val body =>
          match json_Unmarshal body with
          | Fail _ => (http_Error "server error" 500, db)
          | Val _ =>
              let id := sha1_Sum uname in
              (mkResponse 200 [], writeDB id (bytes_of "k") body db)
          end
      end
  end.

Definition recipientKeys (req : Request) (db : DB) : Response :=
  match BasicAuth req with
  | None => http_Error "auth fail" 401
  | Some (uname, _) =>
      let id := encodeNumber uname in
      match readDB id (bytes_of "k") db with
      | Fail _ => http_Error "server error" 500
      | Val value =>
          match json_Unmarshal value with
          | Fail _ => http_Error "server error" 500
          | Val _ => mkResponse 200 value
          end
      end
  end.

End handlers.

End keys.

(** ** Test doubles

    Small executable stand-ins for the collaborators, in the manner of a
    test suite's mocks.  They are used only to run the model on concrete
    inputs; every general theorem below is proved for arbitrary
    collaborators. *)
Module doubles.

Definition xor_byte (a b : byte) : byte :=
  byte_of_N (N.lxor (Byte.to_N a) (Byte.to_N b)).

(** *** A length-prefixed codec for the serialised records *)

Definition enc_Z (z : Z) : list byte := le32 (uint32 z).
Definition enc_bytes (b : list byte) : list byte := le32 (len b) ++ b.
Definition enc_opt {A} (e : A -> list byte) (o : option A) : list byte :=
  match o with None => [x00] | Some a => x01 :: e a end.
Definition enc_list_Z (l : list Z) : list byte :=
  le32 (len l) ++ flat_map enc_Z l.
Definition enc_status (s : KeyExchange_Status) : list byte :=
  match s with
  | KeyExchange_INIT => [x00]
  | KeyExchange_EXCHANGE1 => [x01]
  | KeyExchange_EXCHANGE2 => [x02]
  | panda_proto.KeyExchange_Status_other v => x03 :: enc_Z v
  end.
Definition enc_Time (t : panda_proto.KeyExchange_SharedSecret_Time) : list byte :=
  enc_opt enc_Z (panda_proto.Day t) ++ enc_opt enc_Z (panda_proto.Month t)
  ++ enc_opt enc_Z (panda_proto.Year t) ++ enc_opt enc_Z (panda_proto.Hours t)
  ++ enc_opt enc_Z (panda_proto.Minutes t).
Definition enc_SharedSecret (p : panda_proto.KeyExchange_SharedSecret) : list byte :=
  enc_opt enc_bytes (panda_proto.Secret p)
  ++ enc_opt enc_Z (panda_proto.NumDecks p)
  ++ enc_list_Z (panda_proto.CardCount p)
  ++ enc_opt enc_Time (panda_proto.Time p).
Definition enc_KeyExchange (p : panda_proto.KeyExchange) : list byte :=
  enc_opt enc_status (panda_proto.Status p)
  ++ enc_opt enc_SharedSecret (panda_proto.SharedSecret p)
  ++ enc_bytes (panda_proto.KeyExchangeBytes p)
  ++ enc_bytes (panda_proto.DhPrivate p) ++ enc_bytes (panda_proto.Key p)
  ++ enc_bytes (panda_proto.Meeting1 p) ++ enc_bytes (panda_proto.Meeting2 p)
  ++ enc_bytes (panda_proto.Message1 p) ++ enc_bytes (panda_proto.Message2 p)
  ++ enc_bytes (panda_proto.SharedKey p).

(** A parser consumes a prefix of its input. *)
Definition parser (A : Type) : Type := list byte -> option (A * list byte).

Definition p_ret {A} (a : A) : parser A := fun bs => Some (a, bs).
Definition p_bind {A B} (p : parser A) (k : A -> parser B) : parser B :=
  fun bs => match p bs with Some (a, rest) => k a rest | None => None end.

Definition dec_u32 : parser Z :=
  fun bs => if (length bs <? 4)%nat then None else Some (Uint32 bs, drop 4 bs).
Definition dec_Z : parser Z := p_bind dec_u32 (fun v => p_ret (int32 v)).
Definition dec_bytes : parser (list byte) :=
  p_bind dec_u32 (fun n bs =>
    if (length bs <? Z.to_nat n)%nat then None
    else Some (take (Z.to_nat n) bs, drop (Z.to_nat n) bs)).
Definition dec_opt {A} (p : parser A) : parser (option A) :=
  fun bs =>
    match bs with
    | x00 :: rest => Some (None, rest)
    | x01 :: rest => p_bind p (fun a => p_ret (Some a)) rest
    | _ => None
    end.
Fixpoint dec_many {A} (p : parser A) (n : nat) : parser (list A) :=
  match n with
  | O => p_ret []
  | S n' => p_bind p (fun a => p_bind (dec_many p n') (fun l => p_ret (a :: l)))
  end.
Definition dec_list_Z : parser (list Z) :=
  p_bind dec_u32 (fun n => dec_many dec_Z (Z.to_nat n)).
Definition dec_status : parser KeyExchange_Status :=
  fun bs =>
    match bs with
    | x00 :: rest => Some (KeyExchange_INIT, rest)
    | x01 :: rest => Some (KeyExchange_EXCHANGE1, rest)
    | x02 :: rest => Some (KeyExchange_EXCHANGE2, rest)
    | x03 :: rest =>
        p_bind dec_Z (fun v => p_ret (panda_proto.KeyExchange_Status_other v)) rest
    | _ => None
    end.
Definition dec_Time : parser panda_proto.KeyExchange_SharedSecret_Time :=
  p_bind (dec_opt dec_Z) (fun d =>
  p_bind (dec_opt dec_Z) (fun mo =>
  p_bind (dec_opt dec_Z) (fun y =>
  p_bind (dec_opt dec_Z) (fun h =>
  p_bind (dec_opt dec_Z) (fun mi =>
  p_ret (panda_proto.mkTime d mo y h mi)))))).
Definition dec_SharedSecret : parser panda_proto.KeyExchange_SharedSecret :=
  p_bind (dec_opt dec_bytes) (fun s =>
  p_bind (dec_opt dec_Z) (fun n =>
  p_bind dec_list_Z (fun c =>
  p_bind (dec_opt dec_Time) (fun t =>
  p_ret (panda_proto.mkSharedSecret s n c t))))).
Definition dec_KeyExchange : parser panda_proto.KeyExchange :=
  p_bind (dec_opt dec_status) (fun st =>
  p_bind (dec_opt dec_SharedSecret) (fun ss =>
  p_bind dec_bytes (fun kxb =>
  p_bind dec_bytes (fun dh =>
  p_bind dec_bytes (fun k =>
  p_bind dec_bytes (fun m1 =>
  p_bind dec_bytes (fun m2 =>
  p_bind dec_bytes (fun msg1 =>
  p_bind dec_bytes (fun msg2 =>
  p_bind dec_bytes (fun sk =>
  p_ret (panda_proto.mkKeyExchange st ss kxb dh k m1 m2 msg1 msg2 sk))))))))))).

Definition Unmarshal (bs : list byte) : result panda_proto.KeyExchange :=
  match dec_KeyExchange bs with
  | Some (p, []) => Val p
  | _ => Fail (foreign 1)
  end.

(** *** Key derivation: three SHA-256 blocks of the secret *)

Definition expand (tag : byte) (secret : list byte) : list byte :=
  sha256.Sum256 (tag :: x01 :: secret) ++ sha256.Sum256 (tag :: x02 :: secret)
  ++ sha256.Sum256 (tag :: x03 :: secret).

Definition hkdf (secret info : list byte) (off n : nat) : result (list byte) :=
  Val (take n (drop off (expand x48 (secret ++ info)))).

Definition scrypt (password salt : list byte) (N r p keyLen : Z)
  : result (list byte) :=
  Val (take (Z.to_nat keyLen) (expand x53 (password ++ salt))).

Definition subprocess (stdin : list byte) : result (list byte) :=
  scrypt (drop 4 stdin) [] (Z.shiftl 1 17) 16 4 96.

(** *** A block cipher: exclusive-or with the key (an involution) *)

Definition xor_block (key block : list byte) : list byte :=
  zip_with xor_byte block key.

(** *** Diffie-Hellman in the multiplicative group modulo 2^255 - 19 *)

Definition le_N (bs : list byte) : N :=
  foldr (fun b acc => (Byte.to_N b + 256 * acc)%N) 0%N bs.

Definition N_le (n : nat) (v : N) : list byte :=
  map (fun i => byte_of_N (N.shiftr v (8 * N.of_nat i))) (seq 0 n).

Definition dh_modulus : N := (2 ^ 255 - 19)%N.

Fixpoint pow_mod (b : N) (e : positive) : N :=
  match e with
  | xH => (b mod dh_modulus)%N
  | xO e' => let r := pow_mod b e' in (r * r mod dh_modulus)%N
  | xI e' => let r := pow_mod b e' in (r * r mod dh_modulus * b mod dh_modulus)%N
  end.

Definition dh (scalar point : list byte) : list byte :=
  N_le 32 (match le_N scalar with
           | N0 => 1 mod dh_modulus
           | Npos e => pow_mod (le_N point) e
           end)%N.

Definition dh_base (scalar : list byte) : list byte := dh scalar (N_le 32 2).

(** *** Authenticated encryption: a keyed stream and a 16-byte tag *)

Definition stream (key nonce : list byte) (m : list byte) : list byte :=
  let ks := sha256.Sum256 (key ++ nonce) in
  imap (fun i b => xor_byte b (index ks (i mod 32))) m.

Definition tag (key nonce ct : list byte) : list byte :=
  take 16 (sha256.Sum256 (ct ++ key ++ nonce)).

Definition Seal (message nonce key : list byte) : list byte :=
  let ct := stream key nonce message in
  tag key nonce ct ++ ct.

Definition Open (box nonce key : list byte) : option (list byte) :=
  if (length box <? 16)%nat then None
  else
    let ct := drop 16 box in
    if bytes_eqb (take 16 box) (tag key nonce ct)
    then Some (stream key nonce ct) else None.

#[local] Instance externals : Externals := {|
  numCards := 52;
  Canonicalise := fun c => c;
  proto_Marshal_SharedSecret := fun p => Val (enc_SharedSecret p);
  proto_Marshal_KeyExchange := fun p => Val (enc_KeyExchange p);
  proto_Unmarshal_KeyExchange := Unmarshal;
  hkdf_Read := hkdf;
  scrypt_Key := scrypt;
  scrypt_subprocess := subprocess;
  runtime_GOARCH := "amd64";
  runtime_GOOS := "linux";
  rijndael_Encrypt := xor_block;
  rijndael_Decrypt := xor_block;
  curve25519_ScalarBaseMult := dh_base;
  curve25519_ScalarMult := dh;
  secretbox_Seal := Seal;
  secretbox_Open := Open
|}.

(** *** A scripted meeting place: the i-th call gets the i-th reply *)

Definition scripted (padding : Z) (replies : list (result (list byte)))
  : MeetingPlace :=
  mkMeetingPlace padding
    (fun calls _ _ _ _ => nth (length calls) replies (Fail (foreign 2)))
    [].

(** A byte source for tests: [n] bytes counting up from [start]. *)
Definition counting (start : N) (n : nat) : list byte :=
  map (fun i => byte_of_N (start + N.of_nat i)) (seq 0 n).

Definition text_secret (s : string) : SharedSecret :=
  mkSharedSecret (bytes_of s) (mkCardStack 0 (replicate 52 0)) 0 0 0 0 0.

(** *** Two parties with the same secret

    [alice] and [bob] are fresh exchanges over a meeting place with 80-byte
    messages.  Each party's script holds the two messages the other one
    sends. *)
Definition run_to (c : M unit) (o : outcome KeyExchange) : outcome KeyExchange :=
  match o with
  | Ok kx => match c kx with
             | (Ok _, kx') => Ok kx'
             | (Err e, _) => Err e
             | (Panic p, _) => Panic p
             end
  | other => other
  end.

Definition message1_of (o : outcome KeyExchange) : list byte :=
  match o with Ok kx => message1 kx | _ => [] end.
Definition message2_of (o : outcome KeyExchange) : list byte :=
  match o with Ok kx => message2 kx | _ => [] end.

Definition party (rand_ : Reader) (replies : list (result (list byte)))
  (payload : string) : outcome KeyExchange :=
  NewKeyExchange rand_ (scripted 80 replies) (text_secret "correct horse")
    (bytes_of payload).

Definition alice_rand : Reader := counting 1 200.
Definition bob_rand : Reader := counting 101 200.

(** Bob's two messages, computed by running Bob against Alice's first
    message (his second message does not depend on her second one). *)
Definition alice_message1 : list byte := Eval vm_compute in
  message1_of (run_to derivePassword (party alice_rand [] "from alice")).
Definition bob_after_exchange1 : outcome KeyExchange :=
  run_to exchange1
    (run_to derivePassword (party bob_rand [Val alice_message1] "from bob")).
Definition bob_message1 : list byte := Eval vm_compute in message1_of bob_after_exchange1.
Definition bob_message2 : list byte := Eval vm_compute in message2_of bob_after_exchange1.

Definition alice : outcome KeyExchange :=
  party alice_rand [Val bob_message1; Val bob_message2] "from alice".

(** *** A peer that sends the zero group element

    The reply to the first exchange decrypts (under the key derived from
    the shared secret) to the all-zero DH value, so the shared key is all
    zero; the reply to the second exchange is 80 zero bytes. *)
Definition key_of (o : outcome KeyExchange) : list byte :=
  match o with Ok kx => key kx | _ => [] end.

Definition zero_point_reply : list byte := Eval vm_compute in
  key_of (run_to derivePassword (party alice_rand [] "from alice")) ++ zeros 48.

Definition alice_with_zero_peer : outcome KeyExchange :=
  party alice_rand [Val zero_point_reply; Val (zeros 80)] "from alice".

(** The same exchange once its first two steps are done (status
    [EXCHANGE2]). *)
Definition advance (c : M unit) (s : KeyExchange_Status) : M unit :=
  c ;; modify (set_status s) ;; updateSerialised.

Definition alice_with_zero_peer_EXCHANGE2 : outcome KeyExchange :=
  run_to (advance exchange1 KeyExchange_EXCHANGE2)
    (run_to (advance derivePassword KeyExchange_EXCHANGE1) alice_with_zero_peer).

(** Alice, correctly answered by Bob, at each later status. *)
Definition alice_EXCHANGE1 : outcome KeyExchange :=
  run_to (advance derivePassword KeyExchange_EXCHANGE1) alice.

Definition force (o : outcome KeyExchange) : KeyExchange :=
  match o with
  | Ok kx => kx
  | _ => mkKeyExchange false false chan_nil [] KeyExchange_INIT
           (scripted 0 []) (text_secret "") [] [] [] [] [] [] [] [] [] []
  end.

(** *** Stand-ins for the glue of [keys.go]: a 20-byte digest, the
    identity as number encoding, and a parser that accepts any non-empty
    body. *)
#[local] Instance glue : keys.Glue := {|
  keys.sha1_Sum := fun uname => take 20 (sha256.Sum256 uname);
  keys.encodeNumber := fun uname => uname;
  keys.json_Unmarshal := fun body =>
    match body with
    | [] => Fail (foreign 3)
    | _ => Val (keys.mkPreKeys (keys.mkSignedKey 0 [] []) []
                  (keys.mkKey 0 []) [])
    end
|}.

End doubles.


(** ** Vocabulary of the statements *)

(** The check [isValidSecretString] performs behind a recognised prefix. *)
Definition body_valid (s : list byte) : bool :=
  if (len s mod 2 =? 1) || negb (hex.DecodedLen (len s) =? 18) then false
  else
    match hex.Decode s with
    | None => false
    | Some decoded =>
        let b := copy (zeros 18) decoded in
        let digest := sha256.Sum256 (take 16 b) in
        byte_eqb (index b 16) (index digest 0)
        && byte_eqb (index b 17) (index digest 1)
    end.

(** The two ways a shared secret can carry its secret. *)
Definition text_nonempty (s : SharedSecret) : Prop := Secret s <> [].
Definition has_decks (s : SharedSecret) : Prop := 0 < NumDecks (Cards s).
Definition exactly_one (s : SharedSecret) : Prop :=
  (text_nonempty s /\ ~ has_decks s) \/ (~ text_nonempty s /\ has_decks s).
Definition at_least_one (s : SharedSecret) : Prop :=
  text_nonempty s \/ has_decks s.

(** Weakest precondition of a computation: [Q] holds of its outcome and of
    the struct it leaves. *)
Definition wp {A} (c : M A) (Q : outcome A -> KeyExchange -> Prop)
  (kx : KeyExchange) : Prop :=
  Q (fst (c kx)) (snd (c kx)).

(** The payload fits the meeting place: the condition [NewKeyExchange]
    checks. *)
Definition fits (kx : KeyExchange) : Prop :=
  24 + 4 + len (kxBytes kx) + secretbox_Overhead <= Padding (meetingPlace kx).

(** The arrays of the struct have their declared sizes. *)
Definition arrays_ok (kx : KeyExchange) : Prop :=
  length (key kx) = 32%nat /\ length (meeting1 kx) = 32%nat
  /\ length (meeting2 kx) = 32%nat /\ length (dhPublic kx) = 32%nat
  /\ length (dhPrivate kx) = 32%nat /\ length (sharedKey kx) = 32%nat.

(** Failures caused by the size of the payload or of the messages: the two
    "too large" errors, and the run-time errors of the expressions that
    allocate and slice the message buffers. *)
Definition size_errors : list string :=
  ["panda: key exchange too large for meeting place";
   "panda: initial message too large for meeting place"].
Definition size_sites : list string :=
  ["make([]byte, l)"; "make([]byte, paddedLen-24-secretbox.Overhead)";
   "binary.LittleEndian.PutUint32"; "padded[4+len(kx.kxBytes):]";
   "make([]byte, paddedLen)"].
Definition size_failure {A} (o : outcome A) : Prop :=
  match o with
  | Err (errors_New msg) => msg ∈ size_errors
  | Panic (runtime_error site) => site ∈ size_sites
  | _ => False
  end.

(** The guard in front of the decryption in [exchange2]. *)
Definition zero_prefixed (k : list byte) : bool :=
  byte_eqb (index k 0) x00 && byte_eqb (index k 1) x00.

Section vocabulary.
Context {E : Externals}.

(** The answer of the meeting place to the next call, and the struct once
    the call is recorded. *)
Definition mp_reply (kx : KeyExchange) (id message : list byte)
  : result (list byte) :=
  script (meetingPlace kx) (calls (meetingPlace kx)) (Log kx)
    (ShutdownChan kx) id message.

Definition after_call (kx : KeyExchange) (id message : list byte)
  : KeyExchange :=
  set_meetingPlace
    (mkMeetingPlace (Padding (meetingPlace kx)) (script (meetingPlace kx))
       (calls (meetingPlace kx) ++ [(id, message)])) kx.

(** The ways [exchange2] ends, by the answer to its call. *)
Inductive exchange2_ends (kx : KeyExchange) : outcome (list byte) -> Prop :=
| exchange2_meeting_place_error e :
    mp_reply kx (meeting2 kx) (message2 kx) = Fail e ->
    exchange2_ends kx (Err (global e))
| exchange2_reply_too_small reply :
    mp_reply kx (meeting2 kx) (message2 kx) = Val reply ->
    len reply < 24 ->
    exchange2_ends kx (Err (errors_New "panda: meeting point reply too small"))
| exchange2_here reply :
    mp_reply kx (meeting2 kx) (message2 kx) = Val reply ->
    24 <= len reply ->
    zero_prefixed (sharedKey kx) = true ->
    exchange2_ends kx (Panic (panic_string "here"))
| exchange2_not_authenticated reply :
    mp_reply kx (meeting2 kx) (message2 kx) = Val reply ->
    24 <= len reply ->
    zero_prefixed (sharedKey kx) = false ->
    secretbox_Open (drop 24 reply) (copy (zeros 24) reply) (sharedKey kx) = None ->
    exchange2_ends kx
      (Err (errors_New "panda: peer's message cannot be authenticated"))
| exchange2_invalid reply message :
    mp_reply kx (meeting2 kx) (message2 kx) = Val reply ->
    24 <= len reply ->
    zero_prefixed (sharedKey kx) = false ->
    secretbox_Open (drop 24 reply) (copy (zeros 24) reply) (sharedKey kx)
    = Some message ->
    len message < 4 ->
    exchange2_ends kx (Err (errors_New "panda: peer's message is invalid"))
| exchange2_truncated reply message :
    mp_reply kx (meeting2 kx) (message2 kx) = Val reply ->
    24 <= len reply ->
    zero_prefixed (sharedKey kx) = false ->
    secretbox_Open (drop 24 reply) (copy (zeros 24) reply) (sharedKey kx)
    = Some message ->
    4 <= len message ->
    uint32 (len (drop 4 message)) < Uint32 message ->
    exchange2_ends kx (Err (errors_New "panda: peer's message is truncated"))
| exchange2_payload reply message :
    mp_reply kx (meeting2 kx) (message2 kx) = Val reply ->
    24 <= len reply ->
    zero_prefixed (sharedKey kx) = false ->
    secretbox_Open (drop 24 reply) (copy (zeros 24) reply) (sharedKey kx)
    = Some message ->
    4 <= len message ->
    Uint32 message <= uint32 (len (drop 4 message)) ->
    exchange2_ends kx (Ok (take (Z.to_nat (Uint32 message)) (drop 4 message))).

(** What [deriveKeys] and [derivePassword] may change in the struct. *)
Definition keys_changed (kx kx' : KeyExchange) : Prop :=
  exists k m1 m2,
    kx' = set_key k (set_meeting1 m1 (set_meeting2 m2 kx))
    /\ length k = length (key kx) /\ length m1 = length (meeting1 kx)
    /\ length m2 = length (meeting2 kx).

Definition derive_changed (kx kx' : KeyExchange) : Prop :=
  exists r k m1 m2 msg1,
    kx' = set_rand r (set_key k (set_meeting1 m1 (set_meeting2 m2
            (set_message1 msg1 kx))))
    /\ length k = length (key kx) /\ length m1 = length (meeting1 kx)
    /\ length m2 = length (meeting2 kx).

Definition scrypt_sites : list string := ["data[32:]"; "data[64:]"].

(** The ways the key derivation ends. *)
Inductive deriveKeys_ends : outcome unit -> Prop :=
| deriveKeys_done : deriveKeys_ends (Ok tt)
| deriveKeys_collaborator_error (e : error_value) :
    deriveKeys_ends (Err (global e))
| deriveKeys_subprocess_length (n : Z) :
    deriveKeys_ends
      (Err (errors_New
              ("scrypt subprocess returned wrong number of bytes: "
               +:+ pretty n)))
| deriveKeys_short_data site :
    site ∈ scrypt_sites -> deriveKeys_ends (Panic (runtime_error site)).

(** The first message: the encrypted DH public value, then filler. *)
Definition message1_is (kx : KeyExchange) (filler msg : list byte) : Prop :=
  msg = array32 (rijndael_Encrypt (key kx) (dhPublic kx)) ++ filler
  /\ len msg = Padding (meetingPlace kx).

(** The ways [derivePassword] ends, with the struct it leaves. *)
Inductive derivePassword_ends (kx kx' : KeyExchange) : outcome unit -> Prop :=
| derivePassword_done :
    32 <= Padding (meetingPlace kx) ->
    message1_is kx'
      (take (Z.to_nat (Padding (meetingPlace kx)) - 32) (rand kx)) (message1 kx') ->
    rand kx' = drop (Z.to_nat (Padding (meetingPlace kx)) - 32) (rand kx) ->
    derivePassword_ends kx kx' (Ok tt)
| derivePassword_derivation o :
    deriveKeys_ends o -> o <> Ok tt -> derivePassword_ends kx kx' o
| derivePassword_too_large :
    Padding (meetingPlace kx) < 32 ->
    derivePassword_ends kx kx'
      (Err (errors_New "panda: initial message too large for meeting place"))
| derivePassword_rand_error (e : error_value) :
    32 <= Padding (meetingPlace kx) ->
    (length (rand kx) < Z.to_nat (Padding (meetingPlace kx)) - 32)%nat ->
    derivePassword_ends kx kx' (Err (global e)).

(** What [exchange1] may change in the struct, apart from recording its
    call. *)
Definition exchange1_changed (kx kx' : KeyExchange) : Prop :=
  exists r sk msg2,
    kx' = set_rand r (set_sharedKey sk (set_message2 msg2
            (after_call kx (meeting1 kx) (message1 kx))))
    /\ (sk = sharedKey kx \/ length sk = 32%nat).

(** The block sealed into the second message, and the message. *)
Definition padded_block (kx : KeyExchange) (filler : list byte) : list byte :=
  le32 (uint32 (len (kxBytes kx))) ++ kxBytes kx ++ filler.

Definition message2_is (kx : KeyExchange) (nonce filler msg : list byte)
  : Prop :=
  msg = seal_at (nonce ++ zeros (Z.to_nat (Padding (meetingPlace kx)) - 24)) 24
          (secretbox_Seal (padded_block kx filler) nonce (sharedKey kx))
  /\ length nonce = 24%nat
  /\ len (padded_block kx filler)
     = Padding (meetingPlace kx) - 24 - secretbox_Overhead
  /\ len msg = Padding (meetingPlace kx).

(** The shared key [exchange1] computes from a reply. *)
Definition shared_key_from (kx : KeyExchange) (reply : list byte) : list byte :=
  array32 (curve25519_ScalarMult (dhPrivate kx)
             (array32 (rijndael_Decrypt (key kx) (copy (zeros 32) reply)))).

(** The ways [exchange1] ends, with the struct it leaves. *)
Inductive exchange1_ends (kx kx' : KeyExchange) : outcome unit -> Prop :=
| exchange1_meeting_place_error e :
    mp_reply kx (meeting1 kx) (message1 kx) = Fail e ->
    exchange1_ends kx kx' (Err (global e))
| exchange1_reply_too_small reply :
    mp_reply kx (meeting1 kx) (message1 kx) = Val reply ->
    len reply < 32 ->
    exchange1_ends kx kx'
      (Err (errors_New "panda: meeting point reply too small"))
| exchange1_does_not_fit reply site :
    mp_reply kx (meeting1 kx) (message1 kx) = Val reply ->
    32 <= len reply ->
    ~ fits kx -> site ∈ size_sites ->
    exchange1_ends kx kx' (Panic (runtime_error site))
| exchange1_rand_error reply (e : error_value) :
    mp_reply kx (meeting1 kx) (message1 kx) = Val reply ->
    32 <= len reply ->
    fits kx ->
    sharedKey kx' = shared_key_from kx reply ->
    exchange1_ends kx kx' (Err (global e))
| exchange1_done reply filler nonce :
    mp_reply kx (meeting1 kx) (message1 kx) = Val reply ->
    32 <= len reply ->
    fits kx ->
    sharedKey kx' = shared_key_from kx reply ->
    filler = take (Z.to_nat (Padding (meetingPlace kx)) - 44
                   - length (kxBytes kx)) (rand kx) ->
    nonce = take 24 (drop (length filler) (rand kx)) ->
    rand kx' = drop 24 (drop (length filler) (rand kx)) ->
    message2_is kx' nonce filler (message2 kx') ->
    exchange1_ends kx kx' (Ok tt).

(** What [Run] does between a successful step and the next one: advance
    the status, persist, log, check for shutdown, and go on with [next]. *)
Definition after_step {A} (status_ : KeyExchange_Status) (next : M A)
  (kx : KeyExchange) : outcome A * KeyExchange :=
  match proto_Marshal_KeyExchange (snapshot (set_status status_ kx)) with
  | Fail e => (Panic (panic_error e), set_status status_ kx)
  | Val bytes =>
      let m := set_serialised bytes (set_status status_ kx) in
      if Log m then
        let '(stop, c) := try_recv (ShutdownChan m) in
        if stop then (Err (global ShutdownErr), set_ShutdownChan c m)
        else next (set_ShutdownChan c m)
      else (Panic (runtime_error "kx.Log"), m)
  end.

(** The serialised form is the encoding of the struct as it stands. *)
Definition persisted (kx : KeyExchange) : Prop :=
  proto_Marshal_KeyExchange (snapshot kx) = Val (serialised kx).

(** A completed transition: the step of the stored status succeeds, the
    status advances and the new state is persisted. *)
Inductive transition : KeyExchange -> KeyExchange -> Prop :=
| transition_INIT kx kx1 bytes :
    status kx = KeyExchange_INIT ->
    derivePassword kx = (Ok tt, kx1) ->
    proto_Marshal_KeyExchange (snapshot (set_status KeyExchange_EXCHANGE1 kx1))
    = Val bytes ->
    transition kx (set_serialised bytes (set_status KeyExchange_EXCHANGE1 kx1))
| transition_EXCHANGE1 kx kx1 bytes :
    status kx = KeyExchange_EXCHANGE1 ->
    exchange1 kx = (Ok tt, kx1) ->
    proto_Marshal_KeyExchange (snapshot (set_status KeyExchange_EXCHANGE2 kx1))
    = Val bytes ->
    transition kx (set_serialised bytes (set_status KeyExchange_EXCHANGE2 kx1)).

(** The check at the boundary behind a transition: passed, or answered by
    the shutdown error. *)
Definition passes_check (m k : KeyExchange) : Prop :=
  Log m = true
  /\ fst (try_recv (ShutdownChan m)) = false
  /\ k = set_ShutdownChan (snd (try_recv (ShutdownChan m))) m.

Definition stopped (m kx' : KeyExchange) (e : error) : Prop :=
  Log m = true
  /\ fst (try_recv (ShutdownChan m)) = true
  /\ kx' = set_ShutdownChan (snd (try_recv (ShutdownChan m))) m
  /\ e = global ShutdownErr.

(** The step of the stored status returns an error. *)
Definition step_fails (k kx' : KeyExchange) (e : error) : Prop :=
  (status k = KeyExchange_INIT /\ derivePassword k = (Err e, kx'))
  \/ (status k = KeyExchange_EXCHANGE1 /\ exchange1 k = (Err e, kx'))
  \/ (status k = KeyExchange_EXCHANGE2 /\ exchange2 k = (Err e, kx')).

(** [completes kx m]: a call of [Run] on [kx] completes a transition that
    leaves [m] (every earlier check having passed). *)
Inductive completes (kx : KeyExchange) : KeyExchange -> Prop :=
| completes_first m : transition kx m -> completes kx m
| completes_next m k m' :
    completes kx m -> passes_check m k -> transition k m' -> completes kx m'.

(** The states a caller reaches from an exchange: by assigning the
    exported fields and by calling [Run]. *)
Inductive reachable (kx0 : KeyExchange) : KeyExchange -> Prop :=
| reachable_start : reachable kx0 kx0
| reachable_Log kx log : reachable kx0 kx -> reachable kx0 (set_Log log kx)
| reachable_Testing kx testing :
    reachable kx0 kx -> reachable kx0 (set_Testing testing kx)
| reachable_ShutdownChan kx c :
    reachable kx0 kx -> reachable kx0 (set_ShutdownChan c kx)
| reachable_Run kx : reachable kx0 kx -> reachable kx0 (snd (Run kx)).

(** The two wire formats.  Message 1: the 32-byte encrypted DH public
    value, then filler, [Padding()] bytes in all.  Message 2: a 24-byte
    nonce, then the sealed padded block (length prefix, payload, filler) of
    [Padding() - 24 - Overhead] bytes, [Padding()] bytes in all. *)
Definition wire1 (kx : KeyExchange) (msg : list byte) : Prop :=
  exists filler,
    msg = array32 (rijndael_Encrypt (key kx) (dhPublic kx)) ++ filler
    /\ len msg = Padding (meetingPlace kx).

Definition wire2 (kx : KeyExchange) (msg : list byte) : Prop :=
  exists nonce filler,
    length nonce = 24%nat
    /\ msg = nonce ++ secretbox_Seal (padded_block kx filler) nonce (sharedKey kx)
    /\ len (padded_block kx filler)
       = Padding (meetingPlace kx) - 24 - secretbox_Overhead
    /\ len msg = Padding (meetingPlace kx).



(** The struct with another shared secret and DH public value: the two
    fields a reload computes afresh. *)
Definition with_reloaded (secret : SharedSecret) (public : list byte)
  (kx : KeyExchange) : KeyExchange :=
  mkKeyExchange (Log kx) (Testing kx) (ShutdownChan kx) (rand kx) (status kx)
    (meetingPlace kx) secret (serialised kx) (kxBytes kx) (key kx)
    (meeting1 kx) (meeting2 kx) public (dhPrivate kx) (sharedKey kx)
    (message1 kx) (message2 kx).

(** The caller's fields of [kx], assigned to a reloaded struct. *)
Definition with_caller_fields (kx kx' : KeyExchange) : KeyExchange :=
  set_Log (Log kx) (set_Testing (Testing kx)
    (set_ShutdownChan (ShutdownChan kx) kx')).

(** The shared secret passes the validation of the reload and serialises
    as before. *)
Definition secret_survives (secret : SharedSecret) : Prop :=
  exists secret',
    newSharedSecret (toProto secret) = Some secret'
    /\ toProto secret' = toProto secret.

End vocabulary.

(** ** Vocabulary of the further properties *)

(** The position of a status in the order [Run] visits them. *)
Definition status_rank (s : KeyExchange_Status) : Z :=
  match s with
  | KeyExchange_INIT => 0
  | KeyExchange_EXCHANGE1 => 1
  | KeyExchange_EXCHANGE2 => 2
  | panda_proto.KeyExchange_Status_other _ => 3
  end.

(** What the caller handed over and no step assigns: the payload, the
    shared secret, the DH key pair, the caller's settings [Log] and
    [Testing], and the meeting place's size and behaviour. *)
Definition inputs_kept (kx kx' : KeyExchange) : Prop :=
  kxBytes kx' = kxBytes kx /\ sharedSecret kx' = sharedSecret kx
  /\ dhPrivate kx' = dhPrivate kx /\ dhPublic kx' = dhPublic kx
  /\ Log kx' = Log kx /\ Testing kx' = Testing kx
  /\ Padding (meetingPlace kx') = Padding (meetingPlace kx)
  /\ script (meetingPlace kx') = script (meetingPlace kx).

(** The struct [kx] with every field the key derivation neither reads nor
    writes taken from [o]. *)
Definition with_others (o kx : KeyExchange) : KeyExchange :=
  mkKeyExchange (Log o) (Testing kx) (ShutdownChan o) (rand o) (status o)
    (meetingPlace o) (sharedSecret kx) (serialised o) (kxBytes o) (key kx)
    (meeting1 kx) (meeting2 kx) (dhPublic o) (dhPrivate o) (sharedKey o)
    (message1 o) (message2 o).

(** The calls of the meeting place a run can make, in order, read off the
    struct it leaves. *)
Definition planned_calls (kx : KeyExchange) : list (list byte * list byte) :=
  [(meeting1 kx, message1 kx); (meeting2 kx, message2 kx)].

(** The calls [kx'] has recorded beyond those of [kx]. *)
Definition new_calls (kx kx' : KeyExchange) (new : list (list byte * list byte))
  : Prop :=
  calls (meetingPlace kx') = calls (meetingPlace kx) ++ new.

Section protocol_vocabulary.
Context {E : Externals}.

(** The laws of the libraries the protocol relies on: the block cipher
    decrypts what it encrypted, Diffie-Hellman commutes, a sealed box opens
    with the nonce and key it was sealed with and is [Overhead] bytes longer
    than its content, and the encoder of the serialised record does not
    fail. *)
Definition cipher_round_trip : Prop :=
  forall k x, length k = 32%nat -> length x = 32%nat ->
              rijndael_Decrypt k (array32 (rijndael_Encrypt k x)) = x.

Definition dh_commutes : Prop :=
  forall x y, length x = 32%nat -> length y = 32%nat ->
              curve25519_ScalarMult x (array32 (curve25519_ScalarBaseMult y))
              = curve25519_ScalarMult y (array32 (curve25519_ScalarBaseMult x)).

Definition box_opens : Prop :=
  forall m n k, secretbox_Open (secretbox_Seal m n k) n k = Some m.

Definition box_length : Prop :=
  forall m n k, length (secretbox_Seal m n k)
                = (length m + Z.to_nat secretbox_Overhead)%nat.

Definition encoder_total : Prop :=
  forall p, exists bytes, proto_Marshal_KeyExchange p = Val bytes.

(** A party that holds its first message: its arrays have their sizes, its
    payload fits, its DH public value belongs to its private key, and its
    first message is in wire format. *)
Definition ready (kx : KeyExchange) : Prop :=
  arrays_ok kx /\ fits kx
  /\ dhPublic kx = array32 (curve25519_ScalarBaseMult (dhPrivate kx))
  /\ wire1 kx (message1 kx).

(** The random bytes the first exchange needs: the filler of the padded
    block and the nonce. *)
Definition exchange1_needs (kx : KeyExchange) : nat :=
  Z.to_nat (Padding (meetingPlace kx)) - 44 - length (kxBytes kx) + 24.

End protocol_vocabulary.

Section keys_vocabulary.
Context {G : keys.Glue}.

(** Every stored value is one the parser accepts. *)
Definition all_parse (db : keys.DB) : Prop :=
  forall k value, db !! k = Some value ->
                  exists preKeys, keys.json_Unmarshal value = Val preKeys.

End keys_vocabulary.

(** ** Two more parties

    [carol] and [dave] share a secret like [doubles.alice] and
    [doubles.bob], with DH private keys 2 and 3 (the first byte of their
    random sources), which keeps the stand-in group arithmetic short. *)
Module fixtures.

Definition small_rand (scalar : byte) (start : N) : Reader :=
  scalar :: zeros 31 ++ doubles.counting start 200.

Definition party (rand_ : Reader) (replies : list (result (list byte)))
  (payload : string) : outcome KeyExchange :=
  NewKeyExchange (E := doubles.externals) rand_ (doubles.scripted 80 replies)
    (doubles.text_secret "correct horse") (bytes_of payload).

Definition carol_rand : Reader := small_rand x02 1.
Definition dave_rand : Reader := small_rand x03 101.

(** Each party's two messages, computed by running it against the other's
    first message. *)
Definition carol_message1 : list byte := Eval vm_compute in
  doubles.message1_of
    (doubles.run_to (derivePassword (E := doubles.externals))
       (party carol_rand [] "from carol")).
Definition dave_after_exchange1 : outcome KeyExchange :=
  doubles.run_to (exchange1 (E := doubles.externals))
    (doubles.run_to (derivePassword (E := doubles.externals))
       (party dave_rand [Val carol_message1] "from dave")).
Definition dave_message1 : list byte := Eval vm_compute in
  doubles.message1_of dave_after_exchange1.
Definition dave_message2 : list byte := Eval vm_compute in
  doubles.message2_of dave_after_exchange1.

Definition carol : outcome KeyExchange :=
  party carol_rand [Val dave_message1; Val dave_message2] "from carol".

(** Carol at each later status, and Dave once his first exchange is done. *)
Definition carol_EXCHANGE1 : KeyExchange := Eval vm_compute in
  doubles.force
    (doubles.run_to
       (doubles.advance (derivePassword (E := doubles.externals))
          KeyExchange_EXCHANGE1) carol).
Definition carol_EXCHANGE2 : KeyExchange := Eval vm_compute in
  doubles.force
    (doubles.run_to
       (doubles.advance (exchange1 (E := doubles.externals))
          KeyExchange_EXCHANGE2) (Ok carol_EXCHANGE1)).
Definition dave_EXCHANGE1 : KeyExchange := Eval vm_compute in
  doubles.force
    (doubles.run_to
       (doubles.advance (derivePassword (E := doubles.externals))
          KeyExchange_EXCHANGE1)
       (party dave_rand [Val carol_message1] "from dave")).
Definition dave_EXCHANGE2 : KeyExchange := Eval vm_compute in
  doubles.force
    (doubles.run_to
       (doubles.advance (exchange1 (E := doubles.externals))
          KeyExchange_EXCHANGE2) (Ok dave_EXCHANGE1)).

End fixtures.

(** * Properties *)

(** ** Bytes and slices *)

Lemma byte_eqb_eq (a b : byte) : byte_eqb a b = true <-> a = b.
Proof.
  unfold byte_eqb. split.
  - apply Byte.byte_dec_bl.
  - apply Byte.byte_dec_lb.
Qed.

Lemma byte_eqb_refl (a : byte) : byte_eqb a a = true.
Proof. apply byte_eqb_eq. reflexivity. Qed.

Lemma byte_eqb_neq (a b : byte) : byte_eqb a b = false <-> a <> b.
Proof.
  rewrite <- byte_eqb_eq. destruct (byte_eqb a b); split; congruence.
Qed.

Lemma bytes_eqb_eq (a b : list byte) : bytes_eqb a b = true <-> a = b.
Proof.
  revert b. induction a as [|x a IH]; intros [|y b]; simpl; try (split; congruence).
  rewrite andb_true_iff, byte_eqb_eq, IH. split.
  - intros [-> ->]. reflexivity.
  - intros [= -> ->]. auto.
Qed.

Lemma length_copy {A} (dst src : list A) : length (copy dst src) = length dst.
Proof.
  unfold copy. rewrite length_app, length_take, length_drop. lia.
Qed.

Lemma copy_exact {A} (dst src : list A) :
  length src = length dst -> copy dst src = src.
Proof.
  intros Hl. unfold copy. rewrite take_ge, drop_ge by lia. apply app_nil_r.
Qed.

Lemma copy_prefix {A} (dst src : list A) :
  (length src <= length dst)%nat -> copy dst src = src ++ drop (length src) dst.
Proof. intros Hl. unfold copy. rewrite take_ge by lia. reflexivity. Qed.

Lemma length_zeros n : length (zeros n) = n.
Proof. apply length_replicate. Qed.

Lemma length_array32 l : length (array32 l) = 32%nat.
Proof. unfold array32. rewrite length_copy. apply length_zeros. Qed.

Lemma len_array32 l : len (array32 l) = 32.
Proof. unfold len. rewrite length_array32. reflexivity. Qed.

Lemma length_copy_at {A} (dst : list A) off src :
  (off <= length dst)%nat -> length (copy_at dst off src) = length dst.
Proof.
  intros Hl. unfold copy_at.
  rewrite length_app, length_copy, length_take, length_drop. lia.
Qed.

Lemma len_nonneg {A} (l : list A) : 0 <= len l.
Proof. unfold len. lia. Qed.

Lemma byte_of_N_to_N (b : byte) : byte_of_N (Byte.to_N b) = b.
Proof.
  unfold byte_of_N.
  pose proof (Byte.to_N_bounded b) as Hb.
  rewrite N.mod_small by lia. rewrite Byte.of_to_N. reflexivity.
Qed.

Lemma to_N_byte_of_N (n : N) : (n < 256)%N -> Byte.to_N (byte_of_N n) = n.
Proof.
  intros Hn. unfold byte_of_N. rewrite N.mod_small by lia.
  destruct (Byte.of_N n) as [b|] eqn:Hb.
  - apply Byte.to_of_N in Hb. exact Hb.
  - apply Byte.of_N_None_iff in Hb. lia.
Qed.

Lemma byte_of_N_inj (m n : N) :
  (m < 256)%N -> (n < 256)%N -> byte_of_N m = byte_of_N n -> m = n.
Proof.
  intros Hm Hn Heq. apply (f_equal Byte.to_N) in Heq.
  rewrite !to_N_byte_of_N in Heq by assumption. exact Heq.
Qed.

Lemma Z_of_byte_nonneg (b : byte) : 0 <= Z_of_byte b.
Proof. unfold Z_of_byte. apply N2Z.is_nonneg. Qed.

Lemma Uint32_nonneg (b : list byte) : 0 <= Uint32 b.
Proof.
  unfold Uint32. rewrite !Z.lor_nonneg, !Z.shiftl_nonneg.
  repeat split; apply Z_of_byte_nonneg.
Qed.

(** ** encoding/hex *)

Lemma list_pair_ind {A} (P : list A -> Prop) :
  P [] -> (forall x, P [x]) -> (forall x y l, P l -> P (x :: y :: l)) ->
  forall l, P l.
Proof.
  intros H0 H1 H2.
  assert (Hboth : forall l, P l /\ forall x, P (x :: l)).
  { induction l as [|y l [IH1 IH2]]; split; auto. }
  intros l. apply Hboth.
Qed.

Lemma fromHexChar_bound c v : hex.fromHexChar c = Some v -> (v < 16)%N.
Proof.
  unfold hex.fromHexChar.
  repeat match goal with
         | |- context [if ?b then _ else _] => destruct b eqn:?
         end; intros [= <-]; try discriminate;
    repeat match goal with
           | H : (_ && _) = true |- _ => apply andb_true_iff in H; destruct H
           | H : (_ <=? _)%N = true |- _ => apply N.leb_le in H
           end; lia.
Qed.

Lemma fromHexChar_digit (n : N) :
  (n < 16)%N -> hex.fromHexChar (hex.digit n) = Some n.
Proof.
  intros Hn.
  assert (Hcases : In n (map N.of_nat (seq 0 16))).
  { apply in_map_iff. exists (N.to_nat n). split; [lia|]. apply in_seq. lia. }
  simpl in Hcases.
  repeat (destruct Hcases as [<-|Hcases]; [reflexivity|]). destruct Hcases.
Qed.

Lemma to_N_split (b : byte) :
  (Byte.to_N b / 16 < 16 /\ Byte.to_N b mod 16 < 16
   /\ Byte.to_N b / 16 * 16 + Byte.to_N b mod 16 = Byte.to_N b)%N.
Proof.
  pose proof (Byte.to_N_bounded b) as Hb.
  pose proof (N.div_mod (Byte.to_N b) 16 ltac:(lia)) as Hdm.
  pose proof (N.mod_lt (Byte.to_N b) 16 ltac:(lia)).
  repeat split; try lia.
  apply N.Div0.div_lt_upper_bound. lia.
Qed.

Lemma Decode_encoded_app (b rest : list byte) :
  hex.Decode (hex.EncodeToString b ++ rest) = (b ++.) <$> hex.Decode rest.
Proof.
  induction b as [|x b IH]; simpl.
  - destruct (hex.Decode rest); reflexivity.
  - destruct (to_N_split x) as (Hhi & Hlo & Hsum).
    rewrite !fromHexChar_digit by assumption.
    rewrite IH. destruct (hex.Decode rest); simpl; [|reflexivity].
    rewrite Hsum, byte_of_N_to_N. reflexivity.
Qed.

Lemma Decode_EncodeToString (b : list byte) :
  hex.Decode (hex.EncodeToString b) = Some b.
Proof.
  rewrite <- (app_nil_r (hex.EncodeToString b)), Decode_encoded_app.
  simpl. rewrite app_nil_r. reflexivity.
Qed.

Lemma length_EncodeToString (b : list byte) :
  length (hex.EncodeToString b) = (2 * length b)%nat.
Proof.
  unfold hex.EncodeToString. induction b as [|x b IH]; simpl; [reflexivity|].
  rewrite IH. lia.
Qed.

(** A character outside the hexadecimal alphabet makes [Decode] fail,
    wherever it stands. *)
Lemma Decode_not_hex (l : list byte) (j : nat) (c : byte) :
  (j < length l)%nat -> hex.fromHexChar c = None ->
  hex.Decode (<[j:=c]> l) = None.
Proof.
  revert j. induction l as [|x|x y l IH] using list_pair_ind; intros j Hj Hc.
  - simpl in Hj. lia.
  - destruct j; reflexivity.
  - destruct j as [|[|j]]; simpl.
    + rewrite Hc. reflexivity.
    + rewrite Hc. destruct (hex.fromHexChar x); reflexivity.
    + simpl in Hj. rewrite (IH j) by (assumption || lia).
      destruct (hex.fromHexChar x), (hex.fromHexChar y); reflexivity.
Qed.

(** ** crypto/sha256 *)

Lemma length_be_bytes n x : length (sha256.be_bytes n x) = n.
Proof.
  unfold sha256.be_bytes. rewrite length_map, length_rev, length_seq. reflexivity.
Qed.

Lemma length_Sum256 (msg : list byte) : length (sha256.Sum256 msg) = 32%nat.
Proof.
  unfold sha256.Sum256. cbv zeta.
  rewrite !length_app, !length_be_bytes. reflexivity.
Qed.

(** The function agrees with the standard test vector for "abc". *)
Example Sum256_abc :
  hex.EncodeToString (sha256.Sum256 (bytes_of "abc"))
  = bytes_of "ba7816bf8f01cfea414140de5dae2223b00361a396177a9cb410ff61f20015ad".
Proof. vm_compute. reflexivity. Qed.

(** ** Secret strings *)

Arguments sha256.Sum256 : simpl never.
Arguments hex.EncodeToString : simpl never.

Lemma isValidSecretString_prefix (p0 p1 : byte) (s : list byte) :
  isValidSecretString (p0 :: p1 :: s)
  = byte_eqb p0 "r" && (byte_eqb p1 "!" || byte_eqb p1 "[") && body_valid s.
Proof.
  unfold isValidSecretString, body_valid, HasPrefix,
    generatedSecretStringPrefix, generatedSecretStringPrefix2.
  cbn [bytes_of String.list_byte_of_string length take bytes_eqb drop].
  change (bytes_of "r!") with ["r"%byte; "!"%byte].
  change (bytes_of "r[") with ["r"%byte; "["%byte].
  cbn [length take bytes_eqb drop].
  destruct (byte_eqb p0 "r"), (byte_eqb p1 "!"), (byte_eqb p1 "["); reflexivity.
Qed.

Lemma NewSecretString_form (rand : Reader) (t : list byte) (rand' : Reader) :
  NewSecretString rand = (Ok t, rand') ->
  exists b, length b = 16%nat
            /\ t = "r"%byte :: "!"%byte :: hex.EncodeToString (secret_body b).
Proof.
  unfold NewSecretString. destruct (Reader_Read rand 16) as [[got|e] r]; [|discriminate].
  intros [= <- <-]. exists (copy (zeros 16) got). split; [|reflexivity].
  rewrite length_copy. apply length_zeros.
Qed.

(** The decoded body of a generated token passes the checksum comparison. *)
Lemma body_valid_encoded (b : list byte) (x y : byte) :
  length b = 16%nat ->
  body_valid (hex.EncodeToString (b ++ [x; y]))
  = byte_eqb x (index (sha256.Sum256 b) 0) && byte_eqb y (index (sha256.Sum256 b) 1).
Proof.
  intros Hb. unfold body_valid, len, hex.DecodedLen.
  rewrite length_EncodeToString, length_app, Hb. cbn [length Nat.add Nat.mul].
  change ((Z.of_nat 36 mod 2 =? 1) || negb (Z.of_nat 36 / 2 =? 18)) with false.
  cbv iota. rewrite Decode_EncodeToString. cbv zeta.
  rewrite copy_exact by (rewrite length_app, Hb; reflexivity).
  rewrite take_app_length' by (symmetry; assumption).
  unfold index. rewrite !app_nth2 by lia. rewrite Hb. reflexivity.
Qed.

(** Every generated token is valid. *)
Lemma NewSecretString_valid (rand : Reader) (t : list byte) (rand' : Reader) :
  NewSecretString rand = (Ok t, rand') -> isValidSecretString t = true.
Proof.
  intros Hgen. apply NewSecretString_form in Hgen as (b & Hb & ->).
  rewrite isValidSecretString_prefix. unfold secret_body. cbv zeta.
  rewrite body_valid_encoded by assumption.
  rewrite !byte_eqb_refl. reflexivity.
Qed.

(** A string without a recognised prefix is always acceptable. *)
Lemma IsAcceptableSecretString_unprefixed (s : list byte) :
  HasPrefix s generatedSecretStringPrefix = false ->
  HasPrefix s generatedSecretStringPrefix2 = false ->
  IsAcceptableSecretString s = true.
Proof.
  intros H1 H2. unfold IsAcceptableSecretString. rewrite H1, H2. reflexivity.
Qed.

Lemma body_valid_ext (l l' : list byte) :
  length l = length l' -> hex.Decode l = hex.Decode l' ->
  body_valid l = body_valid l'.
Proof. intros Hl Hd. unfold body_valid, len. rewrite Hl, Hd. reflexivity. Qed.

(** Replacing one of the four checksum digits by a digit of another value
    changes a checksum byte. *)
Lemma body_valid_checksum_digit (b : list byte) (j : nat) (c : byte) :
  length b = 16%nat -> (32 <= j < 36)%nat ->
  (forall old, hex.EncodeToString (secret_body b) !! j = Some old ->
               hex.fromHexChar c <> hex.fromHexChar old) ->
  body_valid (<[j:=c]> (hex.EncodeToString (secret_body b))) = false.
Proof.
  intros Hb Hj Hval. unfold secret_body in *. cbv zeta in *.
  set (d0 := index (sha256.Sum256 b) 0) in *.
  set (d1 := index (sha256.Sum256 b) 1) in *.
  unfold hex.EncodeToString in *. rewrite flat_map_app in *.
  fold (hex.EncodeToString b) in *.
  assert (Hlen : length (hex.EncodeToString b) = 32%nat)
    by (rewrite length_EncodeToString; lia).
  rewrite insert_app_r_alt by lia. rewrite Hlen.
  rewrite lookup_app_r in Hval by lia. rewrite Hlen in Hval.
  destruct (hex.fromHexChar c) as [v|] eqn:Hc.
  2:{ (* not a digit at all *)
      unfold body_valid.
      destruct ((len _ mod 2 =? 1) || _); [reflexivity|].
      rewrite Decode_encoded_app.
      rewrite (Decode_not_hex _ _ c); [reflexivity| |assumption].
      cbn [flat_map app length]. lia. }
  pose proof (fromHexChar_bound _ _ Hc) as Hv.
  destruct (to_N_split d0) as (Hhi0 & Hlo0 & Hsum0).
  destruct (to_N_split d1) as (Hhi1 & Hlo1 & Hsum1).
  assert (Hcheck : forall x y,
    (x <> d0 \/ y <> d1) ->
    body_valid (hex.EncodeToString b ++ hex.EncodeToString [x; y]) = false).
  { intros x y Hxy.
    unfold hex.EncodeToString at 1 2. rewrite <- flat_map_app.
    fold (hex.EncodeToString (b ++ [x; y])).
    rewrite body_valid_encoded by assumption. fold d0 d1.
    destruct Hxy as [Hx|Hy].
    - apply byte_eqb_neq in Hx. rewrite Hx. reflexivity.
    - apply byte_eqb_neq in Hy. rewrite Hy. apply andb_false_r. }
  assert (Hj' : (j - 32 < 4)%nat) by lia.
  cbn [flat_map app] in *.
  destruct (j - 32)%nat as [|[|[|[|k]]]]; [| | | |lia];
    cbn [insert list_insert] in *;
    specialize (Hval _ eq_refl); rewrite fromHexChar_digit in Hval by assumption.
  - rewrite (body_valid_ext _
      (hex.EncodeToString b ++ hex.EncodeToString
         [byte_of_N (v * 16 + Byte.to_N d0 mod 16); d1])).
    + apply Hcheck. left. intros Heq.
      apply (f_equal Byte.to_N) in Heq. rewrite to_N_byte_of_N in Heq by lia.
      apply Hval. f_equal. nia.
    + rewrite !length_app. reflexivity.
    + rewrite !Decode_encoded_app, Decode_EncodeToString. cbn [hex.Decode].
      rewrite Hc, !fromHexChar_digit by assumption.
      rewrite ?Hsum0, ?Hsum1, ?byte_of_N_to_N. reflexivity.
  - rewrite (body_valid_ext _
      (hex.EncodeToString b ++ hex.EncodeToString
         [byte_of_N (Byte.to_N d0 / 16 * 16 + v); d1])).
    + apply Hcheck. left. intros Heq.
      apply (f_equal Byte.to_N) in Heq. rewrite to_N_byte_of_N in Heq by lia.
      apply Hval. f_equal. lia.
    + rewrite !length_app. reflexivity.
    + rewrite !Decode_encoded_app, Decode_EncodeToString. cbn [hex.Decode].
      rewrite Hc, !fromHexChar_digit by assumption.
      rewrite ?Hsum0, ?Hsum1, ?byte_of_N_to_N. reflexivity.
  - rewrite (body_valid_ext _
      (hex.EncodeToString b ++ hex.EncodeToString
         [d0; byte_of_N (v * 16 + Byte.to_N d1 mod 16)])).
    + apply Hcheck. right. intros Heq.
      apply (f_equal Byte.to_N) in Heq. rewrite to_N_byte_of_N in Heq by lia.
      apply Hval. f_equal. nia.
    + rewrite !length_app. reflexivity.
    + rewrite !Decode_encoded_app, Decode_EncodeToString. cbn [hex.Decode].
      rewrite Hc, !fromHexChar_digit by assumption.
      rewrite ?Hsum0, ?Hsum1, ?byte_of_N_to_N. reflexivity.
  - rewrite (body_valid_ext _
      (hex.EncodeToString b ++ hex.EncodeToString
         [d0; byte_of_N (Byte.to_N d1 / 16 * 16 + v)])).
    + apply Hcheck. right. intros Heq.
      apply (f_equal Byte.to_N) in Heq. rewrite to_N_byte_of_N in Heq by lia.
      apply Hval. f_equal. lia.
    + rewrite !length_app. reflexivity.
    + rewrite !Decode_encoded_app, Decode_EncodeToString. cbn [hex.Decode].
      rewrite Hc, !fromHexChar_digit by assumption.
      rewrite ?Hsum0, ?Hsum1, ?byte_of_N_to_N. reflexivity.
Qed.

(** C6 (amended).  A single-byte mutation of a generated token is rejected
    by [isValidSecretString] when it changes the first byte; when it changes
    the second byte to anything but the bracket of the second prefix; when
    it puts a byte that is not a hexadecimal digit behind the prefix; and
    when it replaces one of the four checksum digits by a digit of another
    value.  (Replacing the second byte by the bracket, changing the case of
    a digit, and replacing one of the 32 data digits are not covered: see
    [generated_token_mutations_accepted].) *)
Theorem mutated_secret_string_rejected
  (rand : Reader) (t : list byte) (rand' : Reader) (i : nat) (c : byte) :
  NewSecretString rand = (Ok t, rand') ->
  (i < length t)%nat ->
  t !! i <> Some c ->
  (i = 0%nat
   \/ (i = 1%nat /\ c <> "["%byte)
   \/ ((2 <= i)%nat /\ hex.fromHexChar c = None)
   \/ ((34 <= i)%nat
       /\ forall old, t !! i = Some old ->
                      hex.fromHexChar c <> hex.fromHexChar old)) ->
  isValidSecretString (<[i:=c]> t) = false.
Proof.
  intros Hgen Hi Hne Hcase.
  apply NewSecretString_form in Hgen as (b & Hb & ->).
  assert (Hlen : length (hex.EncodeToString (secret_body b)) = 36%nat).
  { rewrite length_EncodeToString. unfold secret_body. cbv zeta.
    rewrite length_app, Hb. reflexivity. }
  destruct Hcase as [->|[[-> Hc]|[[Hi2 Hc]|[Hi34 Hc]]]].
  - cbn [insert list_insert]. rewrite isValidSecretString_prefix.
    cbn [lookup list_lookup] in Hne.
    assert (Hr : byte_eqb c "r" = false)
      by (apply byte_eqb_neq; intros ->; apply Hne; reflexivity).
    rewrite Hr. reflexivity.
  - cbn [insert list_insert]. rewrite isValidSecretString_prefix.
    cbn [lookup list_lookup] in Hne.
    assert (H1 : byte_eqb c "!" = false)
      by (apply byte_eqb_neq; intros ->; apply Hne; reflexivity).
    assert (H2 : byte_eqb c "[" = false) by (apply byte_eqb_neq; exact Hc).
    rewrite H1, H2. reflexivity.
  - destruct i as [|[|j]]; [lia|lia|].
    cbn [insert list_insert]. rewrite isValidSecretString_prefix.
    cbn [length] in Hi.
    rewrite !byte_eqb_refl. cbn [andb orb].
    unfold body_valid. rewrite Decode_not_hex by (assumption || lia).
    destruct (_ || _); reflexivity.
  - destruct i as [|[|j]]; [lia|lia|].
    cbn [insert list_insert]. rewrite isValidSecretString_prefix.
    cbn [length] in Hi. cbn [lookup list_lookup] in Hc.
    rewrite body_valid_checksum_digit by (assumption || lia).
    apply andb_false_r.
Qed.

(** The theorem applies: the first byte of a token changed to an "x". *)
Lemma mutated_secret_string_rejected_witness :
  isValidSecretString
    (<[0%nat:="x"%byte]> (bytes_of "r!6a000000000000000000000000000000b9c7"))
  = false.
Proof.
  apply (mutated_secret_string_rejected (x6a :: zeros 15) _ [] 0 "x").
  - vm_compute. reflexivity.
  - vm_compute. lia.
  - vm_compute. discriminate.
  - left. reflexivity.
Defined.

(** C6 (as stated) fails.  For the random bytes 6a 00 ... 00 the generator
    returns the token below; replacing its second byte by the bracket, the
    digit at index 3 by its upper-case form, or the data digit at index 28 by
    another digit (the two-byte checksum collides) each gives a different
    string that [isValidSecretString] accepts. *)
Lemma generated_token_mutations_accepted :
  let t := bytes_of "r!6a000000000000000000000000000000b9c7" in
  NewSecretString (x6a :: zeros 15) = (Ok t, [])
  /\ (t !! 1%nat = Some "!"%byte
      /\ isValidSecretString (<[1%nat:="["%byte]> t) = true)
  /\ (t !! 3%nat = Some "a"%byte
      /\ isValidSecretString (<[3%nat:="A"%byte]> t) = true)
  /\ (t !! 28%nat = Some "0"%byte
      /\ isValidSecretString (<[28%nat:="4"%byte]> t) = true).
Proof. vm_compute. repeat split. Qed.

(** ** Shared secrets *)

Section shared_secret.
Context {E : Externals}.

Lemma newSharedSecret_Some (p : panda_proto.KeyExchange_SharedSecret) :
  (exists s, newSharedSecret p = Some s) <->
  (0 < panda_proto.GetNumDecks p
   /\ length (panda_proto.CardCount p) = numCards)
  \/ (panda_proto.GetNumDecks p <= 0 /\ panda_proto.GetSecret p <> []).
Proof.
  unfold newSharedSecret.
  destruct (Z.ltb_spec 0 (panda_proto.GetNumDecks p)) as [Hd|Hd].
  - destruct (Nat.eqb_spec (length (panda_proto.CardCount p)) numCards) as [Hc|Hc];
      cbn [negb].
    + split; [intros _; left; auto | intros _; eauto].
    + split; [intros [s [=]] | intros [[_ Hc']|[Hd' _]]; [congruence|lia]].
  - unfold len.
    destruct (panda_proto.GetSecret p) as [|x l] eqn:Hs; cbn [length].
    + change (Z.of_nat 0 =? 0) with true. cbv iota.
      split; [intros [s [=]] | intros [[Hd' _]|[_ Hs']]; [lia|congruence]].
    + replace (Z.of_nat (S (length l)) =? 0) with false
        by (symmetry; apply Z.eqb_neq; lia).
      split; [intros _; right; split; [lia|discriminate] | intros _; eauto].
Qed.

Lemma newSharedSecret_fields (p : panda_proto.KeyExchange_SharedSecret) s :
  newSharedSecret p = Some s ->
  Secret s = panda_proto.GetSecret p
  /\ NumDecks (Cards s) = panda_proto.GetNumDecks p
  /\ length (counts (Cards s)) = numCards.
Proof.
  unfold newSharedSecret.
  repeat match goal with
         | |- context [if ?b then _ else _] => destruct b
         end; intros [= <-]; cbn; rewrite ?length_copy, length_replicate; auto.
Qed.

(** C5 (amended).  [newSharedSecret] accepts a record exactly when either
    its deck count is positive and its card-count vector has [numCards]
    entries, or its deck count is not positive and its text secret is
    non-empty.  Every accepted record yields a shared secret with at least
    one of the two (text secret non-empty, deck count positive), and a
    record with neither is rejected. *)
Theorem newSharedSecret_accepts (p : panda_proto.KeyExchange_SharedSecret) :
  ((exists s, newSharedSecret p = Some s) <->
   (0 < panda_proto.GetNumDecks p
    /\ length (panda_proto.CardCount p) = numCards)
   \/ (panda_proto.GetNumDecks p <= 0 /\ panda_proto.GetSecret p <> []))
  /\ (forall s, newSharedSecret p = Some s -> at_least_one s)
  /\ (panda_proto.GetSecret p = [] -> panda_proto.GetNumDecks p <= 0 ->
      newSharedSecret p = None).
Proof.
  split; [apply newSharedSecret_Some|]. split.
  - intros s Hs.
    pose proof (proj1 (newSharedSecret_Some p) (ex_intro _ s Hs)) as Hp.
    apply newSharedSecret_fields in Hs as (Hsec & Hdecks & _).
    unfold at_least_one, text_nonempty, has_decks. rewrite Hsec, Hdecks.
    destruct Hp as [[Hd _]|[_ Ht]]; auto.
  - intros Hs Hd.
    destruct (newSharedSecret p) as [s|] eqn:Hnew; [|reflexivity].
    pose proof (proj1 (newSharedSecret_Some p) (ex_intro _ s Hnew)) as Hp.
    destruct Hp as [[Hd' _]|[_ Ht]]; [lia|congruence].
Qed.

End shared_secret.

(** The theorem applies: a record with a text secret only. *)
Lemma newSharedSecret_accepts_witness :
  exists s,
    newSharedSecret (E := doubles.externals)
      (panda_proto.mkSharedSecret (Some (bytes_of "horse")) None [] None)
    = Some s /\ at_least_one s.
Proof.
  destruct (newSharedSecret_accepts (E := doubles.externals)
              (panda_proto.mkSharedSecret (Some (bytes_of "horse")) None [] None))
    as (Hiff & Hone & _).
  destruct (proj2 Hiff) as [s Hs].
  - right. split; [vm_compute; discriminate | vm_compute; discriminate].
  - exists s. split; [exact Hs | exact (Hone s Hs)].
Defined.

(** C5 (as stated) fails in both directions.  A record with a text secret
    and a positive deck count (and a full card-count vector) is accepted,
    although both alternatives hold for it; a record with a positive deck
    count only is rejected when its card-count vector is short. *)
Lemma newSharedSecret_not_exactly_one :
  (exists s,
     newSharedSecret (E := doubles.externals)
       (panda_proto.mkSharedSecret (Some (bytes_of "x")) (Some 1)
          (replicate 52 0) None) = Some s
     /\ text_nonempty s /\ has_decks s /\ ~ exactly_one s)
  /\ newSharedSecret (E := doubles.externals)
       (panda_proto.mkSharedSecret None (Some 1) [] None) = None.
Proof.
  split; [|reflexivity].
  eexists. split; [reflexivity|].
  assert (Ht : text_nonempty
                 (mkSharedSecret (bytes_of "x") (mkCardStack 1 (replicate 52 0))
                    0 0 0 0 0)) by (vm_compute; discriminate).
  assert (Hd : has_decks
                 (mkSharedSecret (bytes_of "x") (mkCardStack 1 (replicate 52 0))
                    0 0 0 0 0)) by (vm_compute; reflexivity).
  split; [exact Ht|]. split; [exact Hd|].
  intros [[_ Hn]|[Hn _]]; contradiction.
Qed.

(** ** Reasoning about computations *)

Arguments copy : simpl never.
Arguments copy_at : simpl never.
Arguments array32 : simpl never.
Arguments zeros : simpl never.
Arguments seal_at : simpl never.
Arguments le32 : simpl never.
Arguments isValidSecretString : simpl never.

Lemma bind_unfold {A B} (c : M A) (k : A -> M B) (kx : KeyExchange) :
  bind c k kx
  = match c kx with
    | (Ok a, kx') => k a kx'
    | (Err e, kx') => (Err e, kx')
    | (Panic p, kx') => (Panic p, kx')
    end.
Proof. reflexivity. Qed.

Lemma wp_bind {A B} (c : M A) (k : A -> M B) Q kx :
  wp c (fun o kx' =>
          match o with
          | Ok a => wp (k a) Q kx'
          | Err e => Q (Err e) kx'
          | Panic p => Q (Panic p) kx'
          end) kx ->
  wp (bind c k) Q kx.
Proof.
  unfold wp, bind. destruct (c kx) as [[a|e|p] kx']; cbn; auto.
Qed.

Lemma wp_get Q kx : Q (Ok kx) kx -> wp get Q kx.
Proof. auto. Qed.

Lemma wp_modify f Q kx : Q (Ok tt) (f kx) -> wp (modify f) Q kx.
Proof. auto. Qed.

Lemma wp_ret {A} (a : A) Q kx : Q (Ok a) kx -> wp (ret a) Q kx.
Proof. auto. Qed.

Lemma wp_fail {A} e (Q : outcome A -> _) kx : Q (Err e) kx -> wp (fail e) Q kx.
Proof. auto. Qed.

Lemma wp_panic {A} p (Q : outcome A -> _) kx : Q (Panic p) kx -> wp (panic p) Q kx.
Proof. auto. Qed.

Lemma wp_lift {A} (o : outcome A) Q kx : Q o kx -> wp (lift o) Q kx.
Proof. auto. Qed.

Lemma wp_call {A} (r : result A) Q kx :
  match r with Val a => Q (Ok a) kx | Fail e => Q (Err (global e)) kx end ->
  wp (call r) Q kx.
Proof. destruct r; auto. Qed.

Lemma wp_mono {A} (c : M A) (Q Q' : outcome A -> KeyExchange -> Prop) kx :
  wp c Q kx -> (forall o kx', Q o kx' -> Q' o kx') -> wp c Q' kx.
Proof. unfold wp. auto. Qed.

Lemma wp_run {A} (c : M A) Q kx o kx' : wp c Q kx -> c kx = (o, kx') -> Q o kx'.
Proof. unfold wp. intros HQ Hc. rewrite Hc in HQ. exact HQ. Qed.

Lemma make_Ok site n m :
  make site n = Ok m -> 0 <= n /\ m = zeros (Z.to_nat n).
Proof.
  unfold make. destruct (Z.ltb_spec n 0); intros [= <-]. split; [lia|reflexivity].
Qed.

Lemma make_not_Err site n e : make site n <> Err e.
Proof. unfold make. destruct (n <? 0); discriminate. Qed.

Lemma make_Panic site n p :
  make site n = Panic p -> n < 0 /\ p = runtime_error site.
Proof.
  unfold make. destruct (Z.ltb_spec n 0); intros [= <-]. split; [lia|reflexivity].
Qed.

Lemma slice_from_Ok {A} site (s : list A) n t :
  slice_from site s n = Ok t -> 0 <= n <= len s /\ t = drop (Z.to_nat n) s.
Proof.
  unfold slice_from.
  destruct (Z.ltb_spec n 0), (Z.ltb_spec (len s) n); cbn; intros [= <-].
  split; [lia|reflexivity].
Qed.

Lemma slice_from_not_Err {A} site (s : list A) n e : slice_from site s n <> Err e.
Proof. unfold slice_from. destruct (_ || _); discriminate. Qed.

Lemma slice_from_Panic {A} site (s : list A) n p :
  slice_from site s n = Panic p -> (n < 0 \/ len s < n) /\ p = runtime_error site.
Proof.
  unfold slice_from.
  destruct (Z.ltb_spec n 0), (Z.ltb_spec (len s) n); cbn; intros [= <-];
    (split; [lia|reflexivity]).
Qed.

Lemma PutUint32_Ok b v b' :
  PutUint32 b v = Ok b' -> 4 <= len b /\ b' = copy b (le32 v).
Proof.
  unfold PutUint32. destruct (Z.ltb_spec (len b) 4); intros [= <-].
  split; [lia|reflexivity].
Qed.

Lemma PutUint32_not_Err b v e : PutUint32 b v <> Err e.
Proof. unfold PutUint32. destruct (_ <? _); discriminate. Qed.

Lemma PutUint32_Panic b v p :
  PutUint32 b v = Panic p ->
  len b < 4 /\ p = runtime_error "binary.LittleEndian.PutUint32".
Proof.
  unfold PutUint32. destruct (Z.ltb_spec (len b) 4); intros [= <-].
  split; [lia|reflexivity].
Qed.

Lemma io_ReadFull_spec (r : Reader) (n : nat) :
  (exists got, io_ReadFull r n = (got, None, drop n r)
               /\ got = take n r /\ length got = n /\ (n <= length r)%nat)
  \/ (exists e, io_ReadFull r n = (r, Some e, []) /\ (length r < n)%nat).
Proof.
  unfold io_ReadFull. destruct (decide (n <= length r)%nat).
  - left. eexists. split; [reflexivity|]. split; [reflexivity|].
    rewrite length_take. lia.
  - right. eexists. split; [reflexivity|lia].
Qed.

(** Membership in an explicit list. *)
Ltac in_list := apply list_elem_of_In; cbn; tauto.

(** Reduce setters and projections of the struct, and nothing else. *)
Ltac record_simpl :=
  cbn [set_Log set_Testing set_ShutdownChan set_rand set_status
       set_meetingPlace set_serialised set_key set_meeting1 set_meeting2
       set_dhPublic set_dhPrivate set_sharedKey set_message1 set_message2
       Log Testing ShutdownChan rand status meetingPlace sharedSecret
       serialised kxBytes key meeting1 meeting2 dhPublic dhPrivate sharedKey
       message1 message2 Padding script calls after_call].

Ltac record_unfold :=
  cbv [set_Log set_Testing set_ShutdownChan set_rand set_status
       set_meetingPlace set_serialised set_key set_meeting1 set_meeting2
       set_dhPublic set_dhPrivate set_sharedKey set_message1 set_message2
       Log Testing ShutdownChan rand status meetingPlace sharedSecret
       serialised kxBytes key meeting1 meeting2 dhPublic dhPrivate sharedKey
       message1 message2 Padding script calls after_call].

Ltac record_simpl_in H :=
  cbn [set_Log set_Testing set_ShutdownChan set_rand set_status
       set_meetingPlace set_serialised set_key set_meeting1 set_meeting2
       set_dhPublic set_dhPrivate set_sharedKey set_message1 set_message2
       Log Testing ShutdownChan rand status meetingPlace sharedSecret
       serialised kxBytes key meeting1 meeting2 dhPublic dhPrivate sharedKey
       message1 message2 Padding script calls after_call] in H.

(** Symbolic execution: peel one construct of the computation at a time. *)
Ltac wp_step :=
  lazymatch goal with
  | |- wp (bind _ _) _ _ => apply wp_bind
  | |- wp get _ _ => apply wp_get
  | |- wp (modify _) _ _ => apply wp_modify
  | |- wp (ret _) _ _ => apply wp_ret
  | |- wp (fail _) _ _ => apply wp_fail
  | |- wp (panic _) _ _ => apply wp_panic
  | |- wp (call _) _ _ => apply wp_call
  | |- wp (lift _) _ _ => apply wp_lift
  end;
  cbv beta.

Ltac wp_steps := repeat (wp_step; cbv beta iota).

(** ** The steps, one by one *)

Section steps.
Context {E : Externals}.

Lemma call_Exchange_spec (id message : list byte) Q kx :
  match mp_reply kx id message with
  | Val reply => Q (Ok reply) (after_call kx id message)
  | Fail e => Q (Err (global e)) (after_call kx id message)
  end ->
  wp (call_Exchange id message) Q kx.
Proof.
  intros HQ. unfold call_Exchange, Exchange.
  wp_steps. exact HQ.
Qed.

(** [exchange2] records its call and ends in one of the listed ways. *)
Lemma exchange2_spec (kx : KeyExchange) :
  wp exchange2
    (fun o kx' =>
       kx' = after_call kx (meeting2 kx) (message2 kx) /\ exchange2_ends kx o)
    kx.
Proof.
  unfold exchange2. wp_steps. apply call_Exchange_spec.
  destruct (mp_reply kx (meeting2 kx) (message2 kx)) as [reply|e] eqn:Hreply.
  2:{ split; [reflexivity|]. eapply exchange2_meeting_place_error; eauto. }
  destruct (Z.ltb_spec (len reply) 24) as [Hlen|Hlen].
  { wp_steps. split; [reflexivity|]. eapply exchange2_reply_too_small; eauto. }
  fold (zero_prefixed (sharedKey kx)).
  destruct (zero_prefixed (sharedKey kx)) eqn:Hzero.
  { wp_steps. split; [reflexivity|]. eapply exchange2_here; eauto. }
  destruct (secretbox_Open _ _ _) as [message|] eqn:Hopen.
  2:{ wp_steps. split; [reflexivity|]. eapply exchange2_not_authenticated; eauto. }
  destruct (Z.ltb_spec (len message) 4) as [Hm|Hm].
  { wp_steps. split; [reflexivity|]. eapply exchange2_invalid; eauto. }
  destruct (Z.ltb_spec (uint32 (len (drop 4 message))) (Uint32 message)) as [Hl|Hl].
  { wp_steps. split; [reflexivity|]. eapply exchange2_truncated; eauto. }
  wp_steps. split; [reflexivity|]. eapply exchange2_payload; eauto.
Qed.

End steps.

Section steps_derive.
Context {E : Externals}.

Lemma ReadFull_rand_spec (n : nat) Q kx :
  (forall got err r,
      io_ReadFull (rand kx) n = (got, err, r) -> Q (Ok (got, err)) (set_rand r kx)) ->
  wp (ReadFull_rand n) Q kx.
Proof.
  intros HQ. unfold ReadFull_rand. wp_steps.
  destruct (io_ReadFull (rand kx) n) as [[got err] r] eqn:Hread.
  wp_steps. apply HQ. reflexivity.
Qed.

Ltac keys_changed_here kx :=
  unfold keys_changed; destruct kx; do 3 eexists;
  (split; [record_unfold; reflexivity|]); record_unfold;
  rewrite ?length_copy; auto.

Lemma deriveKeys_spec (serialised_ : list byte) (kx : KeyExchange) :
  wp (deriveKeys serialised_)
    (fun o kx' => keys_changed kx kx' /\ deriveKeys_ends o) kx.
Proof.
  unfold deriveKeys. wp_steps.
  destruct (Testing kx || isStrongRandom (sharedSecret kx)).
  - wp_steps. destruct (hkdf_Read serialised_ hkdf_info 0 32) as [k|e].
    2:{ split; [keys_changed_here kx | constructor]. }
    wp_steps. destruct (hkdf_Read serialised_ hkdf_info 32 32) as [m1|e].
    2:{ split; [keys_changed_here kx | constructor]. }
    wp_steps. destruct (hkdf_Read serialised_ hkdf_info 64 32) as [m2|e].
    2:{ split; [keys_changed_here kx | constructor]. }
    wp_steps. split; [keys_changed_here kx | constructor].
  - wp_step.
    assert (Hdata :
      wp (if String.eqb runtime_GOARCH "386" && String.eqb runtime_GOOS "linux"
          then
            out <- call (scrypt_subprocess
                           (le32 (uint32 (len serialised_)) ++ serialised_)) ;;
            if negb (len out =? 32 * 3) then
              fail (errors_New
                      ("scrypt subprocess returned wrong number of bytes: "
                       +:+ pretty (len out)))
            else ret out
          else call (scrypt_Key serialised_ [] (Z.shiftl 1 17) 16 4 (32 * 3)))
        (fun o kx' => kx' = kx /\ (forall data, o = Ok data -> True)
                      /\ (is_Ok o = false -> deriveKeys_ends
                                               match o with
                                               | Ok _ => Ok tt
                                               | Err e => Err e
                                               | Panic p => Panic p
                                               end)) kx).
    { destruct (_ && _).
      - wp_steps. destruct (scrypt_subprocess _) as [out|e].
        + destruct (negb _); wp_steps; (split; [reflexivity|]); (split; [auto|]);
            cbn; intros; try discriminate. constructor.
        + split; [reflexivity|]. split; [auto|]. intros; constructor.
      - wp_steps. destruct (scrypt_Key _ _ _ _ _ _) as [out|e];
          (split; [reflexivity|]); (split; [auto|]); cbn; intros;
          try discriminate. constructor. }
    eapply wp_mono; [exact Hdata|]. clear Hdata.
    intros o kx' (-> & _ & Hfail). cbv beta.
    destruct o as [data|e|p]; try (split; [keys_changed_here kx | auto]).
    wp_steps.
    destruct (slice_from "data[32:]" data 32) as [d32|e|p] eqn:H32.
    2:{ exfalso. eapply slice_from_not_Err; eauto. }
    2:{ apply slice_from_Panic in H32 as [_ ->].
        split; [keys_changed_here kx |]. constructor. in_list. }
    wp_steps.
    destruct (slice_from "data[64:]" data 64) as [d64|e|p] eqn:H64.
    2:{ exfalso. eapply slice_from_not_Err; eauto. }
    2:{ apply slice_from_Panic in H64 as [_ ->].
        split; [keys_changed_here kx |]. constructor. in_list. }
    wp_steps. split; [keys_changed_here kx | constructor].
Qed.

Lemma filled_after_prefix (n : nat) (front filler : list byte) :
  (length front + length filler = n)%nat ->
  copy_at (copy (zeros n) front) (length front) filler = front ++ filler.
Proof.
  intros Hn. unfold copy_at.
  rewrite copy_prefix by (rewrite length_zeros; lia).
  rewrite take_app_length, drop_app_length.
  rewrite copy_exact; [reflexivity|].
  rewrite length_drop, length_zeros. lia.
Qed.

Ltac derive_changed_here kx :=
  unfold derive_changed; destruct kx; do 5 eexists;
  (split; [record_unfold; reflexivity|]); record_unfold;
  rewrite ?length_copy; auto.

Lemma derivePassword_spec (kx : KeyExchange) :
  wp derivePassword
    (fun o kx' => derive_changed kx kx' /\ derivePassword_ends kx kx' o) kx.
Proof.
  unfold derivePassword. wp_steps.
  destruct (proto_Marshal_SharedSecret (toProto (sharedSecret kx))) as [s|e].
  2:{ split; [derive_changed_here kx|].
      apply derivePassword_derivation; [constructor|discriminate]. }
  wp_step. eapply wp_mono; [apply deriveKeys_spec|].
  intros o kx1 [(k & m1 & m2 & -> & Hk & Hm1 & Hm2) Hends]. cbv beta.
  destruct o as [[]|e|p].
  2,3: split; [derive_changed_here kx|];
       apply derivePassword_derivation; [assumption|discriminate].
  clear Hends. wp_steps.
  rewrite !len_array32, !length_array32.
  set (kx1 := set_key k (set_meeting1 m1 (set_meeting2 m2 kx))).
  assert (Hmp : meetingPlace kx1 = meetingPlace kx) by reflexivity.
  assert (Hrand : rand kx1 = rand kx) by reflexivity.
  rewrite Hmp.
  set (P := Padding (meetingPlace kx)).
  destruct (Z.ltb_spec P 32) as [Hsmall|Hbig].
  { wp_steps. split; [subst kx1; derive_changed_here kx|].
    apply derivePassword_too_large. fold P. lia. }
  assert (Hl : (if 32 <? P then P else 32) = P).
  { destruct (Z.ltb_spec 32 P); lia. }
  rewrite !Hl. clear Hl.
  wp_steps.
  destruct (make "make([]byte, l)" P) as [m|e|p] eqn:Hmake.
  2:{ exfalso. eapply make_not_Err; eauto. }
  2:{ apply make_Panic in Hmake as [Hneg _]. lia. }
  apply make_Ok in Hmake as [_ ->].
  wp_steps. apply ReadFull_rand_spec. intros got err r Hread.
  cbn [rand set_message1] in Hread. fold kx1 in Hread. rewrite Hrand in Hread.
  wp_steps. cbn [fst snd].
  destruct (io_ReadFull_spec (rand kx) (Z.to_nat P - 32))
    as [(got' & Hr & Hgot & Hlen & Hle)|(e & Hr & Hlt)];
    rewrite Hr in Hread; injection Hread as <- <- <-.
  - wp_steps. split; [subst kx1; derive_changed_here kx|].
    apply derivePassword_done; [fold P; lia| |reflexivity].
    fold P. rewrite <- Hgot.
    assert (Hmsg :
      copy_at (copy (zeros (Z.to_nat P)) (array32 (rijndael_Encrypt (key kx1) (dhPublic kx1))))
        32 got'
      = array32 (rijndael_Encrypt (key kx1) (dhPublic kx1)) ++ got').
    { pose proof (filled_after_prefix (Z.to_nat P)
                    (array32 (rijndael_Encrypt (key kx1) (dhPublic kx1))) got')
        as Hfill.
      rewrite length_array32 in Hfill. apply Hfill. lia. }
    unfold message1_is. subst kx1. record_simpl. record_simpl_in Hmsg.
    rewrite Hmsg. split; [reflexivity|].
    unfold len. rewrite length_app, length_array32. fold P. lia.
  - wp_steps. split; [subst kx1; derive_changed_here kx|].
    apply derivePassword_rand_error; fold P; [lia|assumption].
Qed.

End steps_derive.

Section steps_exchange1.
Context {E : Externals}.

Lemma drop_zeros n m : drop n (zeros m) = zeros (m - n).
Proof. apply drop_replicate. Qed.

Lemma copy_zeros (n : nat) (src : list byte) :
  (length src <= n)%nat -> copy (zeros n) src = src ++ zeros (n - length src).
Proof.
  intros Hl. rewrite copy_prefix by (rewrite length_zeros; lia).
  rewrite drop_zeros. reflexivity.
Qed.

Lemma copy_at_app (a b src : list byte) (off : nat) :
  length a = off -> copy_at (a ++ b) off src = a ++ copy b src.
Proof.
  intros <-. unfold copy_at. rewrite take_app_length, drop_app_length.
  reflexivity.
Qed.

Lemma length_le32 v : length (le32 v) = 4%nat.
Proof. reflexivity. Qed.

(** The padded block as [exchange1] builds it in place. *)
Lemma padded_built (n : nat) (v : Z) (payload filler : list byte) :
  (4 + length payload + length filler = n)%nat ->
  copy_at (copy_at (copy (zeros n) (le32 v)) 4 payload) (4 + length payload) filler
  = le32 v ++ payload ++ filler.
Proof.
  intros Hn.
  rewrite copy_zeros by (rewrite length_le32; lia).
  rewrite copy_at_app by reflexivity.
  rewrite copy_zeros by (rewrite length_le32; lia).
  rewrite app_assoc.
  rewrite copy_at_app by (rewrite length_app, length_le32; reflexivity).
  rewrite copy_exact by (rewrite length_zeros, length_le32; lia).
  rewrite <- app_assoc. reflexivity.
Qed.

Lemma length_seal_at buf off box : length (seal_at buf off box) = length buf.
Proof.
  unfold seal_at. destruct (decide _); [|reflexivity].
  rewrite !length_app, length_take, length_drop. lia.
Qed.

Ltac exchange1_changed_here kx :=
  unfold exchange1_changed, after_call; destruct kx; do 3 eexists;
  (split; [record_unfold; reflexivity|]);
  first [left; reflexivity | right; apply length_array32].

Lemma exchange1_spec (kx : KeyExchange) :
  wp exchange1
    (fun o kx' => exchange1_changed kx kx' /\ exchange1_ends kx kx' o) kx.
Proof.
  unfold exchange1. wp_steps. apply call_Exchange_spec.
  destruct (mp_reply kx (meeting1 kx) (message1 kx)) as [reply|e] eqn:Hreply.
  2:{ split; [exchange1_changed_here kx|].
      eapply exchange1_meeting_place_error; eauto. }
  destruct (Z.ltb_spec (len reply) 32) as [Hshort|Hlong].
  { wp_steps. split; [exchange1_changed_here kx|].
    eapply exchange1_reply_too_small; eauto. }
  wp_steps. record_simpl.
  fold (shared_key_from kx reply).
  set (P := Padding (meetingPlace kx)).
  set (sk := shared_key_from kx reply).
  destruct (make _ (P - 24 - secretbox_Overhead)) as [m|e|p] eqn:Hmake.
  2:{ exfalso. eapply make_not_Err; eauto. }
  2:{ apply make_Panic in Hmake as [Hneg ->].
      assert (Hnf : ~ fits kx).
      { unfold fits. fold P. pose proof (len_nonneg (kxBytes kx)).
        unfold secretbox_Overhead in *. lia. }
      split; [exchange1_changed_here kx|].
      eapply exchange1_does_not_fit;
        [exact Hreply | exact Hlong | exact Hnf | in_list]. }
  apply make_Ok in Hmake as [Hpos ->]. unfold secretbox_Overhead in Hpos.
  wp_steps.
  destruct (PutUint32 _ _) as [padded|e|p] eqn:Hput.
  2:{ exfalso. eapply PutUint32_not_Err; eauto. }
  2:{ apply PutUint32_Panic in Hput as [Hneg ->].
      assert (Hnf : ~ fits kx).
      { unfold fits. fold P. pose proof (len_nonneg (kxBytes kx)).
        unfold len in Hneg. rewrite length_zeros in Hneg.
        unfold secretbox_Overhead in *. lia. }
      split; [exchange1_changed_here kx|].
      eapply exchange1_does_not_fit;
        [exact Hreply | exact Hlong | exact Hnf | in_list]. }
  apply PutUint32_Ok in Hput as [Hfour ->].
  unfold len in Hfour. rewrite length_zeros in Hfour.
  wp_steps.
  destruct (slice_from _ _ _) as [filler|e|p] eqn:Hslice.
  2:{ exfalso. eapply slice_from_not_Err; eauto. }
  2:{ apply slice_from_Panic in Hslice as [Hneg ->].
      assert (Hnf : ~ fits kx).
      { unfold len in Hneg.
        rewrite length_copy_at, length_copy, length_zeros in Hneg
          by (rewrite length_copy, length_zeros; lia).
        unfold fits, len. fold P.
        unfold secretbox_Overhead in *. lia. }
      split; [exchange1_changed_here kx|].
      eapply exchange1_does_not_fit;
        [exact Hreply | exact Hlong | exact Hnf | in_list]. }
  apply slice_from_Ok in Hslice as [Hrange ->].
  unfold len in Hrange at 3.
  rewrite length_copy_at, length_copy, length_zeros in Hrange
    by (rewrite length_copy, length_zeros; lia).
  assert (Hfits : fits kx).
  { unfold fits. fold P. unfold secretbox_Overhead in *. lia. }
  assert (Hroom : 44 + len (kxBytes kx) <= P)
    by (unfold secretbox_Overhead in *; lia).
  rewrite length_drop, length_copy_at, length_copy, length_zeros
    by (rewrite length_copy, length_zeros; lia).
  unfold secretbox_Overhead.
  replace (Z.to_nat (P - 24 - 16) - Z.to_nat (4 + len (kxBytes kx)))%nat
    with (Z.to_nat P - 44 - length (kxBytes kx))%nat by (unfold len; lia).
  set (n := (Z.to_nat P - 44 - length (kxBytes kx))%nat).
  wp_steps.
  apply ReadFull_rand_spec. intros got err r Hread. record_simpl_in Hread.
  cbn [fst snd].
  destruct (io_ReadFull_spec (rand kx) n)
    as [(got' & Hr & Hgot & Hlen & Hle)|(e & Hr & Hlt)];
    rewrite Hr in Hread; injection Hread as <- <- <-.
  2:{ wp_steps. split; [exchange1_changed_here kx|].
      eapply exchange1_rand_error; eauto. }
  wp_steps.
  apply ReadFull_rand_spec. intros got2 err2 r2 Hread. record_simpl_in Hread.
  cbn [fst snd].
  destruct (io_ReadFull_spec (drop n (rand kx)) 24)
    as [(nonce & Hr2 & Hnonce & Hnlen & Hnle)|(e & Hr2 & Hlt)];
    rewrite Hr2 in Hread; injection Hread as <- <- <-.
  2:{ wp_steps. split; [exchange1_changed_here kx|].
      eapply exchange1_rand_error; eauto. }
  wp_steps.
  destruct (make _ P) as [m|e|p] eqn:Hmake.
  2:{ exfalso. eapply make_not_Err; eauto. }
  2:{ apply make_Panic in Hmake as [Hneg _]. lia. }
  apply make_Ok in Hmake as [_ ->].
  wp_steps. record_simpl.
  split; [exchange1_changed_here kx|].
  assert (Hpadded :
    copy_at (copy_at (copy (zeros (Z.to_nat (P - 24 - 16)))
                        (le32 (uint32 (len (kxBytes kx))))) 4 (kxBytes kx))
      (4 + length (kxBytes kx)) got'
    = padded_block kx got').
  { apply padded_built. subst n. unfold len in *. lia. }
  rewrite Hpadded.
  rewrite (copy_exact (zeros 24) nonce) by (rewrite length_zeros; lia).
  rewrite copy_zeros by lia. rewrite Hnlen.
  eapply (exchange1_done _ _ reply got' nonce);
    [exact Hreply | exact Hlong | exact Hfits | reflexivity | exact Hgot
    | rewrite Hlen; exact Hnonce | record_simpl; rewrite Hlen; reflexivity |].
  unfold message2_is, padded_block. record_simpl. fold P. fold sk.
  split; [reflexivity|]. split; [assumption|]. split.
  - unfold len. rewrite !length_app, length_le32, Hlen.
    subst n. unfold len in *. unfold secretbox_Overhead. lia.
  - unfold len. rewrite length_seal_at, length_app, length_zeros. lia.
Qed.

End steps_exchange1.

Section run.
Context {E : Externals}.

Lemma after_step_eq {A} (status_ : KeyExchange_Status) (next : M A) kx :
  (modify (set_status status_) ;;
   updateSerialised ;;
   call_Log ;;
   stop <- shouldStop ;;
   if (stop : bool) then fail ShutdownErr else next) kx
  = after_step status_ next kx.
Proof.
  unfold after_step, updateSerialised, call_Log, shouldStop.
  unfold bind, modify, get, panic, ret, fail. cbn [fst snd].
  destruct (proto_Marshal_KeyExchange (snapshot (set_status status_ kx)))
    as [bytes|e]; [|reflexivity].
  cbn [Log set_serialised set_status].
  destruct (Log kx); [|reflexivity].
  cbn [ShutdownChan set_serialised set_status].
  destruct (try_recv (ShutdownChan kx)) as [[] c]; reflexivity.
Qed.

Lemma Run_EXCHANGE1_eq kx :
  Run_EXCHANGE1 kx
  = match exchange1 kx with
    | (Ok _, k1) => after_step KeyExchange_EXCHANGE2 Run_EXCHANGE2 k1
    | (Err e, k1) => (Err e, k1)
    | (Panic p, k1) => (Panic p, k1)
    end.
Proof.
  unfold Run_EXCHANGE1. rewrite bind_unfold.
  destruct (exchange1 kx) as [[[]|e|p] k1]; try reflexivity.
  apply after_step_eq.
Qed.

Lemma Run_INIT_eq kx :
  Run_INIT kx
  = match derivePassword kx with
    | (Ok _, k1) => after_step KeyExchange_EXCHANGE1 Run_EXCHANGE1 k1
    | (Err e, k1) => (Err e, k1)
    | (Panic p, k1) => (Panic p, k1)
    end.
Proof.
  unfold Run_INIT. rewrite bind_unfold.
  destruct (derivePassword kx) as [[[]|e|p] k1]; try reflexivity.
  apply after_step_eq.
Qed.

Lemma Run_eq kx :
  Run kx
  = match status kx with
    | KeyExchange_INIT => Run_INIT kx
    | KeyExchange_EXCHANGE1 => Run_EXCHANGE1 kx
    | KeyExchange_EXCHANGE2 => exchange2 kx
    | panda_proto.KeyExchange_Status_other _ =>
        (Panic (panic_string "unknown state"), kx)
    end.
Proof. unfold Run, bind, get. cbn. destruct (status kx); reflexivity. Qed.

(** What a step leaves alone, read off the relations above. *)
Lemma derive_changed_frame kx kx' :
  derive_changed kx kx' ->
  Log kx' = Log kx /\ Testing kx' = Testing kx
  /\ ShutdownChan kx' = ShutdownChan kx /\ status kx' = status kx
  /\ meetingPlace kx' = meetingPlace kx /\ sharedSecret kx' = sharedSecret kx
  /\ serialised kx' = serialised kx /\ kxBytes kx' = kxBytes kx
  /\ dhPublic kx' = dhPublic kx /\ dhPrivate kx' = dhPrivate kx
  /\ sharedKey kx' = sharedKey kx /\ message2 kx' = message2 kx
  /\ length (key kx') = length (key kx)
  /\ length (meeting1 kx') = length (meeting1 kx)
  /\ length (meeting2 kx') = length (meeting2 kx).
Proof.
  intros (r & k & m1 & m2 & msg1 & -> & Hk & Hm1 & Hm2).
  repeat split; assumption || reflexivity.
Qed.

Lemma exchange1_changed_frame kx kx' :
  exchange1_changed kx kx' ->
  Log kx' = Log kx /\ Testing kx' = Testing kx
  /\ ShutdownChan kx' = ShutdownChan kx /\ status kx' = status kx
  /\ Padding (meetingPlace kx') = Padding (meetingPlace kx)
  /\ script (meetingPlace kx') = script (meetingPlace kx)
  /\ calls (meetingPlace kx')
     = calls (meetingPlace kx) ++ [(meeting1 kx, message1 kx)]
  /\ sharedSecret kx' = sharedSecret kx
  /\ serialised kx' = serialised kx /\ kxBytes kx' = kxBytes kx
  /\ key kx' = key kx /\ meeting1 kx' = meeting1 kx
  /\ meeting2 kx' = meeting2 kx
  /\ dhPublic kx' = dhPublic kx /\ dhPrivate kx' = dhPrivate kx
  /\ message1 kx' = message1 kx
  /\ (sharedKey kx' = sharedKey kx \/ length (sharedKey kx') = 32%nat).
Proof.
  intros (r & sk & msg2 & -> & Hsk).
  repeat split; try reflexivity. exact Hsk.
Qed.

Lemma derivePassword_inv kx o kx' :
  derivePassword kx = (o, kx') ->
  derive_changed kx kx' /\ derivePassword_ends kx kx' o.
Proof. apply (wp_run _ _ _ _ _ (derivePassword_spec kx)). Qed.

Lemma exchange1_inv kx o kx' :
  exchange1 kx = (o, kx') ->
  exchange1_changed kx kx' /\ exchange1_ends kx kx' o.
Proof. apply (wp_run _ _ _ _ _ (exchange1_spec kx)). Qed.

Lemma exchange2_inv kx o kx' :
  exchange2 kx = (o, kx') ->
  kx' = after_call kx (meeting2 kx) (message2 kx) /\ exchange2_ends kx o.
Proof. apply (wp_run _ _ _ _ _ (exchange2_spec kx)). Qed.

End run.

(** ** The EXCHANGE2 step: the guard before decryption *)

Section exchange2_claims.
Context {E : Externals}.

Lemma exchange2_here_iff (kx : KeyExchange) :
  fst (exchange2 kx) = Panic (panic_string "here")
  <-> (exists reply,
          mp_reply kx (meeting2 kx) (message2 kx) = Val reply
          /\ 24 <= len reply)
      /\ zero_prefixed (sharedKey kx) = true.
Proof.
  destruct (exchange2 kx) as [o kx'] eqn:Hrun.
  apply exchange2_inv in Hrun as [_ Hends]. cbn [fst]. split.
  - intros ->. inversion Hends; subst. eauto.
  - intros [(reply & Hreply & Hlen) Hzero].
    inversion Hends; subst; try reflexivity; try congruence.
    rewrite Hreply in H. injection H as <-. lia.
Qed.

Lemma exchange2_sharedKey (kx : KeyExchange) :
  sharedKey (snd (exchange2 kx)) = sharedKey kx.
Proof.
  destruct (exchange2 kx) as [o kx'] eqn:Hrun.
  apply exchange2_inv in Hrun as [-> _]. reflexivity.
Qed.

Lemma exchange2_here_key (kx : KeyExchange) :
  fst (exchange2 kx) = Panic (panic_string "here") ->
  zero_prefixed (sharedKey (snd (exchange2 kx))) = true.
Proof.
  intros Hp. rewrite exchange2_sharedKey. apply exchange2_here_iff in Hp.
  tauto.
Qed.

Lemma after_step_here_key (status_ : KeyExchange_Status) kx :
  fst (after_step status_ exchange2 kx) = Panic (panic_string "here") ->
  zero_prefixed (sharedKey (snd (after_step status_ exchange2 kx))) = true.
Proof.
  unfold after_step.
  destruct (proto_Marshal_KeyExchange _) as [bytes|e]; [|discriminate].
  cbv zeta. destruct (Log _); [|discriminate].
  destruct (try_recv _) as [[] c]; [discriminate|].
  apply exchange2_here_key.
Qed.

Lemma Run_EXCHANGE1_here_key (kx : KeyExchange) :
  fst (Run_EXCHANGE1 kx) = Panic (panic_string "here") ->
  zero_prefixed (sharedKey (snd (Run_EXCHANGE1 kx))) = true.
Proof.
  rewrite Run_EXCHANGE1_eq.
  destruct (exchange1 kx) as [[[]|e|p] k1] eqn:Hstep; cbn [fst snd];
    [apply after_step_here_key|discriminate|].
  intros [= ->]. apply exchange1_inv in Hstep as [_ Hends].
  inversion Hends.
Qed.

Lemma Run_here_key (kx : KeyExchange) :
  fst (Run kx) = Panic (panic_string "here") ->
  zero_prefixed (sharedKey (snd (Run kx))) = true.
Proof.
  rewrite Run_eq. destruct (status kx).
  - rewrite Run_INIT_eq.
    destruct (derivePassword kx) as [[[]|e|p] k1] eqn:Hstep; cbn [fst snd].
    + unfold after_step.
      destruct (proto_Marshal_KeyExchange _) as [bytes|e]; [|discriminate].
      cbv zeta. destruct (Log _); [|discriminate].
      destruct (try_recv _) as [[] c]; [discriminate|].
      apply Run_EXCHANGE1_here_key.
    + discriminate.
    + intros [= ->]. apply derivePassword_inv in Hstep as [_ Hends].
      inversion Hends as [| o Hd Hne | |]; subst. inversion Hd.
  - apply Run_EXCHANGE1_here_key.
  - apply exchange2_here_key.
  - discriminate.
Qed.

(** When the guard does not fire, [exchange2] treats the reply as the
    specification says: short replies, failed decryptions, short or
    truncated blocks are errors, and otherwise the bytes named by the
    length prefix are returned. *)
Lemma exchange2_guarded (kx : KeyExchange) (reply : list byte) :
  mp_reply kx (meeting2 kx) (message2 kx) = Val reply ->
  zero_prefixed (sharedKey kx) = false ->
  let opened :=
    secretbox_Open (drop 24 reply) (copy (zeros 24) reply) (sharedKey kx) in
  (len reply < 24 -> exists e, fst (exchange2 kx) = Err e)
  /\ (24 <= len reply -> opened = None -> exists e, fst (exchange2 kx) = Err e)
  /\ (forall message,
        24 <= len reply -> opened = Some message ->
        (len message < 4 -> exists e, fst (exchange2 kx) = Err e)
        /\ (4 <= len message -> len message - 4 < Uint32 message ->
            exists e, fst (exchange2 kx) = Err e)
        /\ (forall payload,
              fst (exchange2 kx) = Ok payload ->
              payload = take (Z.to_nat (Uint32 message)) (drop 4 message)
              /\ len payload = Uint32 message)).
Proof.
  intros Hreply Hzero opened. subst opened.
  destruct (exchange2 kx) as [o kx'] eqn:Hrun.
  apply exchange2_inv in Hrun as [_ Hends]. cbn [fst].
  assert (Hsame : forall r, mp_reply kx (meeting2 kx) (message2 kx) = Val r -> r = reply)
    by (intros r Hr; congruence).
  assert (Hlen4 : forall m : list byte, 4 <= len m -> len (drop 4 m) = len m - 4)
    by (intros m Hm; unfold len in *; rewrite length_drop; lia).
  assert (Hu : forall z, 0 <= z -> uint32 z <= z).
  { intros z Hz. unfold uint32. apply Z.mod_le; lia. }
  repeat split.
  - intros Hshort. inversion Hends; subst; eauto;
      match goal with H : mp_reply _ _ _ = Val ?r |- _ => apply Hsame in H; subst r end;
      lia.
  - intros Hlong Hnone. inversion Hends; subst; eauto;
      match goal with H : mp_reply _ _ _ = Val ?r |- _ => apply Hsame in H; subst r end;
      congruence.
  - intros Hm. inversion Hends; subst; eauto;
      match goal with H : mp_reply _ _ _ = Val ?r |- _ => apply Hsame in H; subst r end;
      try congruence.
    assert (message0 = message) by congruence. subst. lia.
  - intros Hm Htr. inversion Hends; subst; eauto;
      match goal with H : mp_reply _ _ _ = Val ?r |- _ => apply Hsame in H; subst r end;
      try congruence.
    assert (message0 = message) by congruence. subst.
    specialize (Hu (len (drop 4 message)) (len_nonneg _)).
    rewrite Hlen4 in * by assumption. lia.
  - inversion Hends; subst; try discriminate;
      match goal with H : mp_reply _ _ _ = Val ?r |- _ => apply Hsame in H; subst r end.
    assert (message0 = message) by congruence. subst.
    match goal with H : Ok _ = Ok _ |- _ => injection H as <- end. reflexivity.
  - inversion Hends; subst; try discriminate;
      match goal with H : mp_reply _ _ _ = Val ?r |- _ => apply Hsame in H; subst r end.
    assert (message0 = message) by congruence. subst.
    match goal with H : Ok _ = Ok _ |- _ => injection H as <- end.
    unfold len. rewrite length_take, length_drop.
    specialize (Hu (len (drop 4 message)) (len_nonneg _)).
    pose proof (Uint32_nonneg message).
    unfold len in *. rewrite length_drop in *. lia.
Qed.

(** C3 fails on the code.  In status [EXCHANGE2], when the shared key
    begins with two zero bytes and the meeting place delivers a reply of at
    least 24 bytes whose authenticated decryption fails, [Run] does not
    return the authentication error: it panics with the value "here". *)
Theorem Run_panics_on_unauthenticated_reply (kx : KeyExchange)
  (reply : list byte) :
  status kx = KeyExchange_EXCHANGE2 ->
  mp_reply kx (meeting2 kx) (message2 kx) = Val reply ->
  24 <= len reply ->
  zero_prefixed (sharedKey kx) = true ->
  secretbox_Open (drop 24 reply) (copy (zeros 24) reply) (sharedKey kx) = None ->
  fst (Run kx) = Panic (panic_string "here")
  /\ forall e, fst (Run kx) <> Err e.
Proof.
  intros Hst Hreply Hlen Hzero _.
  assert (Hp : fst (Run kx) = Panic (panic_string "here")).
  { rewrite Run_eq, Hst. apply exchange2_here_iff. eauto. }
  split; [exact Hp|]. intros e. rewrite Hp. discriminate.
Qed.

End exchange2_claims.

(** The failing input: the exchange whose peer sent the zero group element,
    in status [EXCHANGE2], with a reply of 80 zero bytes. *)
Lemma Run_panics_on_unauthenticated_reply_witness :
  fst (Run (E := doubles.externals)
         (doubles.force doubles.alice_with_zero_peer_EXCHANGE2))
  = Panic (panic_string "here").
Proof.
  apply (Run_panics_on_unauthenticated_reply (E := doubles.externals)
           (doubles.force doubles.alice_with_zero_peer_EXCHANGE2) (zeros 80)).
  - vm_compute. reflexivity.
  - vm_compute. reflexivity.
  - vm_compute. discriminate.
  - vm_compute. reflexivity.
  - vm_compute. reflexivity.
Defined.

(** C9.  [exchange2] panics with "here" exactly when the meeting place
    delivered a reply of at least 24 bytes (the decryption would be next) and
    the shared key begins with two zero bytes; whenever [Run] panics with
    "here" the shared key it computed begins with two zero bytes; and such an
    execution is reachable from a freshly constructed exchange: with the test
    doubles, a peer whose first message decrypts to the zero group element
    makes [Run] panic. *)
Theorem exchange2_panic_here :
  (forall (E : Externals) (kx : KeyExchange),
      fst (exchange2 kx) = Panic (panic_string "here")
      <-> (exists reply,
              mp_reply kx (meeting2 kx) (message2 kx) = Val reply
              /\ 24 <= len reply)
          /\ zero_prefixed (sharedKey kx) = true)
  /\ (forall (E : Externals) (kx : KeyExchange),
         fst (Run kx) = Panic (panic_string "here") ->
         zero_prefixed (sharedKey (snd (Run kx))) = true)
  /\ (exists (E : Externals) rand_ mp secret payload kx0,
         NewKeyExchange rand_ mp secret payload = Ok kx0
         /\ fst (Run kx0) = Panic (panic_string "here")).
Proof.
  split; [intros E kx; apply exchange2_here_iff|].
  split; [intros E kx; apply Run_here_key|].
  exists doubles.externals, doubles.alice_rand,
    (doubles.scripted 80 [Val doubles.zero_point_reply; Val (zeros 80)]),
    (doubles.text_secret "correct horse"), (bytes_of "from alice"),
    (doubles.force doubles.alice_with_zero_peer).
  split; vm_compute; reflexivity.
Qed.

(** The theorem applies: the run of the exchange with the zero peer. *)
Lemma exchange2_panic_here_witness :
  zero_prefixed
    (sharedKey (snd (Run (E := doubles.externals)
                       (doubles.force doubles.alice_with_zero_peer)))) = true.
Proof.
  apply (proj1 (proj2 exchange2_panic_here) doubles.externals).
  vm_compute. reflexivity.
Defined.

(** ** Cancellation *)

Section shutdown.
Context {E : Externals}.




End shutdown.



(** ** Persistence *)

Section snapshot.
Context {E : Externals}.

Lemma snapshot_set_serialised bytes kx :
  snapshot (set_serialised bytes kx) = snapshot kx.
Proof. reflexivity. Qed.

Lemma snapshot_set_ShutdownChan c kx :
  snapshot (set_ShutdownChan c kx) = snapshot kx.
Proof. reflexivity. Qed.

(** A transition leaves the encoding of the state it reaches. *)
Lemma transition_persisted kx m : transition kx m -> persisted m.
Proof.
  intros Htr. inversion Htr; subst; unfold persisted;
    rewrite snapshot_set_serialised; assumption.
Qed.

(** The steps never write the serialised form. *)
Lemma derivePassword_serialised kx :
  serialised (snd (derivePassword kx)) = serialised kx.
Proof.
  destruct (derivePassword kx) as [o k1] eqn:Hstep.
  apply derivePassword_inv in Hstep as [Hch _].
  apply derive_changed_frame in Hch. tauto.
Qed.

Lemma exchange1_serialised kx :
  serialised (snd (exchange1 kx)) = serialised kx.
Proof.
  destruct (exchange1 kx) as [o k1] eqn:Hstep.
  apply exchange1_inv in Hstep as [Hch _].
  apply exchange1_changed_frame in Hch. tauto.
Qed.

Lemma exchange2_serialised kx :
  serialised (snd (exchange2 kx)) = serialised kx.
Proof.
  destruct (exchange2 kx) as [o k1] eqn:Hstep.
  apply exchange2_inv in Hstep as [-> _]. reflexivity.
Qed.

Lemma step_fails_serialised k kx' e :
  step_fails k kx' e -> serialised kx' = serialised k.
Proof.
  intros [[_ Hs]|[[_ Hs]|[_ Hs]]].
  - rewrite <- (derivePassword_serialised k), Hs. reflexivity.
  - rewrite <- (exchange1_serialised k), Hs. reflexivity.
  - rewrite <- (exchange2_serialised k), Hs. reflexivity.
Qed.

(** How the part of [Run] behind a successful step can return an error. *)
Lemma after_step_Err {A} (status_ : KeyExchange_Status) (next : M A) k1 e kx' :
  after_step status_ next k1 = (Err e, kx') ->
  exists bytes,
    proto_Marshal_KeyExchange (snapshot (set_status status_ k1)) = Val bytes
    /\ let m := set_serialised bytes (set_status status_ k1) in
       stopped m kx' e
       \/ exists k, passes_check m k /\ next k = (Err e, kx').
Proof.
  unfold after_step, stopped, passes_check.
  destruct (proto_Marshal_KeyExchange _) as [bytes|e0]; [|discriminate].
  cbv zeta. record_simpl. destruct (Log k1) eqn:Hlog; [|discriminate].
  destruct (try_recv (ShutdownChan k1)) as [[] c] eqn:Hrecv; cbn [fst snd].
  - intros [= <- <-]. exists bytes. split; [reflexivity|]. left. auto.
  - intros Hnext. exists bytes. split; [reflexivity|]. right.
    eexists. split; [|exact Hnext]. auto.
Qed.

(** C8.  When [Run] returns an error, either no transition completed in
    this call, the step of the stored status failed, and the serialised
    form is untouched; or the serialised form is the one written by the
    last transition completed in this call (it encodes the state that
    transition reached), after which the call ended at the shutdown check
    or in the failure of the next step. *)
Theorem Run_error_keeps_snapshot (kx : KeyExchange) (e : error)
  (kx' : KeyExchange) :
  Run kx = (Err e, kx') ->
  (step_fails kx kx' e /\ Marshal kx' = Marshal kx)
  \/ (exists m,
        completes kx m /\ persisted m /\ Marshal kx' = Marshal m
        /\ (stopped m kx' e
            \/ exists k, passes_check m k /\ step_fails k kx' e)).
Proof.
  unfold Marshal. rewrite Run_eq.
  assert (Hfrom_EXCHANGE2 : forall k,
    status k = KeyExchange_EXCHANGE2 -> exchange2 k = (Err e, kx') ->
    step_fails k kx' e) by (unfold step_fails; auto).
  assert (Hfrom_EXCHANGE1 : forall k,
    status k = KeyExchange_EXCHANGE1 -> Run_EXCHANGE1 k = (Err e, kx') ->
    (step_fails k kx' e /\ serialised kx' = serialised k)
    \/ (exists m,
          transition k m /\ serialised kx' = serialised m
          /\ (stopped m kx' e
              \/ exists k', passes_check m k' /\ step_fails k' kx' e))).
  { intros k Hst. rewrite Run_EXCHANGE1_eq.
    destruct (exchange1 k) as [[[]|e1|p] k1] eqn:Hstep; [| |discriminate].
    - intros Hafter. right.
      apply after_step_Err in Hafter as (bytes & Hm & Hcase). cbv zeta in Hcase.
      exists (set_serialised bytes (set_status KeyExchange_EXCHANGE2 k1)).
      split; [eapply transition_EXCHANGE1; eauto|].
      destruct Hcase as [Hstop|(k' & Hpass & Hnext)].
      + split; [|left; exact Hstop].
        destruct Hstop as (_ & _ & -> & _). reflexivity.
      + assert (Hfail : step_fails k' kx' e).
        { apply Hfrom_EXCHANGE2; [|exact Hnext].
          destruct Hpass as (_ & _ & ->). reflexivity. }
        split; [|right; eauto].
        rewrite (step_fails_serialised _ _ _ Hfail).
        destruct Hpass as (_ & _ & ->). reflexivity.
    - intros [= <- <-]. left.
      assert (Hfail : step_fails k k1 e1) by (unfold step_fails; auto).
      split; [exact Hfail|]. apply (step_fails_serialised _ _ _ Hfail). }
  destruct (status kx) eqn:Hst; [| | |discriminate].
  - rewrite Run_INIT_eq.
    destruct (derivePassword kx) as [[[]|e1|p] k1] eqn:Hstep; [| |discriminate].
    + intros Hafter. right.
      apply after_step_Err in Hafter as (bytes & Hm & Hcase). cbv zeta in Hcase.
      set (m := set_serialised bytes (set_status KeyExchange_EXCHANGE1 k1)) in *.
      assert (Htr : transition kx m) by (eapply transition_INIT; eauto).
      destruct Hcase as [Hstop|(k' & Hpass & Hnext)].
      * exists m. split; [apply completes_first; exact Htr|].
        split; [eapply transition_persisted; eauto|].
        split; [|left; exact Hstop].
        destruct Hstop as (_ & _ & -> & _). reflexivity.
      * assert (Hst' : status k' = KeyExchange_EXCHANGE1)
          by (destruct Hpass as (_ & _ & ->); reflexivity).
        assert (Hser : serialised k' = serialised m)
          by (destruct Hpass as (_ & _ & ->); reflexivity).
        destruct (Hfrom_EXCHANGE1 k' Hst' Hnext)
          as [[Hfail Hsame]|(m' & Htr' & Hsame & Hend)].
        -- exists m. split; [apply completes_first; exact Htr|].
           split; [eapply transition_persisted; eauto|].
           split; [congruence|]. right. eauto.
        -- exists m'. split; [eapply completes_next; eauto using completes_first|].
           split; [eapply transition_persisted; eauto|].
           split; [exact Hsame|exact Hend].
    + intros [= <- <-]. left.
      assert (Hfail : step_fails kx k1 e1) by (unfold step_fails; auto).
      split; [exact Hfail|]. apply (step_fails_serialised _ _ _ Hfail).
  - intros Hrun.
    destruct (Hfrom_EXCHANGE1 kx Hst Hrun)
      as [Hleft|(m & Htr & Hsame & Hend)]; [left; exact Hleft|].
    right. exists m. split; [apply completes_first; exact Htr|].
    split; [eapply transition_persisted; eauto|]. auto.
  - intros Hrun. left.
    assert (Hfail : step_fails kx kx' e) by auto.
    split; [exact Hfail|]. apply (step_fails_serialised _ _ _ Hfail).
Qed.

End snapshot.

(** The theorem applies: Alice, in status EXCHANGE1 with the shutdown
    channel closed, returns the shutdown error and leaves the snapshot of
    the transition to EXCHANGE2. *)
Lemma Run_error_keeps_snapshot_witness :
  let kx := set_ShutdownChan chan_closed (doubles.force doubles.alice_EXCHANGE1) in
  exists m,
    completes (E := doubles.externals) kx m
    /\ Marshal (snd (Run (E := doubles.externals) kx)) = Marshal m.
Proof.
  intros kx.
  destruct (Run_error_keeps_snapshot (E := doubles.externals) kx
              (global ShutdownErr) (snd (Run (E := doubles.externals) kx)))
    as [[Hfail _]|(m & Hc & _ & Hm & _)].
  - vm_compute. reflexivity.
  - exfalso. destruct Hfail as [[Hst _]|[[_ Hs]|[Hst _]]].
    + vm_compute in Hst. discriminate.
    + assert (Hfst : fst (exchange1 (E := doubles.externals) kx)
                     = Err (global ShutdownErr)) by (rewrite Hs; reflexivity).
      vm_compute in Hfst. discriminate.
    + vm_compute in Hst. discriminate.
  - exists m. split; assumption.
Defined.

(** ** Sizes *)

Section size.
Context {E : Externals}.

Lemma NewKeyExchange_cases (rand_ : Reader) (mp : MeetingPlace)
  (secret : SharedSecret) (payload : list byte) :
  (Padding mp < 24 + 4 + len payload + secretbox_Overhead
   /\ NewKeyExchange rand_ mp secret payload
      = Err (errors_New "panda: key exchange too large for meeting place"))
  \/ (24 + 4 + len payload + secretbox_Overhead <= Padding mp
      /\ (length rand_ < 32)%nat
      /\ exists e : error_value,
           NewKeyExchange rand_ mp secret payload = Err (global e))
  \/ (24 + 4 + len payload + secretbox_Overhead <= Padding mp
      /\ (32 <= length rand_)%nat
      /\ ((exists e : error_value,
             NewKeyExchange rand_ mp secret payload = Panic (panic_error e))
          \/ exists kx,
               NewKeyExchange rand_ mp secret payload = Ok kx
               /\ kxBytes kx = payload /\ meetingPlace kx = mp
               /\ status kx = KeyExchange_INIT /\ sharedSecret kx = secret
               /\ rand kx = drop 32 rand_ /\ dhPrivate kx = take 32 rand_
               /\ persisted kx)).
Proof.
  unfold NewKeyExchange.
  destruct (Z.ltb_spec (Padding mp) (24 + 4 + len payload + secretbox_Overhead))
    as [Hbig|Hfit]; [left; auto|right].
  cbv [bind get modify ret fail ReadFull_rand updateSerialised panic].
  record_simpl.
  destruct (io_ReadFull_spec rand_ 32)
    as [(got & Hr & Hgot & Hlen & Hle)|(e & Hr & Hlt)]; rewrite Hr; cbn [fst snd].
  - right. split; [assumption|]. split; [assumption|]. record_simpl.
    destruct (proto_Marshal_KeyExchange _) as [bytes|e] eqn:Hm; cbn [fst snd].
    + right. eexists. split; [reflexivity|]. record_simpl.
      repeat split; try reflexivity.
      * rewrite copy_exact by (rewrite length_zeros; assumption). exact Hgot.
      * unfold persisted. rewrite snapshot_set_serialised. exact Hm.
    + left. eauto.
  - left. split; [assumption|]. split; [assumption|]. eauto.
Qed.

Lemma NewKeyExchange_fits rand_ mp secret payload kx :
  NewKeyExchange rand_ mp secret payload = Ok kx -> fits kx.
Proof.
  intros Hnew.
  destruct (NewKeyExchange_cases rand_ mp secret payload)
    as [[_ H]|[(_ & _ & e & H)|(Hfit & _ & [[e H]|(kx' & H & Hb & Hmp & _)])]];
    rewrite H in Hnew; try discriminate.
  injection Hnew as <-. unfold fits. rewrite Hb, Hmp. exact Hfit.
Qed.

(** [Run] changes neither the payload nor the size of the meeting place. *)
Lemma exchange2_sizes kx :
  kxBytes (snd (exchange2 kx)) = kxBytes kx
  /\ Padding (meetingPlace (snd (exchange2 kx))) = Padding (meetingPlace kx).
Proof.
  destruct (exchange2 kx) as [o k1] eqn:Hstep.
  apply exchange2_inv in Hstep as [-> _]. split; reflexivity.
Qed.

Lemma after_step_sizes {A} (status_ : KeyExchange_Status) (next : M A) k1 :
  (forall k, kxBytes (snd (next k)) = kxBytes k
             /\ Padding (meetingPlace (snd (next k))) = Padding (meetingPlace k)) ->
  kxBytes (snd (after_step status_ next k1)) = kxBytes k1
  /\ Padding (meetingPlace (snd (after_step status_ next k1)))
     = Padding (meetingPlace k1).
Proof.
  intros Hnext. unfold after_step.
  destruct (proto_Marshal_KeyExchange _) as [bytes|e]; [|split; reflexivity].
  cbv zeta. record_simpl. destruct (Log k1); [|split; reflexivity].
  destruct (try_recv (ShutdownChan k1)) as [[] c]; [split; reflexivity|].
  match goal with
  | |- context [next ?k] => destruct (Hnext k) as [-> ->]
  end.
  split; reflexivity.
Qed.

Lemma Run_EXCHANGE1_sizes kx :
  kxBytes (snd (Run_EXCHANGE1 kx)) = kxBytes kx
  /\ Padding (meetingPlace (snd (Run_EXCHANGE1 kx))) = Padding (meetingPlace kx).
Proof.
  rewrite Run_EXCHANGE1_eq.
  destruct (exchange1 kx) as [o k1] eqn:Hstep.
  apply exchange1_inv in Hstep as [Hch _].
  apply exchange1_changed_frame in Hch
    as (_ & _ & _ & _ & Hp & _ & _ & _ & _ & Hb & _).
  destruct o as [[]|e|p]; cbn [snd]; auto.
  destruct (after_step_sizes KeyExchange_EXCHANGE2 Run_EXCHANGE2 k1 exchange2_sizes)
    as [-> ->]. auto.
Qed.

Lemma Run_sizes kx :
  kxBytes (snd (Run kx)) = kxBytes kx
  /\ Padding (meetingPlace (snd (Run kx))) = Padding (meetingPlace kx).
Proof.
  rewrite Run_eq. destruct (status kx).
  - rewrite Run_INIT_eq.
    destruct (derivePassword kx) as [o k1] eqn:Hstep.
    apply derivePassword_inv in Hstep as [Hch _].
    apply derive_changed_frame in Hch
      as (_ & _ & _ & _ & Hmp & _ & _ & Hb & _).
    destruct o as [[]|e|p]; cbn [snd]; rewrite <- ?Hmp, <- ?Hb; auto.
    rewrite Hmp.
    destruct (after_step_sizes KeyExchange_EXCHANGE1 Run_EXCHANGE1 k1
                Run_EXCHANGE1_sizes) as [-> ->].
    rewrite Hmp. auto.
  - apply Run_EXCHANGE1_sizes.
  - apply exchange2_sizes.
  - split; reflexivity.
Qed.

Lemma reachable_fits kx0 kx : fits kx0 -> reachable kx0 kx -> fits kx.
Proof.
  intros Hfit Hreach. induction Hreach; try assumption.
  unfold fits in *. destruct (Run_sizes kx) as [-> ->]. assumption.
Qed.

(** No outcome of a step is a size failure once the payload fits. *)
Lemma exchange2_no_size_failure kx : ~ size_failure (fst (exchange2 kx)).
Proof.
  destruct (exchange2 kx) as [o k1] eqn:Hstep.
  apply exchange2_inv in Hstep as [_ Hends]. cbn [fst].
  inversion Hends; subst; cbn; try tauto;
    intros Hin; apply list_elem_of_In in Hin; cbn in Hin;
    intuition discriminate.
Qed.

Lemma after_step_no_size_failure {A} (status_ : KeyExchange_Status)
  (next : M A) k1 :
  (forall k, kxBytes k = kxBytes k1 ->
             Padding (meetingPlace k) = Padding (meetingPlace k1) ->
             ~ size_failure (fst (next k))) ->
  ~ size_failure (fst (after_step status_ next k1)).
Proof.
  intros Hnext. unfold after_step.
  destruct (proto_Marshal_KeyExchange _) as [bytes|e]; [|cbn; tauto].
  cbv zeta. record_simpl. destruct (Log k1).
  - destruct (try_recv (ShutdownChan k1)) as [[] c]; [cbn; tauto|].
    apply Hnext; reflexivity.
  - cbn. intros Hin. apply list_elem_of_In in Hin. cbn in Hin.
    intuition discriminate.
Qed.

Lemma Run_EXCHANGE1_no_size_failure kx :
  fits kx -> ~ size_failure (fst (Run_EXCHANGE1 kx)).
Proof.
  intros Hfit. rewrite Run_EXCHANGE1_eq.
  destruct (exchange1 kx) as [o k1] eqn:Hstep.
  apply exchange1_inv in Hstep as [_ Hends].
  inversion Hends; subst; cbn [fst];
    first
      [ contradiction
      | apply after_step_no_size_failure; intros k _ _;
        apply exchange2_no_size_failure
      | cbn; tauto
      | cbn; intros Hin; apply list_elem_of_In in Hin; cbn in Hin;
        intuition discriminate ].
Qed.

Lemma Run_no_size_failure kx : fits kx -> ~ size_failure (fst (Run kx)).
Proof.
  intros Hfit. rewrite Run_eq. destruct (status kx).
  - rewrite Run_INIT_eq.
    destruct (derivePassword kx) as [o k1] eqn:Hstep.
    apply derivePassword_inv in Hstep as [Hch Hends].
    apply derive_changed_frame in Hch
      as (_ & _ & _ & _ & Hmp & _ & _ & Hb & _).
    inversion Hends as [| o' Hd Hne | Hsmall |]; subst; cbn [fst];
      try (cbn; tauto).
    + apply after_step_no_size_failure. intros k Hkb Hkp.
      apply Run_EXCHANGE1_no_size_failure.
      unfold fits in *. rewrite Hkb, Hkp, Hb, Hmp. exact Hfit.
    + inversion Hd; subst; cbn; try tauto;
        intros Hin; apply list_elem_of_In in Hin; cbn in Hin;
        try (intuition discriminate).
      match goal with H : _ ∈ scrypt_sites |- _ =>
        apply list_elem_of_In in H; cbn in H end.
      intuition (subst; discriminate).
    + exfalso. unfold fits, secretbox_Overhead in Hfit.
      pose proof (len_nonneg (kxBytes kx)). lia.
  - apply Run_EXCHANGE1_no_size_failure. exact Hfit.
  - apply exchange2_no_size_failure.
  - cbn. tauto.
Qed.

(** C2 (amended).  [NewKeyExchange] returns the "too large" error exactly
    when 24 + 4 + the payload length + the tag overhead exceeds
    [Padding()]; it returns an error at all exactly in that case or when
    the random source cannot deliver the 32 bytes of the DH private key;
    and from an exchange it has constructed, no call of [Run] the caller
    can make ends in a failure caused by sizes. *)
Theorem NewKeyExchange_size_check (rand_ : Reader) (mp : MeetingPlace)
  (secret : SharedSecret) (payload : list byte) :
  (NewKeyExchange rand_ mp secret payload
   = Err (errors_New "panda: key exchange too large for meeting place")
   <-> Padding mp < 24 + 4 + len payload + secretbox_Overhead)
  /\ ((exists e, NewKeyExchange rand_ mp secret payload = Err e)
      <-> Padding mp < 24 + 4 + len payload + secretbox_Overhead
          \/ (length rand_ < 32)%nat)
  /\ (forall kx0 kx,
        NewKeyExchange rand_ mp secret payload = Ok kx0 ->
        reachable kx0 kx -> ~ size_failure (fst (Run kx))).
Proof.
  destruct (NewKeyExchange_cases rand_ mp secret payload)
    as [[Hbig H]|[(Hfit & Hlt & e & H)|(Hfit & Hle & [[e H]|(kx' & H & _)])]];
    rewrite H.
  all: split; [split; [try discriminate; intros; lia | intros; try reflexivity; lia]|].
  all: split; [split; [intros [e' He']; try discriminate; auto
                      | intros [?|?]; try lia; eauto]|].
  all: intros kx0 kx Hnew Hreach; try discriminate.
  injection Hnew as <-.
  apply Run_no_size_failure. eapply reachable_fits; [|exact Hreach].
  eapply NewKeyExchange_fits; eauto.
Qed.

End size.

(** The theorem applies: Alice, after a first call of [Run] that the
    shutdown check interrupted, runs again without a size failure. *)
Lemma NewKeyExchange_size_check_witness :
  ~ size_failure
      (fst (Run (E := doubles.externals)
              (snd (Run (E := doubles.externals)
                      (set_ShutdownChan chan_closed
                         (doubles.force doubles.alice)))))).
Proof.
  apply (proj2 (proj2 (NewKeyExchange_size_check (E := doubles.externals)
                         doubles.alice_rand
                         (doubles.scripted 80
                            [Val doubles.bob_message1; Val doubles.bob_message2])
                         (doubles.text_secret "correct horse")
                         (bytes_of "from alice")))
           (doubles.force doubles.alice)).
  - vm_compute. reflexivity.
  - apply reachable_Run. apply reachable_ShutdownChan. apply reachable_start.
Defined.

(** C2 (as stated) fails from right to left.  With an exhausted random
    source the construction returns an error although the payload fits. *)
Lemma NewKeyExchange_fails_without_oversize :
  NewKeyExchange (E := doubles.externals) [] (doubles.scripted 80 [])
    (doubles.text_secret "correct horse") []
  = Err (global io_EOF)
  /\ 24 + 4 + len ([] : list byte) + secretbox_Overhead
     <= Padding (doubles.scripted 80 []).
Proof. split; [reflexivity|]. vm_compute. discriminate. Qed.

(** ** Wire messages *)

Section wire.
Context {E : Externals}.

(** [secretbox.Seal] returns a box [Overhead] bytes longer than the
    message. *)
Hypothesis Seal_length :
  forall message nonce key_,
    length (secretbox_Seal message nonce key_)
    = (length message + Z.to_nat secretbox_Overhead)%nat.

Lemma message2_is_wire2 kx nonce filler msg :
  message2_is kx nonce filler msg -> wire2 kx msg.
Proof.
  intros (Hmsg & Hnonce & Hpad & Hlen). exists nonce, filler.
  split; [assumption|]. split; [|split; assumption].
  rewrite Hmsg. unfold seal_at.
  set (box := secretbox_Seal (padded_block kx filler) nonce (sharedKey kx)).
  assert (Hbox : (24 + length box
                  = length (nonce ++ zeros (Z.to_nat (Padding (meetingPlace kx)) - 24)))%nat).
  { subst box. rewrite Seal_length, length_app, length_zeros, Hnonce.
    unfold len, secretbox_Overhead in *. lia. }
  destruct (decide _) as [_|Hno]; [|lia].
  rewrite Hbox, drop_all, app_nil_r.
  rewrite <- Hnonce, take_app_length. reflexivity.
Qed.


Lemma wire2_same kx kx' msg :
  kxBytes kx' = kxBytes kx -> sharedKey kx' = sharedKey kx ->
  Padding (meetingPlace kx') = Padding (meetingPlace kx) ->
  wire2 kx msg -> wire2 kx' msg.
Proof. unfold wire2, padded_block. intros -> -> ->. auto. Qed.








End wire.

(** ** Resuming from the serialised form *)

Lemma doubles_Seal_length (message nonce key_ : list byte) :
  length (doubles.Seal message nonce key_)
  = (length message + Z.to_nat secretbox_Overhead)%nat.
Proof.
  unfold doubles.Seal, doubles.tag, doubles.stream.
  rewrite length_app, length_take, length_Sum256, length_imap.
  change (Z.to_nat secretbox_Overhead) with 16%nat. lia.
Qed.

Section resume.
Context {E : Externals}.

Ltac run_both :=
  repeat match goal with
         | |- context [match ?x with _ => _ end] =>
             lazymatch x with
             | context [match _ with _ => _ end] => fail
             | _ => destruct x
             end
         | |- context [if ?x then _ else _] =>
             lazymatch x with
             | context [if _ then _ else _] => fail
             | _ => destruct x
             end
         end.

Ltac red_both :=
  repeat (progress (cbv beta iota zeta; record_simpl; cbn [fst snd])).

(** The exchanges read neither the shared secret nor the DH public
    value. *)
Lemma exchange2_with_reloaded secret public kx :
  exchange2 (with_reloaded secret public kx)
  = (fst (exchange2 kx), with_reloaded secret public (snd (exchange2 kx))).
Proof.
  unfold exchange2, call_Exchange, Exchange, with_reloaded.
  cbv [bind get modify ret fail lift call panic of_result].
  record_simpl. cbn [fst snd].
  destruct (script _ _ _ _ _ _) as [reply|e]; [|reflexivity].
  destruct (len reply <? 24); [reflexivity|].
  destruct (_ && _); [reflexivity|].
  destruct (secretbox_Open _ _ _) as [message|]; [|reflexivity].
  destruct (len message <? 4); [reflexivity|].
  destruct (_ <? _); reflexivity.
Qed.

Lemma exchange1_with_reloaded secret public kx :
  exchange1 (with_reloaded secret public kx)
  = (fst (exchange1 kx), with_reloaded secret public (snd (exchange1 kx))).
Proof.
  unfold exchange1, call_Exchange, ReadFull_rand, Exchange, with_reloaded.
  cbv [bind get modify ret fail lift call panic of_result].
  red_both.
  destruct (script _ _ _ _ _ _) as [reply|e]; [|reflexivity].
  destruct (len reply <? 32); [reflexivity|].
  red_both.
  destruct (make _ _) as [m|e|p]; [|reflexivity|reflexivity].
  destruct (PutUint32 _ _) as [padded|e|p]; [|reflexivity|reflexivity].
  destruct (slice_from _ _ _) as [filler|e|p]; [|reflexivity|reflexivity].
  destruct (io_ReadFull (rand kx) (length filler)) as [[got err] r].
  red_both.
  destruct err as [e|]; [reflexivity|].
  red_both.
  destruct (io_ReadFull r 24) as [[got2 err2] r2].
  red_both.
  destruct err2 as [e|]; [reflexivity|].
  destruct (make _ _) as [m2|e|p]; reflexivity.
Qed.

Lemma snapshot_with_reloaded secret public kx :
  toProto secret = toProto (sharedSecret kx) ->
  snapshot (with_reloaded secret public kx) = snapshot kx.
Proof.
  intros Hs. unfold snapshot, with_reloaded. record_simpl. rewrite Hs.
  reflexivity.
Qed.

Lemma Run_EXCHANGE1_with_reloaded secret public kx :
  toProto secret = toProto (sharedSecret kx) ->
  fst (Run_EXCHANGE1 (with_reloaded secret public kx)) = fst (Run_EXCHANGE1 kx).
Proof.
  intros Hs. rewrite !Run_EXCHANGE1_eq, exchange1_with_reloaded.
  destruct (exchange1 kx) as [o k1] eqn:Hstep. cbn [fst snd].
  apply exchange1_inv in Hstep as [Hch _].
  apply exchange1_changed_frame in Hch
    as (_ & _ & _ & _ & _ & _ & _ & Hsecret & _).
  destruct o as [[]|e|p]; try reflexivity.
  unfold after_step.
  change (set_status KeyExchange_EXCHANGE2 (with_reloaded secret public k1))
    with (with_reloaded secret public (set_status KeyExchange_EXCHANGE2 k1)).
  rewrite snapshot_with_reloaded by (cbn; rewrite Hsecret; exact Hs).
  destruct (proto_Marshal_KeyExchange _) as [bytes|e]; [|reflexivity].
  cbv zeta. record_simpl. unfold with_reloaded at 1 2. record_simpl.
  destruct (Log k1); [|reflexivity].
  destruct (try_recv (ShutdownChan k1)) as [[] c]; [reflexivity|].
  unfold Run_EXCHANGE2.
  match goal with
  | |- fst (exchange2 ?k) = _ =>
      change k with
        (with_reloaded secret public
           (set_ShutdownChan c
              (set_serialised bytes (set_status KeyExchange_EXCHANGE2 k1))))
  end.
  rewrite exchange2_with_reloaded. reflexivity.
Qed.

(** What the reload returns for a persisted struct past INIT. *)
Lemma UnmarshalKeyExchange_persisted kx secret' :
  status kx <> KeyExchange_INIT ->
  arrays_ok kx ->
  proto_Unmarshal_KeyExchange (Marshal kx) = Val (snapshot kx) ->
  newSharedSecret (toProto (sharedSecret kx)) = Some secret' ->
  exists kx',
    UnmarshalKeyExchange (rand kx) (meetingPlace kx) (Marshal kx) = Ok kx'
    /\ with_caller_fields kx kx'
       = with_reloaded secret'
           (array32 (curve25519_ScalarBaseMult (dhPrivate kx))) kx.
Proof.
  intros Hst (Hk & Hm1 & Hm2 & _ & Hpriv & Hsk) Hdec Hsecret.
  unfold UnmarshalKeyExchange. rewrite Hdec.
  assert (Hsnap : snapshot kx
    = panda_proto.mkKeyExchange (Some (status kx))
        (Some (toProto (sharedSecret kx))) (kxBytes kx)
        (dhPrivate kx) (key kx) (meeting1 kx) (meeting2 kx)
        (message1 kx) (message2 kx) (sharedKey kx)).
  { unfold snapshot. destruct (status kx); try reflexivity. congruence. }
  rewrite Hsnap. cbn [panda_proto.SharedSecret panda_proto.DhPrivate
    panda_proto.Key panda_proto.Meeting1 panda_proto.Meeting2
    panda_proto.SharedKey panda_proto.Message1 panda_proto.Message2
    panda_proto.KeyExchangeBytes panda_proto.GetStatus panda_proto.Status
    default].
  rewrite Hsecret.
  rewrite !copy_exact by (rewrite length_zeros; congruence).
  eexists. split; [reflexivity|].
  unfold with_caller_fields, with_reloaded, Marshal. record_simpl.
  reflexivity.
Qed.

(** C1 (amended).  For a struct in status EXCHANGE1 or EXCHANGE2 whose
    serialised form is current, whose arrays have their sizes and whose
    shared secret passes the reload's validation and serialises as before:
    if the decoder inverts the encoder on its snapshot, then
    [UnmarshalKeyExchange] of [Marshal] succeeds, and once the caller has
    assigned [Log], [Testing] and [ShutdownChan] as on the original, [Run]
    on the reloaded struct has the outcome of [Run] on the original
    (with the same random source and meeting place). *)
Theorem resumed_Run_agrees (kx : KeyExchange) :
  status kx = KeyExchange_EXCHANGE1 \/ status kx = KeyExchange_EXCHANGE2 ->
  arrays_ok kx ->
  persisted kx ->
  (forall bytes,
      proto_Marshal_KeyExchange (snapshot kx) = Val bytes ->
      proto_Unmarshal_KeyExchange bytes = Val (snapshot kx)) ->
  secret_survives (sharedSecret kx) ->
  exists kx',
    UnmarshalKeyExchange (rand kx) (meetingPlace kx) (Marshal kx) = Ok kx'
    /\ fst (Run (with_caller_fields kx kx')) = fst (Run kx).
Proof.
  intros Hst Harr Hpers Hcodec (secret' & Hsecret & Hproto).
  destruct (UnmarshalKeyExchange_persisted kx secret') as (kx' & Hun & Hkx');
    [destruct Hst as [-> | ->]; discriminate | exact Harr
    | apply Hcodec; exact Hpers | exact Hsecret |].
  exists kx'. split; [exact Hun|]. rewrite Hkx'.
  rewrite !Run_eq.
  change (status (with_reloaded secret'
                    (array32 (curve25519_ScalarBaseMult (dhPrivate kx))) kx))
    with (status kx).
  destruct Hst as [-> | ->].
  - apply Run_EXCHANGE1_with_reloaded. exact Hproto.
  - rewrite exchange2_with_reloaded. reflexivity.
Qed.

End resume.

Section resume_INIT.
Context {E : Externals}.

(** In status INIT the snapshot does not hold the DH private key: whatever
    the key was, the reloaded struct has the all-zero one. *)
Lemma UnmarshalKeyExchange_INIT_dhPrivate kx rand_ mp kx' :
  status kx = KeyExchange_INIT ->
  proto_Unmarshal_KeyExchange (Marshal kx) = Val (snapshot kx) ->
  UnmarshalKeyExchange rand_ mp (Marshal kx) = Ok kx' ->
  dhPrivate kx' = zeros 32.
Proof.
  intros Hst Hdec. unfold UnmarshalKeyExchange. rewrite Hdec.
  unfold snapshot. rewrite Hst. cbn.
  destruct (newSharedSecret _); [|discriminate].
  intros [= <-]. reflexivity.
Qed.

End resume_INIT.

(** The theorem applies: Alice in status EXCHANGE1. *)
Lemma resumed_Run_agrees_witness :
  let kx := doubles.force doubles.alice_EXCHANGE1 in
  exists kx',
    UnmarshalKeyExchange (E := doubles.externals) (rand kx) (meetingPlace kx)
      (Marshal kx) = Ok kx'
    /\ fst (Run (E := doubles.externals) (with_caller_fields kx kx'))
       = fst (Run (E := doubles.externals) kx).
Proof.
  apply (resumed_Run_agrees (E := doubles.externals)
           (doubles.force doubles.alice_EXCHANGE1)).
  - left. vm_compute. reflexivity.
  - vm_compute. repeat split.
  - vm_compute. reflexivity.
  - intros bytes Hm. vm_compute in Hm. injection Hm as <-.
    vm_compute. reflexivity.
  - exists (doubles.text_secret "correct horse").
    split; vm_compute; reflexivity.
Defined.

(** C1 (as stated) fails.  Alice, freshly constructed (status INIT) and
    correctly answered by Bob, returns Bob's payload; the struct reloaded
    from her serialised form has the all-zero DH private key and, with the
    caller's fields assigned as on the original, fails to authenticate the
    same replies.  Without the caller assigning [Log], the reloaded struct
    panics at the first log call, here and in status EXCHANGE1. *)
Lemma reloaded_Run_differs :
  let kx := doubles.force doubles.alice in
  let kx1 := doubles.force doubles.alice_EXCHANGE1 in
  (exists kx',
     UnmarshalKeyExchange (E := doubles.externals) (rand kx) (meetingPlace kx)
       (Marshal kx) = Ok kx'
     /\ status kx = KeyExchange_INIT
     /\ dhPrivate kx' = zeros 32 /\ dhPrivate kx <> zeros 32
     /\ fst (Run (E := doubles.externals) kx) = Ok (bytes_of "from bob")
     /\ fst (Run (E := doubles.externals) (with_caller_fields kx kx'))
        = Err (errors_New "panda: peer's message cannot be authenticated")
     /\ fst (Run (E := doubles.externals) kx')
        = Panic (runtime_error "kx.Log"))
  /\ (exists kx1',
        UnmarshalKeyExchange (E := doubles.externals) (rand kx1)
          (meetingPlace kx1) (Marshal kx1) = Ok kx1'
        /\ status kx1 = KeyExchange_EXCHANGE1
        /\ fst (Run (E := doubles.externals) kx1) = Ok (bytes_of "from bob")
        /\ fst (Run (E := doubles.externals) kx1')
           = Panic (runtime_error "kx.Log")).
Proof.
  split.
  - eexists. split; [vm_compute; reflexivity|].
    split; [vm_compute; reflexivity|].
    split; [vm_compute; reflexivity|].
    split; [vm_compute; discriminate|].
    split; [vm_compute; reflexivity|].
    split; vm_compute; reflexivity.
  - eexists. split; [vm_compute; reflexivity|].
    split; [vm_compute; reflexivity|].
    split; vm_compute; reflexivity.
Qed.


(** ** keys.go: where bundles are stored and where they are looked up *)

Section keys_claims.
Context {G : keys.Glue}.



End keys_claims.


(** ** More on secret strings *)

(** What [hex.Decode] accepts is twice as long as what it returns. *)
Lemma Decode_length (l d : list byte) :
  hex.Decode l = Some d -> length l = (2 * length d)%nat.
Proof.
  revert d. induction l as [|x|x y l IH] using list_pair_ind; intros d.
  - intros [= <-]. reflexivity.
  - discriminate.
  - cbn [hex.Decode].
    destruct (hex.fromHexChar x); [|discriminate].
    destruct (hex.fromHexChar y); [|discriminate].
    destruct (hex.Decode l) as [out|]; [|discriminate].
    intros [= <-]. cbn [length]. rewrite (IH out eq_refl). lia.
Qed.

(** A list of 18 bytes is its first 16 bytes and two more. *)
Lemma split_18 (d : list byte) :
  length d = 18%nat -> d = take 16 d ++ [index d 16; index d 17].
Proof.
  intros Hd. do 18 (destruct d as [|? d]; [discriminate|]).
  destruct d; [reflexivity|discriminate].
Qed.

(** The check behind the prefix accepts exactly the encodings, in either
    letter case, of 16 bytes followed by the first two bytes of their
    digest. *)
Lemma body_valid_iff (body : list byte) :
  body_valid body = true
  <-> exists b, length b = 16%nat /\ hex.Decode body = Some (secret_body b).
Proof.
  unfold body_valid. split.
  - destruct ((len body mod 2 =? 1) || negb (hex.DecodedLen (len body) =? 18))
      eqn:Hshape; [discriminate|].
    apply orb_false_elim in Hshape as [Hodd Hlen].
    apply negb_false_iff, Z.eqb_eq in Hlen. apply Z.eqb_neq in Hodd.
    unfold hex.DecodedLen, len in *.
    destruct (hex.Decode body) as [d|] eqn:Hdec; [|discriminate].
    pose proof (Decode_length _ _ Hdec) as Hl.
    assert (Hd : length d = 18%nat).
    { rewrite Hl in Hlen.
      replace (Z.of_nat (2 * length d)) with (Z.of_nat (length d) * 2) in Hlen by lia.
      rewrite Z.div_mul in Hlen by lia. lia. }
    cbv zeta. rewrite copy_exact by (rewrite length_zeros; exact Hd).
    intros Hsum. apply andb_true_iff in Hsum as [H16 H17].
    apply byte_eqb_eq in H16, H17.
    exists (take 16 d). split.
    + rewrite length_take. lia.
    + f_equal. unfold secret_body. cbv zeta. rewrite <- H16, <- H17.
      apply split_18, Hd.
  - intros (b & Hb & Hdec).
    pose proof (Decode_length _ _ Hdec) as Hl.
    assert (Hsb : length (secret_body b) = 18%nat).
    { unfold secret_body. cbv zeta. rewrite length_app, Hb. reflexivity. }
    unfold len, hex.DecodedLen. rewrite Hl, Hsb.
    change ((Z.of_nat (2 * 18) mod 2 =? 1)
            || negb (Z.of_nat (2 * 18) / 2 =? 18)) with false.
    cbv iota. rewrite Hdec. cbv zeta.
    rewrite copy_exact by (rewrite length_zeros; exact Hsb).
    unfold secret_body. cbv zeta.
    rewrite take_app_length' by (symmetry; exact Hb).
    unfold index. rewrite !app_nth2 by lia. rewrite Hb.
    cbn [Nat.sub nth]. rewrite !byte_eqb_refl. reflexivity.
Qed.

(** A string of fewer than two bytes has neither prefix. *)
Lemma HasPrefix_short (s : list byte) :
  (length s < 2)%nat ->
  HasPrefix s generatedSecretStringPrefix = false
  /\ HasPrefix s generatedSecretStringPrefix2 = false.
Proof.
  intros Hs. unfold HasPrefix.
  change generatedSecretStringPrefix with ["r"%byte; "!"%byte].
  change generatedSecretStringPrefix2 with ["r"%byte; "["%byte].
  destruct s as [|x [|y s]].
  - split; reflexivity.
  - cbn [length take bytes_eqb]. rewrite andb_false_r. split; reflexivity.
  - cbn [length] in Hs. lia.
Qed.

(** A string [isValidSecretString] accepts has at least the two bytes of a
    prefix. *)
Lemma isValidSecretString_short (s : list byte) :
  (length s < 2)%nat -> isValidSecretString s = false.
Proof.
  intros Hs. apply HasPrefix_short in Hs as [H1 H2].
  unfold isValidSecretString. rewrite H1, H2. reflexivity.
Qed.

(** X1.  Generator and validator agree: every string [NewSecretString]
    returns is accepted by [isValidSecretString] and by
    [IsAcceptableSecretString]; it is 38 bytes long (the prefix and 36
    hexadecimal digits), begins with the first prefix, and the generator
    has taken 16 bytes from the random source. *)
Theorem NewSecretString_accepted (rand : Reader) (t : list byte)
  (rand' : Reader) :
  NewSecretString rand = (Ok t, rand') ->
  isValidSecretString t = true
  /\ IsAcceptableSecretString t = true
  /\ length t = 38%nat
  /\ HasPrefix t generatedSecretStringPrefix = true
  /\ rand' = drop 16 rand.
Proof.
  intros Hgen.
  assert (Hvalid : isValidSecretString t = true)
    by (eapply NewSecretString_valid; exact Hgen).
  assert (Hrand : rand' = drop 16 rand).
  { unfold NewSecretString, Reader_Read in Hgen.
    destruct rand as [|x rand]; [discriminate|].
    injection Hgen as _ <-. reflexivity. }
  assert (Hacc : IsAcceptableSecretString t = true).
  { unfold IsAcceptableSecretString. rewrite Hvalid.
    destruct (_ && _); reflexivity. }
  apply NewSecretString_form in Hgen as (b & Hb & ->).
  split; [exact Hvalid|]. split; [exact Hacc|].
  split; [|split; [reflexivity|exact Hrand]].
  cbn [length]. rewrite length_EncodeToString. unfold secret_body.
  cbv zeta. rewrite length_app, Hb. reflexivity.
Qed.

(** The theorem applies: the token of the bytes 6a 00 ... 00. *)
Lemma NewSecretString_accepted_witness :
  isValidSecretString (bytes_of "r!6a000000000000000000000000000000b9c7") = true
  /\ IsAcceptableSecretString (bytes_of "r!6a000000000000000000000000000000b9c7")
     = true
  /\ length (bytes_of "r!6a000000000000000000000000000000b9c7") = 38%nat
  /\ HasPrefix (bytes_of "r!6a000000000000000000000000000000b9c7")
       generatedSecretStringPrefix = true
  /\ ([] : Reader) = drop 16 (x6a :: zeros 15).
Proof.
  apply (NewSecretString_accepted (x6a :: zeros 15)).
  vm_compute. reflexivity.
Defined.

(** X2.  What the validator accepts: exactly the strings made of the
    letter r, one of the two prefix marks, and 36 hexadecimal digits (in
    either letter case) that decode to 16 bytes followed by the first two
    bytes of the SHA-256 digest of those 16 bytes. *)
Theorem isValidSecretString_iff (s : list byte) :
  isValidSecretString s = true
  <-> exists (p : byte) (body b : list byte),
        s = "r"%byte :: p :: body
        /\ (p = "!"%byte \/ p = "["%byte)
        /\ length b = 16%nat
        /\ length body = 36%nat
        /\ hex.Decode body = Some (secret_body b).
Proof.
  split.
  - intros Hvalid.
    destruct s as [|p0 [|p1 body]];
      [rewrite isValidSecretString_short in Hvalid by (cbn [length]; lia);
       discriminate Hvalid..|].
    rewrite isValidSecretString_prefix in Hvalid.
    apply andb_true_iff in Hvalid as [Hprefix Hbody].
    apply andb_true_iff in Hprefix as [Hr Hmark].
    apply byte_eqb_eq in Hr. subst p0.
    apply body_valid_iff in Hbody as (b & Hb & Hdec).
    exists p1, body, b. repeat split; try assumption.
    + apply orb_true_iff in Hmark as [Hm|Hm]; apply byte_eqb_eq in Hm; auto.
    + rewrite (Decode_length _ _ Hdec). unfold secret_body. cbv zeta.
      rewrite length_app, Hb. reflexivity.
  - intros (p & body & b & -> & Hp & Hb & _ & Hdec).
    rewrite isValidSecretString_prefix, byte_eqb_refl.
    assert (Hmark : byte_eqb p "!" || byte_eqb p "[" = true)
      by (destruct Hp as [-> | ->]; reflexivity).
    rewrite Hmark. cbn [andb].
    apply body_valid_iff. exists b. split; assumption.
Qed.

(** X3.  What [IsAcceptableSecretString] rejects: nothing that does not
    begin with one of the two prefixes (the empty string and one-byte
    strings included); and of the strings that begin with one, exactly those
    the validator rejects, among them every one whose length is not 38. *)
Theorem IsAcceptableSecretString_rejects (s : list byte) :
  (IsAcceptableSecretString s = false
   <-> (HasPrefix s generatedSecretStringPrefix = true
        \/ HasPrefix s generatedSecretStringPrefix2 = true)
       /\ isValidSecretString s = false)
  /\ ((length s < 2)%nat -> IsAcceptableSecretString s = true)
  /\ (HasPrefix s generatedSecretStringPrefix = true
      \/ HasPrefix s generatedSecretStringPrefix2 = true ->
      length s <> 38%nat -> IsAcceptableSecretString s = false).
Proof.
  assert (Hiff : IsAcceptableSecretString s = false
                 <-> (HasPrefix s generatedSecretStringPrefix = true
                      \/ HasPrefix s generatedSecretStringPrefix2 = true)
                     /\ isValidSecretString s = false).
  { unfold IsAcceptableSecretString.
    destruct (HasPrefix s generatedSecretStringPrefix),
      (HasPrefix s generatedSecretStringPrefix2); cbn [negb andb];
      intuition discriminate. }
  split; [exact Hiff|]. split.
  - intros Hs. apply HasPrefix_short in Hs as [H1 H2].
    unfold IsAcceptableSecretString. rewrite H1, H2. reflexivity.
  - intros Hprefix Hlen. apply Hiff. split; [exact Hprefix|].
    destruct (isValidSecretString s) eqn:Hvalid; [|reflexivity].
    apply isValidSecretString_iff in Hvalid
      as (p & body & b & -> & _ & _ & Hbody & _).
    cbn [length] in Hlen. lia.
Qed.

(** The theorem applies: a prefixed string that is too short. *)
Lemma IsAcceptableSecretString_rejects_witness :
  IsAcceptableSecretString (bytes_of "r!abcd") = false.
Proof.
  apply (IsAcceptableSecretString_rejects (bytes_of "r!abcd")).
  - left. vm_compute. reflexivity.
  - vm_compute. lia.
Defined.

(** X4.  No generated string counts as strong random: the generator only
    writes the first prefix, and [isStrongRandom] asks for the second.  The
    same string with the second prefix mark is valid and strong random. *)
Theorem generated_secret_is_not_strong (rand : Reader) (t : list byte)
  (rand' : Reader) (s : SharedSecret) :
  NewSecretString rand = (Ok t, rand') ->
  Secret s = t ->
  isStrongRandom s = false
  /\ isStrongRandom
       (mkSharedSecret (<[1%nat:="["%byte]> t) (Cards s) (Day s) (Month s)
          (Year s) (Hours s) (Minutes s)) = true.
Proof.
  intros Hgen Hs.
  assert (Hvalid : isValidSecretString t = true)
    by (eapply NewSecretString_valid; exact Hgen).
  apply NewSecretString_form in Hgen as (b & Hb & ->).
  unfold isStrongRandom. rewrite Hs. split.
  - reflexivity.
  - cbn [Secret insert list_insert].
    rewrite isValidSecretString_prefix in Hvalid |- *.
    rewrite !byte_eqb_refl in Hvalid |- *. cbn [andb orb] in Hvalid |- *.
    rewrite Hvalid. reflexivity.
Qed.

(** The theorem applies: a shared secret holding a generated token. *)
Lemma generated_secret_is_not_strong_witness :
  isStrongRandom
    (doubles.text_secret "r!6a000000000000000000000000000000b9c7") = false.
Proof.
  apply (generated_secret_is_not_strong (x6a :: zeros 15)
           (bytes_of "r!6a000000000000000000000000000000b9c7") []
           (doubles.text_secret "r!6a000000000000000000000000000000b9c7")).
  - vm_compute. reflexivity.
  - reflexivity.
Defined.

(** X5.  [NewSecretString] reads once and does not look at the number of
    bytes read.  It never returns an error: it panics when the read fails
    (here, on an exhausted source); and a source that delivers fewer than 16
    bytes yields the token of those bytes followed by zero bytes. *)
Theorem NewSecretString_short_read (rand : Reader) :
  (rand = [] -> is_Panic (fst (NewSecretString rand)) = true)
  /\ (rand <> [] ->
      NewSecretString rand
      = (Ok (generatedSecretStringPrefix
             ++ hex.EncodeToString
                  (secret_body (take 16 rand ++ zeros (16 - length rand)))),
         drop 16 rand))
  /\ (forall e, fst (NewSecretString rand) <> Err e).
Proof.
  unfold NewSecretString, Reader_Read.
  destruct rand as [|x rand].
  - split; [reflexivity|]. split; [congruence|]. intros e. discriminate.
  - split; [discriminate|]. split; [|intros e; discriminate].
    intros _. do 3 f_equal.
    rewrite copy_zeros by (rewrite length_take; lia).
    rewrite length_take.
    replace (16 - 16 `min` length (x :: rand))%nat
      with (16 - length (x :: rand))%nat by lia.
    reflexivity.
Qed.

(** The theorem applies: a source with a single byte left. *)
Lemma NewSecretString_short_read_witness :
  NewSecretString [x6a]
  = (Ok (generatedSecretStringPrefix
         ++ hex.EncodeToString
              (secret_body (take 16 [x6a] ++ zeros (16 - length [x6a])))),
     drop 16 [x6a]).
Proof.
  apply (NewSecretString_short_read [x6a]). discriminate.
Defined.

(** ** More on shared secrets: serialising and reading back *)

Lemma int32_idem (x : Z) : int32 (int32 x) = int32 x.
Proof.
  unfold int32.
  replace ((x + 2 ^ 31) mod 2 ^ 32 - 2 ^ 31 + 2 ^ 31)
    with ((x + 2 ^ 31) mod 2 ^ 32) by lia.
  rewrite Z.mod_mod by lia. reflexivity.
Qed.

Lemma int32_small (x : Z) : - 2 ^ 31 <= x < 2 ^ 31 -> int32 x = x.
Proof.
  intros Hx. unfold int32. rewrite Z.mod_small by lia. lia.
Qed.

Section shared_secret_more.
Context {E : Externals}.

Lemma GetSecret_toProto (s : SharedSecret) :
  panda_proto.GetSecret (toProto s) = Secret s.
Proof.
  unfold toProto, panda_proto.GetSecret, len. cbn [panda_proto.Secret].
  destruct (Secret s) as [|x l]; [reflexivity|].
  cbn [length].
  replace (0 <? Z.of_nat (S (length l))) with true
    by (symmetry; apply Z.ltb_lt; lia).
  reflexivity.
Qed.

Lemma GetNumDecks_toProto (s : SharedSecret) :
  panda_proto.GetNumDecks (toProto s)
  = if 0 <? NumDecks (Cards s) then int32 (NumDecks (Cards s)) else 0.
Proof.
  unfold toProto, panda_proto.GetNumDecks. cbn [panda_proto.NumDecks].
  destruct (0 <? NumDecks (Cards s)); reflexivity.
Qed.

(** X6.  What comes back when a shared secret is serialised with [toProto]
    and read with [newSharedSecret].  The text secret always comes back
    unchanged.  The appointment comes back only when its year is not zero
    (each field through [int32]); with year zero the record has no
    appointment and day, month, hours and minutes are lost.  Without decks
    the card stack comes back as the zero stack; with decks the deck count
    comes back through [int32] and the counts are those of the canonical
    stack. *)
Theorem toProto_newSharedSecret (s s' : SharedSecret) :
  newSharedSecret (toProto s) = Some s' ->
  Secret s' = Secret s
  /\ (Year s = 0 ->
      Day s' = 0 /\ Month s' = 0 /\ Year s' = 0 /\ Hours s' = 0
      /\ Minutes s' = 0)
  /\ (Year s <> 0 ->
      Day s' = int32 (Day s) /\ Month s' = int32 (Month s)
      /\ Year s' = int32 (Year s) /\ Hours s' = int32 (Hours s)
      /\ Minutes s' = int32 (Minutes s))
  /\ (NumDecks (Cards s) <= 0 ->
      Cards s' = mkCardStack 0 (replicate numCards 0))
  /\ (0 < NumDecks (Cards s) ->
      NumDecks (Cards s') = int32 (NumDecks (Cards s))
      /\ (0 < int32 (NumDecks (Cards s)) ->
          counts (Cards s') = counts (Canonicalise (Cards s)))).
Proof.
  unfold newSharedSecret.
  rewrite GetSecret_toProto, GetNumDecks_toProto.
  assert (Htime :
    forall cards,
      let r := mkSharedSecret (Secret s) cards
                 (panda_proto.GetDay (panda_proto.Time (toProto s)))
                 (panda_proto.GetMonth (panda_proto.Time (toProto s)))
                 (panda_proto.GetYear (panda_proto.Time (toProto s)))
                 (panda_proto.GetHours (panda_proto.Time (toProto s)))
                 (panda_proto.GetMinutes (panda_proto.Time (toProto s))) in
      (Year s = 0 ->
       Day r = 0 /\ Month r = 0 /\ Year r = 0 /\ Hours r = 0 /\ Minutes r = 0)
      /\ (Year s <> 0 ->
          Day r = int32 (Day s) /\ Month r = int32 (Month s)
          /\ Year r = int32 (Year s) /\ Hours r = int32 (Hours s)
          /\ Minutes r = int32 (Minutes s))).
  { intros cards r. subst r. unfold toProto. cbn [panda_proto.Time].
    destruct (Z.eqb_spec (Year s) 0) as [Hy|Hy]; cbn; split; intros Hy';
      try contradiction; repeat split; reflexivity. }
  destruct (Z.ltb_spec 0 (NumDecks (Cards s))) as [Hdecks|Hdecks].
  - destruct (Z.ltb_spec 0 (int32 (NumDecks (Cards s)))) as [Hpos|Hneg].
    + unfold toProto at 1 2. cbn [panda_proto.CardCount].
      replace (0 <? NumDecks (Cards s)) with true
        by (symmetry; apply Z.ltb_lt; exact Hdecks).
      destruct (Nat.eqb_spec (length (counts (Canonicalise (Cards s)))) numCards)
        as [Hc|Hc]; cbn [negb]; [|discriminate].
      intros [= <-]. cbn [Secret Cards NumDecks counts].
      split; [reflexivity|]. destruct (Htime (mkCardStack 0 [])) as [H0 H1].
      split; [exact H0|]. split; [exact H1|]. split; [lia|].
      intros _. split; [reflexivity|]. intros _.
      apply copy_exact. rewrite length_replicate. exact Hc.
    + destruct (len (Secret s) =? 0); [discriminate|].
      intros [= <-]. cbn [Secret Cards NumDecks counts].
      split; [reflexivity|]. destruct (Htime (mkCardStack 0 [])) as [H0 H1].
      split; [exact H0|]. split; [exact H1|]. split; [lia|].
      intros _. split; [reflexivity|]. lia.
  - change (0 <? 0) with false. cbv iota.
    destruct (len (Secret s) =? 0); [discriminate|].
    intros [= <-]. cbn [Secret Cards NumDecks counts].
    split; [reflexivity|]. destruct (Htime (mkCardStack 0 [])) as [H0 H1].
    split; [exact H0|]. split; [exact H1|]. split; [reflexivity|]. lia.
Qed.

(** X7.  Which shared secrets can be read back at all: [newSharedSecret]
    accepts the record [toProto] writes exactly when the secret has decks
    (a positive count, also after the conversion to [int32]) and its
    canonical stack has [numCards] counts, or has no such deck count and a
    non-empty text secret.  A secret with neither text nor decks, which
    [toProto] serialises without complaint, is not accepted. *)
Theorem toProto_accepted_iff (s : SharedSecret) :
  ((exists s', newSharedSecret (toProto s) = Some s')
   <-> (0 < NumDecks (Cards s) /\ 0 < int32 (NumDecks (Cards s))
        /\ length (counts (Canonicalise (Cards s))) = numCards)
       \/ ((NumDecks (Cards s) <= 0 \/ int32 (NumDecks (Cards s)) <= 0)
           /\ Secret s <> []))
  /\ (Secret s = [] -> NumDecks (Cards s) <= 0 ->
      newSharedSecret (toProto s) = None).
Proof.
  assert (Hiff :
    (exists s', newSharedSecret (toProto s) = Some s')
    <-> (0 < NumDecks (Cards s) /\ 0 < int32 (NumDecks (Cards s))
         /\ length (counts (Canonicalise (Cards s))) = numCards)
        \/ ((NumDecks (Cards s) <= 0 \/ int32 (NumDecks (Cards s)) <= 0)
            /\ Secret s <> [])).
  { rewrite newSharedSecret_Some, GetSecret_toProto, GetNumDecks_toProto.
    unfold toProto. cbn [panda_proto.CardCount].
    destruct (Z.ltb_spec 0 (NumDecks (Cards s))) as [Hdecks|Hdecks].
    - split.
      + intros [[Hpos Hc]|[Hneg Hs]]; [left; auto | right; auto].
      + intros [(_ & Hpos & Hc)|[[Hn|Hn] Hs]]; [left; auto|lia|right; auto].
    - split.
      + intros [[Hpos _]|[_ Hs]]; [lia | right; auto].
      + intros [(Hpos & _)|[_ Hs]]; [lia | right; split; [lia|exact Hs]]. }
  split; [exact Hiff|].
  intros Hs Hd.
  destruct (newSharedSecret (toProto s)) as [s'|] eqn:Hnew; [|reflexivity].
  exfalso.
  destruct (proj1 Hiff (ex_intro _ s' eq_refl)) as [(Hpos & _)|[_ Hs']];
    [lia|contradiction].
Qed.

(** X8.  A text secret survives a reload: when the secret has no decks, a
    non-empty text, and a year that is zero or does not become zero by the
    conversion to [int32], [newSharedSecret] accepts what [toProto] wrote
    and the secret it returns serialises to the same record. *)
Theorem text_secret_survives (s : SharedSecret) :
  Secret s <> [] ->
  NumDecks (Cards s) <= 0 ->
  Year s = 0 \/ int32 (Year s) <> 0 ->
  secret_survives s.
Proof.
  intros Hs Hdecks Hyear. unfold secret_survives.
  destruct (newSharedSecret (toProto s)) as [s'|] eqn:Hnew.
  2:{ exfalso.
      assert (Hex : exists s', newSharedSecret (toProto s) = Some s').
      { apply newSharedSecret_Some. right.
        rewrite GetSecret_toProto, GetNumDecks_toProto.
        replace (0 <? NumDecks (Cards s)) with false
          by (symmetry; apply Z.ltb_ge; exact Hdecks).
        split; [lia|exact Hs]. }
      destruct Hex as [s' Hs']. congruence. }
  exists s'. split; [reflexivity|].
  unfold newSharedSecret in Hnew.
  rewrite GetSecret_toProto, GetNumDecks_toProto in Hnew.
  replace (0 <? NumDecks (Cards s)) with false in Hnew
    by (symmetry; apply Z.ltb_ge; exact Hdecks).
  change (0 <? 0) with false in Hnew. cbv iota in Hnew.
  destruct (len (Secret s) =? 0); [discriminate|].
  injection Hnew as <-.
  unfold toProto. cbn [Secret Cards NumDecks counts Year Day Month Hours Minutes].
  replace (0 <? NumDecks (Cards s)) with false
    by (symmetry; apply Z.ltb_ge; exact Hdecks).
  change (0 <? 0) with false. cbv iota.
  f_equal.
  cbn [panda_proto.Time].
  destruct (Z.eqb_spec (Year s) 0) as [Hy|Hy]; [reflexivity|].
  destruct Hyear as [Hy0|Hy32]; [contradiction|].
  cbn. rewrite !int32_idem.
  destruct (Z.eqb_spec (int32 (Year s)) 0) as [Hz|Hz]; [contradiction|].
  reflexivity.
Qed.

End shared_secret_more.

(** The theorem applies: an appointment without a year is lost. *)
Lemma toProto_newSharedSecret_witness :
  Day (doubles.text_secret "horse") = 0
  /\ Month (doubles.text_secret "horse") = 0
  /\ Year (doubles.text_secret "horse") = 0
  /\ Hours (doubles.text_secret "horse") = 0
  /\ Minutes (doubles.text_secret "horse") = 0.
Proof.
  destruct (toProto_newSharedSecret (E := doubles.externals)
              (mkSharedSecret (bytes_of "horse") (mkCardStack 0 (replicate 52 0))
                 24 12 0 18 30)
              (doubles.text_secret "horse")) as (_ & Hlost & _).
  - vm_compute. reflexivity.
  - apply Hlost. reflexivity.
Defined.

(** The theorem applies: the empty text secret. *)
Lemma toProto_accepted_iff_witness :
  newSharedSecret (E := doubles.externals)
    (toProto (E := doubles.externals) (doubles.text_secret "")) = None.
Proof.
  apply (toProto_accepted_iff (E := doubles.externals) (doubles.text_secret ""));
    [reflexivity | vm_compute; discriminate].
Defined.

(** The theorem applies: a text secret without appointment. *)
Lemma text_secret_survives_witness :
  secret_survives (E := doubles.externals) (doubles.text_secret "correct horse").
Proof.
  apply (text_secret_survives (E := doubles.externals)
           (doubles.text_secret "correct horse")).
  - vm_compute. discriminate.
  - vm_compute. discriminate.
  - left. reflexivity.
Defined.

(** ** More on construction and reloading *)

(** [copy] into a zeroed array truncates or pads with zero bytes. *)
Lemma copy_zeros_take (n : nat) (src : list byte) :
  copy (zeros n) src = take n (src ++ zeros n).
Proof.
  unfold copy. rewrite length_zeros.
  destruct (Nat.le_gt_cases n (length src)) as [Hlong|Hshort].
  - rewrite take_app_le by lia.
    unfold zeros. rewrite drop_ge by (rewrite length_replicate; lia).
    apply app_nil_r.
  - rewrite take_app_ge by lia. rewrite take_ge by lia. f_equal.
    unfold zeros. rewrite drop_replicate, take_replicate. f_equal. lia.
Qed.

Section construct_more.
Context {E : Externals}.

(** The struct a successful construction returns. *)
Lemma NewKeyExchange_Ok_inv (rand_ : Reader) (mp : MeetingPlace)
  (secret : SharedSecret) (payload : list byte) (kx : KeyExchange) :
  NewKeyExchange rand_ mp secret payload = Ok kx ->
  (32 <= length rand_)%nat
  /\ 24 + 4 + len payload + secretbox_Overhead <= Padding mp
  /\ exists bytes,
       proto_Marshal_KeyExchange
         (panda_proto.mkKeyExchange (Some KeyExchange_INIT)
            (Some (toProto secret)) payload [] [] [] [] [] [] []) = Val bytes
       /\ kx = mkKeyExchange true false chan_nil (drop 32 rand_)
                 KeyExchange_INIT mp secret bytes payload
                 (zeros 32) (zeros 32) (zeros 32)
                 (array32 (curve25519_ScalarBaseMult (take 32 rand_)))
                 (take 32 rand_) (zeros 32) [] [].
Proof.
  unfold NewKeyExchange.
  destruct (Z.ltb_spec (Padding mp) (24 + 4 + len payload + secretbox_Overhead))
    as [Hbig|Hfit]; [discriminate|].
  cbv [bind get modify ret fail ReadFull_rand updateSerialised panic].
  record_simpl.
  destruct (io_ReadFull_spec rand_ 32)
    as [(got & Hr & Hgot & Hlen & Hle)|(e & Hr & Hlt)]; rewrite Hr; cbn [fst snd];
    [|discriminate].
  record_simpl. unfold snapshot. record_simpl. cbn [is_INIT].
  destruct (proto_Marshal_KeyExchange _) as [bytes|e] eqn:Hm; cbn [fst snd];
    [|discriminate].
  intros [= <-]. split; [exact Hle|]. split; [exact Hfit|].
  exists bytes. split; [reflexivity|].
  record_unfold.
  rewrite copy_exact by (rewrite length_zeros; exact Hlen).
  subst got. reflexivity.
Qed.

(** X9.  What a successful construction has done.  It took exactly the
    first 32 bytes of the random source as the DH private key and computed
    the public value from them; the struct is in status INIT with a
    non-nil, no-op logger, testing off and no shutdown channel, zeroed key,
    meeting tags and shared key, and no messages; the meeting place has not
    been called; and the serialised form is the encoding of a record that
    holds only the status, the shared secret and the payload. *)
Theorem NewKeyExchange_Ok (rand_ : Reader) (mp : MeetingPlace)
  (secret : SharedSecret) (payload : list byte) (kx : KeyExchange) :
  NewKeyExchange rand_ mp secret payload = Ok kx ->
  (32 <= length rand_)%nat
  /\ dhPrivate kx = take 32 rand_ /\ rand kx = drop 32 rand_
  /\ dhPublic kx = array32 (curve25519_ScalarBaseMult (dhPrivate kx))
  /\ status kx = KeyExchange_INIT
  /\ Log kx = true /\ Testing kx = false /\ ShutdownChan kx = chan_nil
  /\ key kx = zeros 32 /\ meeting1 kx = zeros 32 /\ meeting2 kx = zeros 32
  /\ sharedKey kx = zeros 32 /\ message1 kx = [] /\ message2 kx = []
  /\ sharedSecret kx = secret /\ kxBytes kx = payload
  /\ meetingPlace kx = mp
  /\ proto_Marshal_KeyExchange
       (panda_proto.mkKeyExchange (Some KeyExchange_INIT)
          (Some (toProto secret)) payload [] [] [] [] [] [] [])
     = Val (Marshal kx).
Proof.
  intros Hnew.
  apply NewKeyExchange_Ok_inv in Hnew as (Hrand & _ & bytes & Hm & ->).
  unfold Marshal. record_simpl. repeat split; try reflexivity; assumption.
Qed.

(** X10.  The serialised form of a freshly constructed exchange holds no
    key material: two constructions with the same shared secret and payload
    have the same serialised form, whatever their random sources (hence
    their DH private keys) and meeting places. *)
Theorem NewKeyExchange_Marshal_without_keys (rand1 rand2 : Reader)
  (mp1 mp2 : MeetingPlace) (secret : SharedSecret) (payload : list byte)
  (kx1 kx2 : KeyExchange) :
  NewKeyExchange rand1 mp1 secret payload = Ok kx1 ->
  NewKeyExchange rand2 mp2 secret payload = Ok kx2 ->
  Marshal kx1 = Marshal kx2.
Proof.
  intros H1 H2.
  apply NewKeyExchange_Ok_inv in H1 as (_ & _ & bytes1 & Hm1 & ->).
  apply NewKeyExchange_Ok_inv in H2 as (_ & _ & bytes2 & Hm2 & ->).
  unfold Marshal. record_simpl. congruence.
Qed.

(** What a successful reload returns. *)
Lemma UnmarshalKeyExchange_Ok_inv (rand_ : Reader) (mp : MeetingPlace)
  (bytes : list byte) (kx : KeyExchange) :
  UnmarshalKeyExchange rand_ mp bytes = Ok kx ->
  exists p ps secret,
    proto_Unmarshal_KeyExchange bytes = Val p
    /\ panda_proto.SharedSecret p = Some ps
    /\ newSharedSecret ps = Some secret
    /\ kx = mkKeyExchange false false chan_nil rand_ (panda_proto.GetStatus p)
              mp secret bytes (panda_proto.KeyExchangeBytes p)
              (copy (zeros 32) (panda_proto.Key p))
              (copy (zeros 32) (panda_proto.Meeting1 p))
              (copy (zeros 32) (panda_proto.Meeting2 p))
              (array32 (curve25519_ScalarBaseMult
                          (copy (zeros 32) (panda_proto.DhPrivate p))))
              (copy (zeros 32) (panda_proto.DhPrivate p))
              (copy (zeros 32) (panda_proto.SharedKey p))
              (panda_proto.Message1 p) (panda_proto.Message2 p).
Proof.
  unfold UnmarshalKeyExchange.
  destruct (proto_Unmarshal_KeyExchange bytes) as [p|e]; [|discriminate].
  destruct (panda_proto.SharedSecret p) as [ps|] eqn:Hps; [|discriminate].
  destruct (newSharedSecret ps) as [secret|] eqn:Hsecret; [|discriminate].
  intros [= <-]. exists p, ps, secret. auto.
Qed.

(** X11.  What a successful reload returns.  [Marshal] of the reloaded
    struct is the byte string it was read from; the random source and the
    meeting place are the ones passed in; [Log] is nil, testing is off and
    there is no shutdown channel; every array has its 32 bytes, each byte
    field of the record having been truncated to 32 bytes or padded with
    zero bytes; the DH public value is recomputed from the private key; the
    status, payload and messages are the record's. *)
Theorem UnmarshalKeyExchange_Ok (rand_ : Reader) (mp : MeetingPlace)
  (bytes : list byte) (kx : KeyExchange) :
  UnmarshalKeyExchange rand_ mp bytes = Ok kx ->
  Marshal kx = bytes /\ rand kx = rand_ /\ meetingPlace kx = mp
  /\ Log kx = false /\ Testing kx = false /\ ShutdownChan kx = chan_nil
  /\ arrays_ok kx
  /\ dhPublic kx = array32 (curve25519_ScalarBaseMult (dhPrivate kx))
  /\ exists p ps,
       proto_Unmarshal_KeyExchange bytes = Val p
       /\ panda_proto.SharedSecret p = Some ps
       /\ newSharedSecret ps = Some (sharedSecret kx)
       /\ status kx = panda_proto.GetStatus p
       /\ kxBytes kx = panda_proto.KeyExchangeBytes p
       /\ message1 kx = panda_proto.Message1 p
       /\ message2 kx = panda_proto.Message2 p
       /\ key kx = take 32 (panda_proto.Key p ++ zeros 32)
       /\ meeting1 kx = take 32 (panda_proto.Meeting1 p ++ zeros 32)
       /\ meeting2 kx = take 32 (panda_proto.Meeting2 p ++ zeros 32)
       /\ dhPrivate kx = take 32 (panda_proto.DhPrivate p ++ zeros 32)
       /\ sharedKey kx = take 32 (panda_proto.SharedKey p ++ zeros 32).
Proof.
  intros Hload.
  apply UnmarshalKeyExchange_Ok_inv in Hload
    as (p & ps & secret & Hp & Hps & Hsecret & ->).
  unfold Marshal, arrays_ok. record_simpl.
  rewrite !length_copy, !length_zeros, length_array32.
  repeat match goal with |- _ /\ _ => split end; try reflexivity.
  exists p, ps. rewrite <- !copy_zeros_take. auto 20.
Qed.

(** X12.  How a reload fails.  An error of the decoder is returned as it
    is; the only other error is the invalid-shared-secret error, returned
    exactly when the decoded record holds a shared-secret record that
    [newSharedSecret] rejects (decks with a card-count vector of the wrong
    length, or neither decks nor text).  Wrong-sized key material is never
    an error, and whether the reload succeeds does not depend on the random
    source or the meeting place passed in. *)
Theorem UnmarshalKeyExchange_errors (rand_ : Reader) (mp : MeetingPlace)
  (bytes : list byte) :
  (forall e : error_value,
      proto_Unmarshal_KeyExchange bytes = Fail e ->
      UnmarshalKeyExchange rand_ mp bytes = Err (global e))
  /\ (forall e,
         UnmarshalKeyExchange rand_ mp bytes = Err e ->
         (exists ev : error_value,
             e = global ev /\ proto_Unmarshal_KeyExchange bytes = Fail ev)
         \/ (e = errors_New
                   "panda: invalid shared secret in serialised key exchange"
             /\ exists p ps,
                  proto_Unmarshal_KeyExchange bytes = Val p
                  /\ panda_proto.SharedSecret p = Some ps
                  /\ ((0 < panda_proto.GetNumDecks ps
                       /\ length (panda_proto.CardCount ps) <> numCards)
                      \/ (panda_proto.GetNumDecks ps <= 0
                          /\ panda_proto.GetSecret ps = []))))
  /\ (forall p ps,
         proto_Unmarshal_KeyExchange bytes = Val p ->
         panda_proto.SharedSecret p = Some ps ->
         (0 < panda_proto.GetNumDecks ps
          /\ length (panda_proto.CardCount ps) <> numCards)
         \/ (panda_proto.GetNumDecks ps <= 0
             /\ panda_proto.GetSecret ps = []) ->
         UnmarshalKeyExchange rand_ mp bytes
         = Err (errors_New
                  "panda: invalid shared secret in serialised key exchange"))
  /\ (forall rand2 mp2,
         is_Ok (UnmarshalKeyExchange rand2 mp2 bytes)
         = is_Ok (UnmarshalKeyExchange rand_ mp bytes)).
Proof.
  unfold UnmarshalKeyExchange. split; [|split; [|split]].
  - intros e ->. reflexivity.
  - intros e.
    destruct (proto_Unmarshal_KeyExchange bytes) as [p|ev].
    2:{ intros [= <-]. left. eauto. }
    destruct (panda_proto.SharedSecret p) as [ps|] eqn:Hps; [|discriminate].
    destruct (newSharedSecret ps) as [secret|] eqn:Hsecret; [discriminate|].
    intros [= <-]. right. split; [reflexivity|]. exists p, ps.
    split; [reflexivity|]. split; [exact Hps|].
    destruct (Z.ltb_spec 0 (panda_proto.GetNumDecks ps)) as [Hd|Hd].
    + left. split; [exact Hd|]. intros Hc.
      assert (Hex : exists s, newSharedSecret ps = Some s)
        by (apply newSharedSecret_Some; left; auto).
      destruct Hex as [s Hs]. congruence.
    + right. split; [exact Hd|].
      destruct (panda_proto.GetSecret ps) as [|x l] eqn:Hs; [reflexivity|].
      assert (Hex : exists s, newSharedSecret ps = Some s).
      { apply newSharedSecret_Some. right. split; [exact Hd|].
        rewrite Hs. discriminate. }
      destruct Hex as [s Hs']. congruence.
  - intros p ps -> -> Hbad.
    destruct (newSharedSecret ps) as [secret|] eqn:Hsecret; [|reflexivity].
    assert (Hok : exists s, newSharedSecret ps = Some s) by eauto.
    apply newSharedSecret_Some in Hok.
    destruct Hbad as [[Hd Hc]|[Hd Hs]], Hok as [[Hd' Hc']|[Hd' Hs']];
      first [lia | congruence].
  - intros rand2 mp2.
    destruct (proto_Unmarshal_KeyExchange bytes) as [p|ev]; [|reflexivity].
    destruct (panda_proto.SharedSecret p) as [ps|]; [|reflexivity].
    destruct (newSharedSecret ps); reflexivity.
Qed.

(** X13.  Construction does not validate the shared secret, the reload
    does: an exchange constructed with a secret that has neither text nor
    decks is built and serialised, but (with a decoder that inverts the
    encoder on it) its serialised form cannot be reloaded. *)
Theorem empty_secret_not_reloadable (rand_ rand2 : Reader)
  (mp mp2 : MeetingPlace) (secret : SharedSecret) (payload : list byte)
  (kx : KeyExchange) :
  NewKeyExchange rand_ mp secret payload = Ok kx ->
  Secret secret = [] ->
  NumDecks (Cards secret) <= 0 ->
  proto_Unmarshal_KeyExchange (Marshal kx) = Val (snapshot kx) ->
  UnmarshalKeyExchange rand2 mp2 (Marshal kx)
  = Err (errors_New "panda: invalid shared secret in serialised key exchange").
Proof.
  intros Hnew Hs Hd Hdec.
  apply NewKeyExchange_Ok_inv in Hnew as (_ & _ & bytes & Hm & ->).
  unfold UnmarshalKeyExchange. rewrite Hdec.
  unfold snapshot. record_simpl. cbn [is_INIT panda_proto.SharedSecret].
  destruct (newSharedSecret (toProto secret)) as [s'|] eqn:Hsecret;
    [|reflexivity].
  exfalso.
  assert (Hex : exists s, newSharedSecret (toProto secret) = Some s) by eauto.
  apply newSharedSecret_Some in Hex as [[Hpos _]|[_ Hne]].
  - unfold toProto, panda_proto.GetNumDecks in Hpos.
    cbn [panda_proto.NumDecks] in Hpos.
    replace (0 <? NumDecks (Cards secret)) with false in Hpos
      by (symmetry; apply Z.ltb_ge; exact Hd).
    cbn in Hpos. lia.
  - apply Hne. unfold toProto, panda_proto.GetSecret.
    cbn [panda_proto.Secret]. rewrite Hs. reflexivity.
Qed.

End construct_more.

(** The theorems apply, on the two parties with small DH scalars. *)
Lemma NewKeyExchange_Ok_witness :
  dhPrivate (doubles.force fixtures.carol) = take 32 fixtures.carol_rand
  /\ rand (doubles.force fixtures.carol) = drop 32 fixtures.carol_rand.
Proof.
  destruct (NewKeyExchange_Ok (E := doubles.externals) fixtures.carol_rand
              (doubles.scripted 80 [Val fixtures.dave_message1;
                                    Val fixtures.dave_message2])
              (doubles.text_secret "correct horse") (bytes_of "from carol")
              (doubles.force fixtures.carol)) as (_ & Hpriv & Hrand & _).
  - vm_compute. reflexivity.
  - split; [exact Hpriv|exact Hrand].
Defined.

Lemma NewKeyExchange_Marshal_without_keys_witness :
  Marshal (doubles.force fixtures.carol)
  = Marshal (doubles.force (fixtures.party fixtures.dave_rand [] "from carol")).
Proof.
  apply (NewKeyExchange_Marshal_without_keys (E := doubles.externals)
           fixtures.carol_rand fixtures.dave_rand
           (doubles.scripted 80 [Val fixtures.dave_message1;
                                 Val fixtures.dave_message2])
           (doubles.scripted 80 [])
           (doubles.text_secret "correct horse") (bytes_of "from carol")).
  - vm_compute. reflexivity.
  - vm_compute. reflexivity.
Defined.

Lemma UnmarshalKeyExchange_Ok_witness :
  Log (doubles.force
         (UnmarshalKeyExchange (E := doubles.externals) [] (doubles.scripted 80 [])
            (Marshal fixtures.carol_EXCHANGE1))) = false.
Proof.
  destruct (UnmarshalKeyExchange_Ok (E := doubles.externals) []
              (doubles.scripted 80 [])
              (Marshal fixtures.carol_EXCHANGE1)
              (doubles.force
                 (UnmarshalKeyExchange (E := doubles.externals) []
                    (doubles.scripted 80 [])
                    (Marshal fixtures.carol_EXCHANGE1))))
    as (_ & _ & _ & Hlog & _).
  - vm_compute. reflexivity.
  - exact Hlog.
Defined.

Lemma UnmarshalKeyExchange_errors_witness :
  UnmarshalKeyExchange (E := doubles.externals) [] (doubles.scripted 80 [])
    [x07]
  = Err (global (foreign 1)).
Proof.
  apply (UnmarshalKeyExchange_errors (E := doubles.externals) []
           (doubles.scripted 80 []) [x07]).
  vm_compute. reflexivity.
Defined.

Lemma empty_secret_not_reloadable_witness :
  UnmarshalKeyExchange (E := doubles.externals) [] (doubles.scripted 80 [])
    (Marshal (doubles.force
                (NewKeyExchange (E := doubles.externals) fixtures.carol_rand
                   (doubles.scripted 80 []) (doubles.text_secret "") [])))
  = Err (errors_New "panda: invalid shared secret in serialised key exchange").
Proof.
  apply (empty_secret_not_reloadable (E := doubles.externals)
           fixtures.carol_rand [] (doubles.scripted 80 [])
           (doubles.scripted 80 []) (doubles.text_secret "") []).
  - vm_compute. reflexivity.
  - reflexivity.
  - vm_compute. discriminate.
  - vm_compute. reflexivity.
Defined.

(** ** More on [Run]: what a call changes, and what it needs *)

Section run_more.
Context {E : Externals}.

Lemma derivePassword_status k : status (snd (derivePassword k)) = status k.
Proof.
  destruct (derivePassword k) as [o k1] eqn:Hstep.
  apply derivePassword_inv in Hstep as [Hch _].
  apply derive_changed_frame in Hch as (_ & _ & _ & Hst & _). exact Hst.
Qed.

Lemma exchange1_status k : status (snd (exchange1 k)) = status k.
Proof.
  destruct (exchange1 k) as [o k1] eqn:Hstep.
  apply exchange1_inv in Hstep as [Hch _].
  apply exchange1_changed_frame in Hch as (_ & _ & _ & Hst & _). exact Hst.
Qed.

Lemma exchange2_state k :
  snd (exchange2 k) = after_call k (meeting2 k) (message2 k).
Proof.
  destruct (exchange2 k) as [o k1] eqn:Hstep.
  apply exchange2_inv in Hstep as [-> _]. reflexivity.
Qed.

(** A relation that every step and every piece of bookkeeping respects
    holds between the struct before and after [Run]. *)
Lemma after_step_rel {A} (R : KeyExchange -> KeyExchange -> Prop)
  (status_ : KeyExchange_Status) (next : M A) (k1 : KeyExchange) :
  (forall a b c, R a b -> R b c -> R a c) ->
  R k1 (set_status status_ k1) ->
  (forall k b, R k (set_serialised b k)) ->
  (forall k c, R k (set_ShutdownChan c k)) ->
  (forall k, status k = status_ -> R k (snd (next k))) ->
  R k1 (snd (after_step status_ next k1)).
Proof.
  intros Htrans Hstatus Hser Hchan Hnext. unfold after_step.
  destruct (proto_Marshal_KeyExchange _) as [bytes|e]; [|exact Hstatus].
  cbv zeta.
  assert (Hm : R k1 (set_serialised bytes (set_status status_ k1)))
    by (eapply Htrans; [exact Hstatus|apply Hser]).
  destruct (Log _); [|exact Hm].
  destruct (try_recv _) as [[] c]; cbn [snd].
  - eapply Htrans; [exact Hm|apply Hchan].
  - eapply Htrans; [exact Hm|]. eapply Htrans; [apply Hchan|].
    apply Hnext. reflexivity.
Qed.

Lemma Run_EXCHANGE1_rel (R : KeyExchange -> KeyExchange -> Prop) :
  (forall k, R k k) ->
  (forall a b c, R a b -> R b c -> R a c) ->
  (forall k, status k = KeyExchange_EXCHANGE1 -> R k (snd (exchange1 k))) ->
  (forall k, status k = KeyExchange_EXCHANGE2 -> R k (snd (exchange2 k))) ->
  (forall k, status k = KeyExchange_EXCHANGE1 ->
             R k (set_status KeyExchange_EXCHANGE2 k)) ->
  (forall k b, R k (set_serialised b k)) ->
  (forall k c, R k (set_ShutdownChan c k)) ->
  forall kx, status kx = KeyExchange_EXCHANGE1 -> R kx (snd (Run_EXCHANGE1 kx)).
Proof.
  intros Hrefl Htrans H1 H2 Hs2 Hser Hchan kx Hst.
  rewrite Run_EXCHANGE1_eq.
  pose proof (H1 kx Hst) as Hstep. pose proof (exchange1_status kx) as Hst1.
  destruct (exchange1 kx) as [[[]|e|p] k1]; cbn [snd] in *; try exact Hstep.
  eapply Htrans; [exact Hstep|].
  apply after_step_rel; auto.
  apply Hs2. congruence.
Qed.

Lemma Run_rel (R : KeyExchange -> KeyExchange -> Prop) :
  (forall k, R k k) ->
  (forall a b c, R a b -> R b c -> R a c) ->
  (forall k, status k = KeyExchange_INIT -> R k (snd (derivePassword k))) ->
  (forall k, status k = KeyExchange_EXCHANGE1 -> R k (snd (exchange1 k))) ->
  (forall k, status k = KeyExchange_EXCHANGE2 -> R k (snd (exchange2 k))) ->
  (forall k, status k = KeyExchange_INIT ->
             R k (set_status KeyExchange_EXCHANGE1 k)) ->
  (forall k, status k = KeyExchange_EXCHANGE1 ->
             R k (set_status KeyExchange_EXCHANGE2 k)) ->
  (forall k b, R k (set_serialised b k)) ->
  (forall k c, R k (set_ShutdownChan c k)) ->
  forall kx, R kx (snd (Run kx)).
Proof.
  intros Hrefl Htrans H0 H1 H2 Hs1 Hs2 Hser Hchan kx.
  rewrite Run_eq. destruct (status kx) eqn:Hst.
  - rewrite Run_INIT_eq.
    pose proof (H0 kx Hst) as Hstep. pose proof (derivePassword_status kx) as Hst1.
    destruct (derivePassword kx) as [[[]|e|p] k1]; cbn [snd] in *;
      try exact Hstep.
    eapply Htrans; [exact Hstep|].
    apply after_step_rel; auto.
    + apply Hs1. congruence.
    + intros k Hk. apply Run_EXCHANGE1_rel; auto.
  - apply Run_EXCHANGE1_rel; auto.
  - apply H2. exact Hst.
  - apply Hrefl.
Qed.

(** What a successful step of the bookkeeping went through. *)
Lemma after_step_Ok {A} (status_ : KeyExchange_Status) (next : M A) k1
  (a : A) kx' :
  after_step status_ next k1 = (Ok a, kx') ->
  exists bytes c,
    proto_Marshal_KeyExchange (snapshot (set_status status_ k1)) = Val bytes
    /\ Log k1 = true
    /\ try_recv (ShutdownChan k1) = (false, c)
    /\ next (set_ShutdownChan c (set_serialised bytes (set_status status_ k1)))
       = (Ok a, kx').
Proof.
  unfold after_step.
  destruct (proto_Marshal_KeyExchange _) as [bytes|e]; [|discriminate].
  cbv zeta. record_simpl.
  destruct (Log k1); [|discriminate].
  destruct (try_recv (ShutdownChan k1)) as [[] c]; [discriminate|].
  intros Hnext. exists bytes, c. auto.
Qed.

(** A payload comes from the last step, run in status EXCHANGE2; and on
    the way there every logging call found a logger. *)
Lemma Run_EXCHANGE1_Ok_inv kx payload kx' :
  Run_EXCHANGE1 kx = (Ok payload, kx') ->
  Log kx = true
  /\ exists k, exchange2 k = (Ok payload, kx')
               /\ status k = KeyExchange_EXCHANGE2.
Proof.
  rewrite Run_EXCHANGE1_eq.
  destruct (exchange1 kx) as [[[]|e|p] k1] eqn:Hstep; try discriminate.
  intros Hafter.
  apply after_step_Ok in Hafter as (bytes & c & _ & Hlog & _ & Hnext).
  apply exchange1_inv in Hstep as [Hch _].
  apply exchange1_changed_frame in Hch as (Hl & _).
  split; [congruence|]. eexists. split; [exact Hnext|reflexivity].
Qed.

Lemma Run_Ok_inv kx payload kx' :
  Run kx = (Ok payload, kx') ->
  (status kx = KeyExchange_EXCHANGE2 \/ Log kx = true)
  /\ exists k, exchange2 k = (Ok payload, kx')
               /\ status k = KeyExchange_EXCHANGE2.
Proof.
  rewrite Run_eq. destruct (status kx) eqn:Hst.
  - rewrite Run_INIT_eq.
    destruct (derivePassword kx) as [[[]|e|p] k1] eqn:Hstep; try discriminate.
    intros Hafter.
    apply after_step_Ok in Hafter as (bytes & c & _ & Hlog & _ & Hnext).
    apply derivePassword_inv in Hstep as [Hch _].
    apply derive_changed_frame in Hch as (Hl & _).
    apply Run_EXCHANGE1_Ok_inv in Hnext as [_ Hk].
    split; [right; congruence|exact Hk].
  - intros Hrun. apply Run_EXCHANGE1_Ok_inv in Hrun as [Hlog Hk].
    split; [right; exact Hlog|exact Hk].
  - intros Hrun. split; [left; reflexivity|]. exists kx. auto.
  - discriminate.
Qed.

(** X14.  [Run] needs a logger.  From status INIT or EXCHANGE1 with [Log]
    nil (as [UnmarshalKeyExchange] leaves it), [Run] never returns a
    payload; and when the step of the stored status completes its
    transition, [Run] panics at the logging call, leaving the struct in the
    new status with the transition persisted. *)
Theorem Run_needs_Log (kx : KeyExchange) :
  Log kx = false ->
  status kx = KeyExchange_INIT \/ status kx = KeyExchange_EXCHANGE1 ->
  (forall payload, fst (Run kx) <> Ok payload)
  /\ (forall m, transition kx m ->
                Run kx = (Panic (runtime_error "kx.Log"), m)).
Proof.
  intros Hlog Hst. split.
  - intros payload Hrun.
    destruct (Run kx) as [o kx'] eqn:HRun. cbn [fst] in Hrun. subst o.
    apply Run_Ok_inv in HRun as [[H2|Hl] _]; [|congruence].
    destruct Hst; congruence.
  - intros m Htr. rewrite Run_eq.
    inversion Htr as [k k1 bytes Hs Hstep Hm | k k1 bytes Hs Hstep Hm]; subst.
    + rewrite Hs, Run_INIT_eq, Hstep. unfold after_step. rewrite Hm.
      cbv zeta. record_simpl.
      apply derivePassword_inv in Hstep as [Hch _].
      apply derive_changed_frame in Hch as (Hl & _).
      rewrite Hl, Hlog. reflexivity.
    + rewrite Hs, Run_EXCHANGE1_eq, Hstep. unfold after_step. rewrite Hm.
      cbv zeta. record_simpl.
      apply exchange1_inv in Hstep as [Hch _].
      apply exchange1_changed_frame in Hch as (Hl & _).
      rewrite Hl, Hlog. reflexivity.
Qed.

(** X15.  The status only moves forward.  Whatever the outcome of [Run],
    the status it leaves is the one it found or a later one; a payload is
    only returned in status EXCHANGE2; and on a status that is none of the
    three, [Run] panics without touching the struct. *)
Theorem Run_status_forward (kx : KeyExchange) :
  status_rank (status kx) <= status_rank (status (snd (Run kx)))
  /\ (forall payload, fst (Run kx) = Ok payload ->
                      status (snd (Run kx)) = KeyExchange_EXCHANGE2)
  /\ (forall v, status kx = panda_proto.KeyExchange_Status_other v ->
                Run kx = (Panic (panic_string "unknown state"), kx)).
Proof.
  split; [|split].
  - apply (Run_rel (fun a b => status_rank (status a) <= status_rank (status b))).
    + intros k. lia.
    + intros a b c Hab Hbc. lia.
    + intros k _. rewrite derivePassword_status. lia.
    + intros k _. rewrite exchange1_status. lia.
    + intros k _. rewrite exchange2_state. cbn. lia.
    + intros k Hk. record_simpl. rewrite Hk. cbn. lia.
    + intros k Hk. record_simpl. rewrite Hk. cbn. lia.
    + intros k b. cbn. lia.
    + intros k c. cbn. lia.
  - intros payload Hrun.
    destruct (Run kx) as [o kx'] eqn:HRun. cbn [fst snd] in *. subst o.
    apply Run_Ok_inv in HRun as [_ (k & Hk & Hs)].
    pose proof (exchange2_state k) as Hstate. rewrite Hk in Hstate.
    cbn [snd] in Hstate. subst kx'. exact Hs.
  - intros v Hv. rewrite Run_eq, Hv. reflexivity.
Qed.

Lemma inputs_kept_refl k : inputs_kept k k.
Proof. unfold inputs_kept. auto 10. Qed.

Lemma inputs_kept_trans a b c :
  inputs_kept a b -> inputs_kept b c -> inputs_kept a c.
Proof.
  unfold inputs_kept.
  intros (H1 & H2 & H3 & H4 & H5 & H6 & H7 & H8)
         (G1 & G2 & G3 & G4 & G5 & G6 & G7 & G8).
  repeat split; congruence.
Qed.

(** X16.  What [Run] never assigns: the payload, the shared secret, the
    DH key pair, the caller's [Log] and [Testing] settings, and the size and
    behaviour of the meeting place are the same after [Run] as before,
    whatever its outcome. *)
Theorem Run_keeps_inputs (kx : KeyExchange) : inputs_kept kx (snd (Run kx)).
Proof.
  apply Run_rel.
  - apply inputs_kept_refl.
  - apply inputs_kept_trans.
  - intros k _. destruct (derivePassword k) as [o k1] eqn:Hstep.
    apply derivePassword_inv in Hstep as [Hch _].
    apply derive_changed_frame in Hch
      as (Hl & Ht & _ & _ & Hmp & Hss & _ & Hb & Hpub & Hpriv & _).
    unfold inputs_kept. cbn [snd]. rewrite Hmp. auto 10.
  - intros k _. destruct (exchange1 k) as [o k1] eqn:Hstep.
    apply exchange1_inv in Hstep as [Hch _].
    apply exchange1_changed_frame in Hch
      as (Hl & Ht & _ & _ & Hp & Hsc & _ & Hss & _ & Hb & _ & _ & _ & Hpub
          & Hpriv & _).
    unfold inputs_kept. cbn [snd]. auto 10.
  - intros k _. rewrite exchange2_state. unfold inputs_kept. record_simpl.
    auto 10.
  - intros k _. unfold inputs_kept. record_simpl. auto 10.
  - intros k _. unfold inputs_kept. record_simpl. auto 10.
  - intros k b. unfold inputs_kept. record_simpl. auto 10.
  - intros k c. unfold inputs_kept. record_simpl. auto 10.
Qed.

(** The calls of [exchange2] and of the bookkeeping around it. *)
Lemma exchange2_calls k :
  new_calls k (snd (exchange2 k)) [(meeting2 k, message2 k)]
  /\ planned_calls (snd (exchange2 k)) = planned_calls k.
Proof.
  rewrite exchange2_state. split; reflexivity.
Qed.

Lemma after_step_EXCHANGE2_calls k1 :
  let kx' := snd (after_step KeyExchange_EXCHANGE2 Run_EXCHANGE2 k1) in
  (new_calls k1 kx' [] \/ new_calls k1 kx' [(meeting2 k1, message2 k1)])
  /\ planned_calls kx' = planned_calls k1.
Proof.
  unfold after_step, new_calls.
  destruct (proto_Marshal_KeyExchange _) as [bytes|e];
    [|cbn [snd]; record_simpl; rewrite app_nil_r; auto].
  cbv zeta. record_simpl.
  destruct (Log k1); [|cbn [snd]; record_simpl; rewrite app_nil_r; auto].
  destruct (try_recv (ShutdownChan k1)) as [[] c];
    [cbn [snd]; record_simpl; rewrite app_nil_r; auto|].
  unfold Run_EXCHANGE2. rewrite exchange2_state. record_simpl.
  split; [right; reflexivity|reflexivity].
Qed.

Lemma Run_EXCHANGE1_calls kx :
  let kx' := snd (Run_EXCHANGE1 kx) in
  (new_calls kx kx' [(meeting1 kx, message1 kx)]
   \/ new_calls kx kx' [(meeting1 kx, message1 kx); (meeting2 kx, message2 kx')])
  /\ meeting1 kx' = meeting1 kx /\ message1 kx' = message1 kx
  /\ meeting2 kx' = meeting2 kx.
Proof.
  rewrite Run_EXCHANGE1_eq.
  destruct (exchange1 kx) as [o k1] eqn:Hstep.
  apply exchange1_inv in Hstep as [Hch _].
  apply exchange1_changed_frame in Hch
    as (_ & _ & _ & _ & _ & _ & Hcalls & _ & _ & _ & _ & Hm1 & Hm2 & _ & _
        & Hmsg1 & _).
  assert (Hstop :
    (new_calls kx k1 [(meeting1 kx, message1 kx)]
     \/ new_calls kx k1 [(meeting1 kx, message1 kx); (meeting2 kx, message2 k1)])
    /\ meeting1 k1 = meeting1 kx /\ message1 k1 = message1 kx
    /\ meeting2 k1 = meeting2 kx)
    by (split; [left; exact Hcalls|auto]).
  destruct o as [[]|e|p]; cbn [snd]; try exact Hstop.
  destruct (after_step_EXCHANGE2_calls k1) as [Hnew Hplan].
  cbv zeta in Hnew, Hplan.
  set (kx' := snd (after_step KeyExchange_EXCHANGE2 Run_EXCHANGE2 k1)) in *.
  unfold planned_calls in Hplan. injection Hplan as Hp1 Hp2 Hp3 Hp4.
  unfold new_calls in *.
  split; [|split; [congruence|split; congruence]].
  destruct Hnew as [Hnew|Hnew]; rewrite Hnew, Hcalls.
  - left. rewrite app_nil_r. reflexivity.
  - right. rewrite <- app_assoc. cbn [app]. rewrite Hp4, Hm2. reflexivity.
Qed.

(** No call was made: the new calls are none. *)
Ltac no_new_calls Hmp :=
  exists []; unfold new_calls; cbn [snd]; record_simpl;
  rewrite Hmp, app_nil_r;
  split; [reflexivity|]; split; [intros _; apply prefix_nil|];
  repeat split; intros; discriminate.

(** X17.  The calls of the meeting place one [Run] makes.  From status
    EXCHANGE2: exactly one, under the second tag with the second message.
    From status EXCHANGE1: the first tag with the first message, then
    possibly the second tag with the second message, and nothing else.
    From status INIT: at most these two, in this order, with the tags and
    messages the struct holds afterwards.  On any other status: none. *)
Theorem Run_calls (kx : KeyExchange) :
  let kx' := snd (Run kx) in
  exists new,
    new_calls kx kx' new
    /\ (status kx = KeyExchange_INIT -> new `prefix_of` planned_calls kx')
    /\ (status kx = KeyExchange_EXCHANGE1 ->
        new = [(meeting1 kx, message1 kx)]
        \/ new = [(meeting1 kx, message1 kx); (meeting2 kx, message2 kx')])
    /\ (status kx = KeyExchange_EXCHANGE2 -> new = [(meeting2 kx, message2 kx)])
    /\ (forall v, status kx = panda_proto.KeyExchange_Status_other v -> new = []).
Proof.
  cbv zeta. rewrite Run_eq. destruct (status kx) eqn:Hst.
  - rewrite Run_INIT_eq.
    destruct (derivePassword kx) as [o k1] eqn:Hstep.
    apply derivePassword_inv in Hstep as [Hch _].
    apply derive_changed_frame in Hch as (_ & _ & _ & _ & Hmp & _).
    assert (Hnone : exists new,
      new_calls kx k1 new
      /\ (KeyExchange_INIT = KeyExchange_INIT -> new `prefix_of` planned_calls k1)
      /\ (KeyExchange_INIT = KeyExchange_EXCHANGE1 ->
          new = [(meeting1 kx, message1 kx)]
          \/ new = [(meeting1 kx, message1 kx); (meeting2 kx, message2 k1)])
      /\ (KeyExchange_INIT = KeyExchange_EXCHANGE2 ->
          new = [(meeting2 kx, message2 kx)])
      /\ (forall v, KeyExchange_INIT = panda_proto.KeyExchange_Status_other v ->
                    new = [])).
    { no_new_calls Hmp. }
    destruct o as [[]|e|p]; cbn [snd]; try exact Hnone. clear Hnone.
    unfold after_step.
    destruct (proto_Marshal_KeyExchange _) as [bytes|e].
    2:{ no_new_calls Hmp. }
    cbv zeta. record_simpl. destruct (Log k1).
    2:{ no_new_calls Hmp. }
    destruct (try_recv (ShutdownChan k1)) as [[] c].
    { no_new_calls Hmp. }
    match goal with
    | |- context [Run_EXCHANGE1 ?k] =>
        destruct (Run_EXCHANGE1_calls k) as (Hnew & H1 & Hg1 & H2);
        cbv zeta in Hnew, H1, Hg1, H2;
        set (kx' := snd (Run_EXCHANGE1 k)) in *
    end.
    record_simpl_in Hnew. record_simpl_in H1. record_simpl_in Hg1.
    record_simpl_in H2. unfold new_calls in *. record_simpl_in Hnew.
    rewrite Hmp in Hnew.
    destruct Hnew as [Hnew|Hnew]; eexists; (split; [exact Hnew|]);
      (split; [|repeat split; intros; discriminate]); intros _;
      unfold planned_calls; rewrite H1, Hg1, H2.
    + exists [(meeting2 k1, message2 kx')]. reflexivity.
    + exists []. rewrite app_nil_r. reflexivity.
  - destruct (Run_EXCHANGE1_calls kx) as (Hnew & _).
    cbv zeta in Hnew.
    destruct Hnew as [Hnew|Hnew]; eexists; (split; [exact Hnew|]);
      repeat split; intros; try discriminate; auto.
  - destruct (exchange2_calls kx) as [Hnew _].
    eexists. split; [exact Hnew|].
    repeat split; intros; try discriminate; auto.
  - exists []. unfold new_calls. cbn [snd]. rewrite app_nil_r.
    split; [reflexivity|]. repeat split; intros; try discriminate; auto.
Qed.

(** X18.  The last step has no effect on the struct.  From status
    EXCHANGE2, whatever its outcome, [Run] changes nothing but the meeting
    place's record of calls: status and serialised form stay, and a second
    [Run] sends the same tag and the same message again. *)
Theorem Run_EXCHANGE2_retry (kx : KeyExchange) :
  status kx = KeyExchange_EXCHANGE2 ->
  let kx' := snd (Run kx) in
  kx' = after_call kx (meeting2 kx) (message2 kx)
  /\ Marshal kx' = Marshal kx
  /\ status kx' = KeyExchange_EXCHANGE2
  /\ calls (meetingPlace (snd (Run kx')))
     = calls (meetingPlace kx)
       ++ [(meeting2 kx, message2 kx); (meeting2 kx, message2 kx)].
Proof.
  intros Hst. cbv zeta.
  assert (Hstate : snd (Run kx) = after_call kx (meeting2 kx) (message2 kx))
    by (rewrite Run_eq, Hst; apply exchange2_state).
  rewrite Hstate. split; [reflexivity|]. split; [reflexivity|].
  split; [exact Hst|].
  rewrite Run_eq. record_simpl. rewrite Hst, exchange2_state. record_simpl.
  rewrite <- app_assoc. reflexivity.
Qed.

(** X19.  A payload is only returned for an authenticated reply.  When
    [Run] returns a payload, the struct is in status EXCHANGE2, its shared
    key does not begin with two zero bytes, and the reply of the meeting
    place to the last call, of at least 24 bytes, opened under that shared
    key with the reply's first 24 bytes as nonce; the payload is the part of
    the opened block behind the four-byte length, cut to the length the
    block declares. *)
Theorem Run_Ok_authenticated (kx : KeyExchange) (payload : list byte)
  (kx' : KeyExchange) :
  Run kx = (Ok payload, kx') ->
  status kx' = KeyExchange_EXCHANGE2
  /\ zero_prefixed (sharedKey kx') = false
  /\ exists k reply message,
       kx' = after_call k (meeting2 kx') (message2 kx')
       /\ mp_reply k (meeting2 kx') (message2 kx') = Val reply
       /\ 24 <= len reply
       /\ secretbox_Open (drop 24 reply) (copy (zeros 24) reply) (sharedKey kx')
          = Some message
       /\ 4 <= len message
       /\ payload = take (Z.to_nat (Uint32 message)) (drop 4 message)
       /\ len payload = Uint32 message.
Proof.
  intros Hrun. apply Run_Ok_inv in Hrun as [_ (k & Hk & Hs)].
  apply exchange2_inv in Hk as [-> Hends]. record_simpl.
  split; [exact Hs|].
  inversion Hends as [| | | | | | reply message Hreply Hlen Hzero Hopen Hm Hfits];
    subst.
  split; [exact Hzero|]. exists k, reply, message.
  repeat split; try assumption.
  unfold len. rewrite length_take, length_drop.
  assert (Hu : uint32 (len (drop 4 message)) <= len (drop 4 message)).
  { unfold uint32. apply Z.mod_le; [apply len_nonneg|lia]. }
  pose proof (Uint32_nonneg message).
  unfold len in *. rewrite length_drop in *. lia.
Qed.

End run_more.

(** The theorem applies: a reloaded exchange whose status is none of the
    three. *)
Lemma Run_status_forward_witness :
  Run (E := doubles.externals)
    (set_status (panda_proto.KeyExchange_Status_other 7) fixtures.carol_EXCHANGE2)
  = (Panic (panic_string "unknown state"),
     set_status (panda_proto.KeyExchange_Status_other 7) fixtures.carol_EXCHANGE2).
Proof.
  apply (Run_status_forward (E := doubles.externals)
           (set_status (panda_proto.KeyExchange_Status_other 7)
              fixtures.carol_EXCHANGE2)) with (v := 7).
  reflexivity.
Defined.

(** The theorems apply, on the party with a small DH scalar. *)
Lemma Run_needs_Log_witness :
  fst (Run (E := doubles.externals) (set_Log false fixtures.carol_EXCHANGE1))
  = Panic (runtime_error "kx.Log").
Proof.
  destruct (Run_needs_Log (E := doubles.externals)
              (set_Log false fixtures.carol_EXCHANGE1)) as [_ Hpanic].
  - reflexivity.
  - right. reflexivity.
  - pose (k1 := snd (exchange1 (E := doubles.externals)
                       (set_Log false fixtures.carol_EXCHANGE1))).
    rewrite (Hpanic
               (set_serialised
                  (doubles.enc_KeyExchange
                     (snapshot (E := doubles.externals)
                        (set_status KeyExchange_EXCHANGE2 k1)))
                  (set_status KeyExchange_EXCHANGE2 k1))); [reflexivity|].
    apply transition_EXCHANGE1;
      [reflexivity | vm_compute; reflexivity | reflexivity].
Defined.

Lemma Run_EXCHANGE2_retry_witness :
  Marshal (snd (Run (E := doubles.externals) fixtures.carol_EXCHANGE2))
  = Marshal fixtures.carol_EXCHANGE2.
Proof.
  destruct (Run_EXCHANGE2_retry (E := doubles.externals) fixtures.carol_EXCHANGE2)
    as (_ & Hm & _).
  - reflexivity.
  - exact Hm.
Defined.

Lemma Run_Ok_authenticated_witness :
  zero_prefixed
    (sharedKey (snd (Run (E := doubles.externals) fixtures.carol_EXCHANGE2)))
  = false.
Proof.
  destruct (Run_Ok_authenticated (E := doubles.externals)
              fixtures.carol_EXCHANGE2 (bytes_of "from dave")
              (snd (Run (E := doubles.externals) fixtures.carol_EXCHANGE2)))
    as (_ & Hz & _).
  - vm_compute. reflexivity.
  - exact Hz.
Defined.

(** ** The protocol between two parties *)

(** *** The stand-ins obey the laws of the libraries they stand for *)

Lemma lxor_byte_bound (x y : N) :
  (x < 256)%N -> (y < 256)%N -> (N.lxor x y < 256)%N.
Proof.
  intros Hx Hy.
  destruct (N.eq_dec (N.lxor x y) 0%N) as [Hz|Hnz]; [rewrite Hz; lia|].
  change 256%N with (2 ^ 8)%N in *.
  apply N.log2_lt_pow2; [lia|].
  pose proof (N.log2_lxor x y) as Hlog.
  assert (Hlx : (N.log2 x < 8)%N).
  { destruct (N.eq_dec x 0%N) as [->|Hx0]; [reflexivity|].
    apply N.log2_lt_pow2; [lia|exact Hx]. }
  assert (Hly : (N.log2 y < 8)%N).
  { destruct (N.eq_dec y 0%N) as [->|Hy0]; [reflexivity|].
    apply N.log2_lt_pow2; [lia|exact Hy]. }
  lia.
Qed.

Lemma to_N_lt_256 (b : byte) : (Byte.to_N b < 256)%N.
Proof. pose proof (Byte.to_N_bounded b). lia. Qed.

Lemma xor_byte_involutive (a b : byte) :
  doubles.xor_byte (doubles.xor_byte a b) b = a.
Proof.
  unfold doubles.xor_byte.
  rewrite to_N_byte_of_N by (apply lxor_byte_bound; apply to_N_lt_256).
  rewrite N.lxor_assoc, N.lxor_nilpotent, N.lxor_0_r.
  apply byte_of_N_to_N.
Qed.

Lemma xor_block_involutive (k x : list byte) :
  (length x <= length k)%nat ->
  doubles.xor_block k (doubles.xor_block k x) = x.
Proof.
  unfold doubles.xor_block. revert k.
  induction x as [|a x IH]; intros [|b k] Hlen; cbn [length] in Hlen;
    try reflexivity; try lia.
  cbn [zip_with]. rewrite xor_byte_involutive, IH by lia. reflexivity.
Qed.

Lemma length_xor_block (k x : list byte) :
  (length x <= length k)%nat -> length (doubles.xor_block k x) = length x.
Proof.
  intros Hlen. unfold doubles.xor_block. rewrite length_zip_with. lia.
Qed.

(** The block cipher decrypts what it encrypted. *)
Lemma doubles_cipher_round_trip (k x : list byte) :
  length k = 32%nat -> length x = 32%nat ->
  doubles.xor_block k (array32 (doubles.xor_block k x)) = x.
Proof.
  intros Hk Hx. unfold array32.
  rewrite copy_exact by (rewrite length_zeros, length_xor_block; lia).
  apply xor_block_involutive. lia.
Qed.

Lemma stream_involutive (k n m : list byte) :
  doubles.stream k n (doubles.stream k n m) = m.
Proof.
  unfold doubles.stream. cbv zeta. apply list_eq. intros i.
  rewrite !list_lookup_imap. destruct (m !! i) as [b|]; [|reflexivity].
  cbn. rewrite xor_byte_involutive. reflexivity.
Qed.

(** The box opens with the nonce and key it was sealed with. *)
Lemma doubles_box_opens (m n k : list byte) :
  doubles.Open (doubles.Seal m n k) n k = Some m.
Proof.
  unfold doubles.Open, doubles.Seal. cbv zeta.
  assert (Htag : forall ct, length (doubles.tag k n ct) = 16%nat).
  { intros ct. unfold doubles.tag. rewrite length_take, length_Sum256. lia. }
  rewrite length_app, Htag.
  replace (16 + length (doubles.stream k n m) <? 16)%nat with false
    by (symmetry; apply Nat.ltb_ge; lia).
  rewrite drop_app_length' by (symmetry; apply Htag).
  rewrite take_app_length' by (symmetry; apply Htag).
  rewrite (proj2 (bytes_eqb_eq _ _) eq_refl).
  rewrite stream_involutive. reflexivity.
Qed.

(** The little-endian encoding of a number and its value. *)
Lemma le_N_N_le_from (n s : nat) (v : N) :
  doubles.le_N (map (fun i => byte_of_N (N.shiftr v (8 * N.of_nat i))) (seq s n))
  = (N.shiftr v (8 * N.of_nat s) mod 2 ^ (8 * N.of_nat n))%N.
Proof.
  revert s. induction n as [|n IH]; intros s.
  - cbn. rewrite N.mod_1_r. reflexivity.
  - cbn [seq map doubles.le_N foldr]. fold (doubles.le_N).
    change (foldr (fun b acc => (Byte.to_N b + 256 * acc)%N) 0%N
              (map (fun i => byte_of_N (N.shiftr v (8 * N.of_nat i))) (seq (S s) n)))
      with (doubles.le_N
              (map (fun i => byte_of_N (N.shiftr v (8 * N.of_nat i))) (seq (S s) n))).
    rewrite IH.
    set (w := N.shiftr v (8 * N.of_nat s)).
    assert (Hbyte : Byte.to_N (byte_of_N w) = (w mod 256)%N).
    { unfold byte_of_N.
      destruct (Byte.of_N (w mod 256)) as [b|] eqn:Hb.
      - apply Byte.to_of_N in Hb. exact Hb.
      - exfalso. apply Byte.of_N_None_iff in Hb.
        pose proof (N.mod_upper_bound w 256). lia. }
    rewrite Hbyte.
    replace (N.shiftr v (8 * N.of_nat (S s))) with (w / 256)%N.
    2:{ subst w. rewrite !N.shiftr_div_pow2.
        replace (8 * N.of_nat (S s))%N with (8 * N.of_nat s + 8)%N by lia.
        rewrite N.pow_add_r, <- N.Div0.div_div. reflexivity. }
    replace (2 ^ (8 * N.of_nat (S n)))%N with (256 * 2 ^ (8 * N.of_nat n))%N.
    2:{ replace (8 * N.of_nat (S n))%N with (8 + 8 * N.of_nat n)%N by lia.
        rewrite N.pow_add_r. reflexivity. }
    rewrite N.Div0.mod_mul_r. reflexivity.
Qed.

Lemma le_N_N_le (v : N) :
  (v < 2 ^ 256)%N -> doubles.le_N (doubles.N_le 32 v) = v.
Proof.
  intros Hv. unfold doubles.N_le. rewrite le_N_N_le_from.
  rewrite N.shiftr_0_r. apply N.mod_small. exact Hv.
Qed.

Lemma length_N_le (n : nat) (v : N) : length (doubles.N_le n v) = n.
Proof. unfold doubles.N_le. rewrite length_map, length_seq. reflexivity. Qed.

Lemma pow_mod_spec (b : N) (e : positive) :
  doubles.pow_mod b e = (b ^ Npos e mod doubles.dh_modulus)%N.
Proof.
  induction e as [e IH|e IH|]; cbn [doubles.pow_mod].
  - cbv zeta. rewrite IH.
    replace (N.pos e~1) with (N.pos e + N.pos e + 1)%N by lia.
    rewrite !N.pow_add_r, N.pow_1_r.
    rewrite <- N.Div0.mul_mod. rewrite N.Div0.mul_mod_idemp_l. reflexivity.
  - cbv zeta. rewrite IH.
    replace (N.pos e~0) with (N.pos e + N.pos e)%N by lia.
    rewrite N.pow_add_r. rewrite <- N.Div0.mul_mod. reflexivity.
  - rewrite N.pow_1_r. reflexivity.
Qed.

(** The group operation of the stand-in: a power modulo the prime. *)
Lemma dh_spec (scalar point : list byte) :
  doubles.dh scalar point
  = doubles.N_le 32
      (doubles.le_N point ^ doubles.le_N scalar mod doubles.dh_modulus)%N.
Proof.
  unfold doubles.dh. destruct (doubles.le_N scalar) as [|e].
  - rewrite N.pow_0_r. reflexivity.
  - rewrite pow_mod_spec. reflexivity.
Qed.

Lemma pow_mod_idemp (a e n : N) :
  ((a mod n) ^ e mod n = a ^ e mod n)%N.
Proof.
  induction e as [|e IH] using N.peano_ind.
  - rewrite !N.pow_0_r. reflexivity.
  - rewrite !N.pow_succ_r'.
    rewrite N.Div0.mul_mod, IH, N.Div0.mod_mod, <- N.Div0.mul_mod.
    reflexivity.
Qed.

Lemma dh_modulus_small (v : N) :
  (v mod doubles.dh_modulus < 2 ^ 256)%N.
Proof.
  pose proof (N.mod_upper_bound v doubles.dh_modulus) as Hlt.
  assert (Hne : doubles.dh_modulus <> 0%N) by discriminate.
  specialize (Hlt Hne).
  assert (Hp : (doubles.dh_modulus < 2 ^ 256)%N) by reflexivity.
  lia.
Qed.

(** Diffie-Hellman commutes. *)
Lemma doubles_dh_commutes (x y : list byte) :
  doubles.dh x (array32 (doubles.dh_base y))
  = doubles.dh y (array32 (doubles.dh_base x)).
Proof.
  unfold doubles.dh_base, array32.
  rewrite !(dh_spec _ (doubles.N_le 32 2)).
  rewrite !copy_exact by (rewrite length_zeros, length_N_le; reflexivity).
  rewrite !dh_spec. f_equal.
  assert (H2 : doubles.le_N (doubles.N_le 32 2) = 2%N)
    by (apply le_N_N_le; reflexivity).
  rewrite !H2.
  rewrite !le_N_N_le by apply dh_modulus_small.
  rewrite !pow_mod_idemp, <- !N.pow_mul_r. f_equal. f_equal. apply N.mul_comm.
Qed.

(** *** Key derivation *)

Section protocol.
Context {E : Externals}.

Ltac red_both :=
  repeat (progress (cbv beta iota zeta; record_simpl; cbn [fst snd])).

(** The key derivation reads the testing flag and the shared secret,
    writes the key and the two meeting tags, and touches nothing else. *)
Lemma deriveKeys_with_others (ser : list byte) (o kx : KeyExchange) :
  deriveKeys ser (with_others o kx)
  = (fst (deriveKeys ser kx), with_others o (snd (deriveKeys ser kx))).
Proof.
  unfold deriveKeys, with_others.
  cbv [bind get modify ret fail lift call panic of_result].
  red_both.
  destruct (Testing kx || isStrongRandom (sharedSecret kx)).
  - destruct (hkdf_Read ser hkdf_info 0 32) as [k|e]; [|reflexivity].
    red_both.
    destruct (hkdf_Read ser hkdf_info 32 32) as [m1|e]; [|reflexivity].
    red_both.
    destruct (hkdf_Read ser hkdf_info 64 32) as [m2|e]; reflexivity.
  - destruct (String.eqb runtime_GOARCH "386" && String.eqb runtime_GOOS "linux").
    + destruct (scrypt_subprocess _) as [out|e]; [|reflexivity].
      red_both.
      destruct (negb (len out =? 32 * 3)); [reflexivity|].
      red_both.
      destruct (slice_from "data[32:]" out 32) as [d32|e|p];
        [|reflexivity|reflexivity].
      red_both.
      destruct (slice_from "data[64:]" out 64) as [d64|e|p]; reflexivity.
    + destruct (scrypt_Key _ _ _ _ _ _) as [out|e]; [|reflexivity].
      red_both.
      destruct (slice_from "data[32:]" out 32) as [d32|e|p];
        [|reflexivity|reflexivity].
      red_both.
      destruct (slice_from "data[64:]" out 64) as [d64|e|p]; reflexivity.
Qed.

(** What [derivePassword] does behind the key derivation leaves the key
    and the meeting tags alone. *)
Lemma derivePassword_keys (kx : KeyExchange) (ser : list byte) :
  proto_Marshal_SharedSecret (toProto (sharedSecret kx)) = Val ser ->
  key (snd (derivePassword kx)) = key (snd (deriveKeys ser kx))
  /\ meeting1 (snd (derivePassword kx)) = meeting1 (snd (deriveKeys ser kx))
  /\ meeting2 (snd (derivePassword kx)) = meeting2 (snd (deriveKeys ser kx)).
Proof.
  intros Hser. unfold derivePassword.
  cbv [bind get modify ret fail lift call panic of_result ReadFull_rand].
  rewrite Hser.
  destruct (deriveKeys ser kx) as [[[]|e|p] k1]; cbn [fst snd];
    try (repeat split; reflexivity).
  red_both.
  destruct (Padding (meetingPlace k1) <? _); [repeat split; reflexivity|].
  destruct (make _ _) as [m|e|p]; try (repeat split; reflexivity).
  red_both.
  destruct (io_ReadFull _ _) as [[got err] r]. red_both.
  destruct err; repeat split; reflexivity.
Qed.

Lemma derivePassword_Marshal_secret (kx kx' : KeyExchange) :
  derivePassword kx = (Ok tt, kx') ->
  exists ser, proto_Marshal_SharedSecret (toProto (sharedSecret kx)) = Val ser.
Proof.
  unfold derivePassword.
  cbv [bind get call lift of_result].
  destruct (proto_Marshal_SharedSecret _) as [ser|e]; [eauto|discriminate].
Qed.

(** X20.  Both parties derive the same keys.  Two exchanges constructed
    with the same shared secret, whatever their random sources, meeting
    places and payloads, and given the same testing flag, leave
    [derivePassword] (when it succeeds on both) with the same key and the
    same two meeting tags. *)
Theorem derived_keys_agree (rand1 rand2 : Reader) (mp1 mp2 : MeetingPlace)
  (secret : SharedSecret) (payload1 payload2 : list byte) (testing : bool)
  (a b a' b' : KeyExchange) :
  NewKeyExchange rand1 mp1 secret payload1 = Ok a ->
  NewKeyExchange rand2 mp2 secret payload2 = Ok b ->
  derivePassword (set_Testing testing a) = (Ok tt, a') ->
  derivePassword (set_Testing testing b) = (Ok tt, b') ->
  key a' = key b' /\ meeting1 a' = meeting1 b' /\ meeting2 a' = meeting2 b'.
Proof.
  intros Ha Hb Hda Hdb.
  apply NewKeyExchange_Ok_inv in Ha as (_ & _ & bytes1 & _ & ->).
  apply NewKeyExchange_Ok_inv in Hb as (_ & _ & bytes2 & _ & ->).
  destruct (derivePassword_Marshal_secret _ _ Hda) as [ser Hser].
  record_simpl_in Hser.
  match type of Hda with derivePassword ?A = _ => set (A0 := A) in * end.
  match type of Hdb with derivePassword ?B = _ => set (B0 := B) in * end.
  destruct (derivePassword_keys A0 ser Hser) as (Hk & Hm1 & Hm2).
  destruct (derivePassword_keys B0 ser Hser) as (Gk & Gm1 & Gm2).
  rewrite Hda in Hk, Hm1, Hm2. rewrite Hdb in Gk, Gm1, Gm2.
  cbn [snd] in *.
  assert (HB : B0 = with_others B0 A0) by reflexivity.
  rewrite HB, deriveKeys_with_others in Gk, Gm1, Gm2.
  cbn [snd] in Gk, Gm1, Gm2. unfold with_others in Gk, Gm1, Gm2.
  record_simpl_in Gk. record_simpl_in Gm1. record_simpl_in Gm2.
  repeat split; congruence.
Qed.

Lemma arrays_ok_lengths (kx kx' : KeyExchange) :
  arrays_ok kx ->
  length (key kx') = length (key kx) ->
  length (meeting1 kx') = length (meeting1 kx) ->
  length (meeting2 kx') = length (meeting2 kx) ->
  dhPublic kx' = dhPublic kx -> dhPrivate kx' = dhPrivate kx ->
  sharedKey kx' = sharedKey kx ->
  arrays_ok kx'.
Proof.
  unfold arrays_ok. intros (H1 & H2 & H3 & H4 & H5 & H6) G1 G2 G3 G4 G5 G6.
  rewrite G1, G2, G3, G4, G5, G6. auto 10.
Qed.

(** X21.  After construction and a successful [derivePassword] a party
    is ready for the first exchange: its arrays have their sizes, its
    payload fits the meeting place, its DH public value belongs to its
    private key, and its first message is the encrypted DH public value
    followed by filler, [Padding()] bytes in all.  The status is still INIT
    (it is [Run] that advances it) and the random source has given the 32
    bytes of the private key and the filler. *)
Theorem derivePassword_ready (rand_ : Reader) (mp : MeetingPlace)
  (secret : SharedSecret) (payload : list byte) (testing : bool)
  (kx kx' : KeyExchange) :
  NewKeyExchange rand_ mp secret payload = Ok kx ->
  derivePassword (set_Testing testing kx) = (Ok tt, kx') ->
  ready kx'
  /\ status kx' = KeyExchange_INIT
  /\ kxBytes kx' = payload
  /\ rand kx' = drop (Z.to_nat (Padding mp) - 32) (drop 32 rand_).
Proof.
  intros Hnew Hd.
  pose proof (NewKeyExchange_fits _ _ _ _ _ Hnew) as Hfits.
  apply NewKeyExchange_Ok_inv in Hnew as (Hlen & _ & bytes & _ & Hkx).
  assert (Harr : arrays_ok kx).
  { subst kx. unfold arrays_ok. record_simpl.
    rewrite !length_zeros, length_array32, length_take.
    repeat split; try reflexivity. lia. }
  assert (Hpub0 : dhPublic kx = array32 (curve25519_ScalarBaseMult (dhPrivate kx)))
    by (subst kx; reflexivity).
  assert (Hst0 : status kx = KeyExchange_INIT) by (subst kx; reflexivity).
  assert (Hb0 : kxBytes kx = payload) by (subst kx; reflexivity).
  assert (Hr0 : rand kx = drop 32 rand_) by (subst kx; reflexivity).
  assert (Hmp0 : meetingPlace kx = mp) by (subst kx; reflexivity).
  clear Hkx.
  apply derivePassword_inv in Hd as [Hch Hends].
  apply derive_changed_frame in Hch
    as (_ & _ & _ & Hst & Hmp & _ & _ & Hb & Hpub & Hpriv & Hsk & _ & Hlk
        & Hl1 & Hl2).
  record_simpl_in Hst. record_simpl_in Hmp. record_simpl_in Hb.
  record_simpl_in Hpub. record_simpl_in Hpriv. record_simpl_in Hsk.
  record_simpl_in Hlk. record_simpl_in Hl1. record_simpl_in Hl2.
  inversion Hends as [Hpad Hmsg Hrand | o Hd Hne | |].
  2:{ exfalso. apply Hne. reflexivity. }
  record_simpl_in Hmsg. record_simpl_in Hrand. record_simpl_in Hpad.
  split; [|split; [congruence|split; [congruence|]]].
  - unfold ready. split; [|split; [|split]].
    + eapply arrays_ok_lengths; eauto.
    + unfold fits in *. rewrite Hb, Hmp. exact Hfits.
    + rewrite Hpub, Hpriv. exact Hpub0.
    + destruct Hmsg as [Hmsg Hmlen]. unfold wire1. eexists.
      split; [exact Hmsg|exact Hmlen].
  - rewrite Hrand, Hr0, Hmp0. reflexivity.
Qed.

End protocol.

(** *** The two exchanges *)

Lemma Z_of_byte_of_Z (x : Z) : Z_of_byte (byte_of_Z x) = x mod 2 ^ 8.
Proof.
  unfold Z_of_byte, byte_of_Z. change (2 ^ 8) with 256.
  pose proof (Z.mod_pos_bound x 256 ltac:(lia)) as Hx.
  rewrite to_N_byte_of_N by lia. rewrite Z2N.id by lia. reflexivity.
Qed.

Lemma testbit_byte_at (x n k : Z) :
  0 <= n -> 0 <= k ->
  Z.testbit (Z.shiftl (Z.shiftr x k mod 2 ^ 8) k) n
  = (k <=? n) && (n <? k + 8) && Z.testbit x n.
Proof.
  intros Hn Hk. rewrite Z.shiftl_spec by lia.
  destruct (Z.leb_spec k n) as [Hle|Hgt]; cbn [andb].
  - destruct (Z.ltb_spec n (k + 8)) as [Hlt|Hge]; cbn [andb].
    + rewrite Z.mod_pow2_bits_low by lia. rewrite Z.shiftr_spec by lia.
      f_equal. lia.
    + rewrite Z.mod_pow2_bits_high by lia. reflexivity.
  - rewrite Z.testbit_neg_r by lia. reflexivity.
Qed.

(** [Uint32] reads what [PutUint32] wrote. *)
Lemma Uint32_le32 (v : Z) (rest : list byte) :
  0 <= v < 2 ^ 32 -> Uint32 (le32 v ++ rest) = v.
Proof.
  intros Hv. unfold Uint32, le32, index. cbn [app nth].
  rewrite !Z_of_byte_of_Z.
  replace (v mod 2 ^ 8) with (Z.shiftl (Z.shiftr v 0 mod 2 ^ 8) 0)
    by (rewrite Z.shiftl_0_r, Z.shiftr_0_r; reflexivity).
  assert (Hhigh : forall n, 32 <= n -> Z.testbit v n = false).
  { intros n Hn. rewrite <- (Z.mod_small v (2 ^ 32)) by lia.
    apply Z.mod_pow2_bits_high. lia. }
  apply Z.bits_inj'. intros n Hn.
  rewrite !Z.lor_spec, !testbit_byte_at by lia.
  destruct (Z.lt_ge_cases n 32) as [Hlow|Hbig].
  - destruct (Z.leb_spec 0 n), (Z.ltb_spec n (0 + 8)), (Z.leb_spec 8 n),
      (Z.ltb_spec n (8 + 8)), (Z.leb_spec 16 n), (Z.ltb_spec n (16 + 8)),
      (Z.leb_spec 24 n), (Z.ltb_spec n (24 + 8)); cbn [andb orb];
      try lia; rewrite ?orb_false_r; reflexivity.
  - rewrite Hhigh by lia. rewrite !andb_false_r. reflexivity.
Qed.

Lemma copy_zeros_front (n : nat) (front rest : list byte) :
  length front = n -> copy (zeros n) (front ++ rest) = front.
Proof.
  intros Hn. unfold copy. rewrite length_zeros.
  rewrite take_app_length' by (symmetry; exact Hn).
  unfold zeros. rewrite drop_ge; [apply app_nil_r|].
  rewrite length_replicate, length_app. lia.
Qed.

Section protocol_exchanges.
Context {E : Externals}.

(** The shared key [exchange1] leaves when it succeeds. *)
Lemma exchange1_sharedKey (kx kx' : KeyExchange) (reply : list byte) :
  exchange1 kx = (Ok tt, kx') ->
  mp_reply kx (meeting1 kx) (message1 kx) = Val reply ->
  sharedKey kx' = shared_key_from kx reply.
Proof.
  intros Hstep Hreply. apply exchange1_inv in Hstep as [_ Hends].
  inversion Hends as [| | | | reply0 filler nonce Hr _ _ Hsk _ _ _ _].
  rewrite Hsk. congruence.
Qed.

(** From the first message of a ready peer with the same key, the first
    exchange computes the Diffie-Hellman value of the two key pairs. *)
Lemma shared_key_from_peer (a b : KeyExchange) :
  cipher_round_trip -> ready a -> ready b -> key a = key b ->
  shared_key_from a (message1 b)
  = array32 (curve25519_ScalarMult (dhPrivate a) (dhPublic b)).
Proof.
  intros Hcipher (Harr_a & _) (Harr_b & _ & _ & filler & Hmsg & _) Hkey.
  destruct Harr_a as (Hka & _). destruct Harr_b as (Hkb & _ & _ & Hpb & _).
  unfold shared_key_from. rewrite Hmsg.
  rewrite copy_zeros_front by apply length_array32.
  rewrite Hkey, Hcipher by assumption.
  unfold array32 at 2. rewrite copy_exact by (rewrite length_zeros; exact Hpb).
  reflexivity.
Qed.

(** X22.  The two parties agree on the shared key.  When two ready
    parties with the same derived key are handed each other's first
    message, and the block cipher decrypts what it encrypted and
    Diffie-Hellman commutes, their first exchanges (when both succeed)
    leave the same shared key: the Diffie-Hellman value of one party's
    private key and the other party's public value. *)
Theorem exchange1_shared_keys_agree (a b a' b' : KeyExchange) :
  cipher_round_trip -> dh_commutes ->
  ready a -> ready b -> key a = key b ->
  mp_reply a (meeting1 a) (message1 a) = Val (message1 b) ->
  mp_reply b (meeting1 b) (message1 b) = Val (message1 a) ->
  exchange1 a = (Ok tt, a') ->
  exchange1 b = (Ok tt, b') ->
  sharedKey a' = sharedKey b'
  /\ sharedKey a' = array32 (curve25519_ScalarMult (dhPrivate a) (dhPublic b)).
Proof.
  intros Hcipher Hdh Ha Hb Hkey Hra Hrb Hsa Hsb.
  rewrite (exchange1_sharedKey _ _ _ Hsa Hra), (exchange1_sharedKey _ _ _ Hsb Hrb).
  rewrite (shared_key_from_peer a b), (shared_key_from_peer b a) by auto.
  split; [|reflexivity].
  destruct Ha as ((_ & _ & _ & _ & Hpa & _) & _ & Hpub_a & _).
  destruct Hb as ((_ & _ & _ & _ & Hpb & _) & _ & Hpub_b & _).
  rewrite Hpub_a, Hpub_b. f_equal. apply Hdh; assumption.
Qed.

(** What the second exchange returns for the second message of a peer
    with the same shared key. *)
Lemma exchange2_opens_wire2 (a b : KeyExchange) :
  box_opens ->
  wire2 b (message2 b) ->
  Padding (meetingPlace b) < 2 ^ 32 ->
  sharedKey a = sharedKey b ->
  zero_prefixed (sharedKey a) = false ->
  mp_reply a (meeting2 a) (message2 a) = Val (message2 b) ->
  fst (exchange2 a) = Ok (kxBytes b).
Proof.
  intros Hopens (nonce & filler & Hnonce & Hmsg & Hpad & Hlen) Hsmall Hkey
    Hzero Hreply.
  set (block := padded_block b filler) in *.
  assert (Hblock : block = le32 (uint32 (len (kxBytes b))) ++ kxBytes b ++ filler)
    by reflexivity.
  assert (Hblen : len block = 4 + len (kxBytes b) + len filler).
  { rewrite Hblock. unfold len. rewrite !length_app, length_le32. lia. }
  pose proof (len_nonneg (kxBytes b)) as Hb0.
  pose proof (len_nonneg filler) as Hf0.
  unfold secretbox_Overhead in Hpad.
  assert (Hfront : copy (zeros 24) (message2 b) = nonce)
    by (rewrite Hmsg; apply copy_zeros_front; exact Hnonce).
  assert (Hback : drop 24 (message2 b)
                  = secretbox_Seal block nonce (sharedKey b))
    by (rewrite Hmsg; apply drop_app_length'; symmetry; exact Hnonce).
  assert (Hopen : secretbox_Open (drop 24 (message2 b))
                    (copy (zeros 24) (message2 b)) (sharedKey a) = Some block)
    by (rewrite Hfront, Hback, Hkey; apply Hopens).
  assert (Hlong : 24 <= len (message2 b)).
  { rewrite Hmsg. unfold len. rewrite length_app, Hnonce. lia. }
  assert (Hu : uint32 (len (kxBytes b)) = len (kxBytes b))
    by (unfold uint32; apply Z.mod_small; lia).
  assert (Hprefix : Uint32 block = len (kxBytes b)).
  { rewrite Hblock, Uint32_le32; [exact Hu|]. rewrite Hu. lia. }
  assert (Hrest : drop 4 block = kxBytes b ++ filler)
    by (rewrite Hblock; apply drop_app_length'; symmetry; apply length_le32).
  assert (Hurest : uint32 (len (drop 4 block)) = len (kxBytes b) + len filler).
  { rewrite Hrest. unfold uint32, len. rewrite length_app.
    unfold len in *. rewrite Z.mod_small; lia. }
  destruct (exchange2 a) as [o a'] eqn:Hstep. cbn [fst].
  apply exchange2_inv in Hstep as [_ Hends].
  inversion Hends as [e He | r He Hs | r He Hl Hz | r He Hl Hz Ho
                     | r m He Hl Hz Ho Hm | r m He Hl Hz Ho Hm Ht
                     | r m He Hl Hz Ho Hm Ht];
    rewrite Hreply in He; try discriminate; injection He as <-;
    try lia; try congruence;
    rewrite Hopen in Ho; try discriminate; injection Ho as <-;
    try lia.
  f_equal. rewrite Hprefix, Hrest. unfold len. rewrite Nat2Z.id.
  apply take_app_length.
Qed.

(** X23.  The second exchange returns the peer's payload.  When the
    meeting place hands a party the second message of a peer that is in
    wire format, the two hold the same shared key (not beginning with two
    zero bytes), the peer's message size is below 2^32, and a sealed box
    opens with the nonce and key it was sealed with, [exchange2] returns
    exactly the peer's payload. *)
Theorem exchange2_returns_peer_payload (a b : KeyExchange) :
  box_opens ->
  wire2 b (message2 b) ->
  Padding (meetingPlace b) < 2 ^ 32 ->
  sharedKey a = sharedKey b ->
  zero_prefixed (sharedKey a) = false ->
  mp_reply a (meeting2 a) (message2 a) = Val (message2 b) ->
  exchange2 a = (Ok (kxBytes b), after_call a (meeting2 a) (message2 a)).
Proof.
  intros Hopens Hwire Hsmall Hkey Hzero Hreply.
  pose proof (exchange2_opens_wire2 a b Hopens Hwire Hsmall Hkey Hzero Hreply)
    as Hok.
  pose proof (exchange2_state a) as Hstate.
  destruct (exchange2 a) as [o a']. cbn [fst snd] in *. congruence.
Qed.

(** The first exchange succeeds when the reply is long enough, the payload
    fits and the random source holds the filler and the nonce. *)
Lemma exchange1_succeeds (kx : KeyExchange) (reply : list byte) :
  mp_reply kx (meeting1 kx) (message1 kx) = Val reply ->
  32 <= len reply -> fits kx ->
  (exchange1_needs kx <= length (rand kx))%nat ->
  fst (exchange1 kx) = Ok tt.
Proof.
  intros Hreply Hlong Hfits Hrand.
  enough (Hwp : wp exchange1 (fun o _ => o = Ok tt) kx) by exact Hwp.
  unfold fits, secretbox_Overhead in Hfits. unfold exchange1_needs in Hrand.
  pose proof (len_nonneg (kxBytes kx)) as Hb0.
  unfold exchange1. wp_steps. apply call_Exchange_spec. rewrite Hreply.
  destruct (Z.ltb_spec (len reply) 32) as [Hshort|_]; [lia|].
  wp_steps. record_simpl.
  set (P := Padding (meetingPlace kx)) in *.
  destruct (make _ (P - 24 - secretbox_Overhead)) as [m|e|p] eqn:Hmake.
  2:{ exfalso. eapply make_not_Err; eauto. }
  2:{ apply make_Panic in Hmake as [Hneg _].
      unfold secretbox_Overhead in Hneg. lia. }
  apply make_Ok in Hmake as [Hpos ->]. unfold secretbox_Overhead in Hpos.
  wp_steps.
  destruct (PutUint32 _ _) as [padded|e|p] eqn:Hput.
  2:{ exfalso. eapply PutUint32_not_Err; eauto. }
  2:{ apply PutUint32_Panic in Hput as [Hneg _].
      unfold len in Hneg. rewrite length_zeros in Hneg.
      unfold secretbox_Overhead in Hneg. lia. }
  apply PutUint32_Ok in Hput as [Hfour ->].
  wp_steps.
  destruct (slice_from _ _ _) as [filler|e|p] eqn:Hslice.
  2:{ exfalso. eapply slice_from_not_Err; eauto. }
  2:{ apply slice_from_Panic in Hslice as [Hneg _].
      unfold len in Hneg.
      rewrite length_copy_at, length_copy, length_zeros in Hneg
        by (rewrite length_copy, length_zeros;
            unfold secretbox_Overhead, len in *; lia).
      unfold secretbox_Overhead, len in *. lia. }
  apply slice_from_Ok in Hslice as [Hrange ->].
  rewrite length_drop, length_copy_at, length_copy, length_zeros
    by (rewrite length_copy, length_zeros;
        unfold secretbox_Overhead, len in *; lia).
  unfold secretbox_Overhead.
  replace (Z.to_nat (P - 24 - 16) - Z.to_nat (4 + len (kxBytes kx)))%nat
    with (Z.to_nat P - 44 - length (kxBytes kx))%nat by (unfold len; lia).
  set (n := (Z.to_nat P - 44 - length (kxBytes kx))%nat) in *.
  wp_steps.
  apply ReadFull_rand_spec. intros got err r Hread. record_simpl_in Hread.
  cbn [fst snd].
  destruct (io_ReadFull_spec (rand kx) n)
    as [(got' & Hr & Hgot & Hlen & Hle)|(e & Hr & Hlt)];
    rewrite Hr in Hread; injection Hread as <- <- <-; [|lia].
  wp_steps.
  apply ReadFull_rand_spec. intros got2 err2 r2 Hread. record_simpl_in Hread.
  cbn [fst snd].
  destruct (io_ReadFull_spec (drop n (rand kx)) 24)
    as [(nonce & Hr2 & Hnonce & Hnlen & Hnle)|(e & Hr2 & Hlt)];
    rewrite Hr2 in Hread; injection Hread as <- <- <-.
  2:{ rewrite length_drop in Hlt. lia. }
  wp_steps.
  destruct (make _ P) as [m|e|p] eqn:Hmake.
  2:{ exfalso. eapply make_not_Err; eauto. }
  2:{ apply make_Panic in Hmake as [Hneg _]. lia. }
  wp_steps. reflexivity.
Qed.

(** X24.  One call of [Run] completes the exchange.  Let two ready
    parties hold the same derived key; let the peer have done its first
    exchange against the party's first message; let the meeting place hand
    the party the peer's first message and then the peer's second message.
    If the libraries obey their laws, the party has a logger, no shutdown
    is pending, its random source holds the filler and the nonce, and the
    shared key does not begin with two zero bytes, then [Run] from status
    EXCHANGE1 returns exactly the peer's payload. *)
Theorem Run_returns_peer_payload (a b b' : KeyExchange) :
  cipher_round_trip -> dh_commutes -> box_opens -> box_length ->
  encoder_total ->
  status a = KeyExchange_EXCHANGE1 ->
  ready a -> ready b -> key a = key b ->
  Padding (meetingPlace b) < 2 ^ 32 ->
  mp_reply b (meeting1 b) (message1 b) = Val (message1 a) ->
  exchange1 b = (Ok tt, b') ->
  zero_prefixed (sharedKey b') = false ->
  mp_reply a (meeting1 a) (message1 a) = Val (message1 b) ->
  (forall c msg,
      script (meetingPlace a)
        (calls (meetingPlace a) ++ [(meeting1 a, message1 a)]) true c
        (meeting2 a) msg = Val (message2 b')) ->
  Log a = true ->
  fst (try_recv (ShutdownChan a)) = false ->
  (exchange1_needs a <= length (rand a))%nat ->
  fst (Run a) = Ok (kxBytes b).
Proof.
  intros Hcipher Hdh Hopens Hlength Hencoder Hst Ha Hb Hkey Hsmall Hrb Hsb
    Hzero Hra Hscript Hlog Hstop Hrand.
  assert (Hlong : 32 <= len (message1 b)).
  { destruct Hb as (_ & Hfits & _ & filler & _ & Hlen).
    unfold fits, secretbox_Overhead in Hfits. rewrite Hlen.
    pose proof (len_nonneg (kxBytes b)). lia. }
  assert (Hfits : fits a) by (destruct Ha as (_ & Hf & _); exact Hf).
  pose proof (exchange1_succeeds a (message1 b) Hra Hlong Hfits Hrand) as Hok.
  rewrite Run_eq, Hst, Run_EXCHANGE1_eq.
  destruct (exchange1 a) as [o a1] eqn:Hsa. cbn [fst] in Hok. subst o.
  destruct (exchange1_shared_keys_agree a b a1 b' Hcipher Hdh Ha Hb Hkey
              Hra Hrb Hsa Hsb) as [Hagree _].
  pose proof Hsb as Hb'. apply exchange1_inv in Hb' as [Hchb Hendsb].
  apply exchange1_changed_frame in Hchb
    as (_ & _ & _ & _ & Hpb & _ & _ & _ & _ & Hbb & _).
  assert (Hwire : wire2 b' (message2 b')).
  { inversion Hendsb as [| | | | reply0 filler nonce _ _ _ _ _ _ _ Hm2].
    eapply message2_is_wire2; [exact Hlength|exact Hm2]. }
  apply exchange1_inv in Hsa as [Hcha _].
  apply exchange1_changed_frame in Hcha
    as (Hl & _ & Hchan & _ & _ & Hsc & Hcalls & _ & _ & _ & _ & _ & Hm2 & _).
  unfold after_step.
  destruct (Hencoder (snapshot (set_status KeyExchange_EXCHANGE2 a1)))
    as [bytes ->].
  cbv zeta. record_simpl. rewrite Hl, Hlog, Hchan.
  destruct (try_recv (ShutdownChan a)) as [stop c]. cbn [fst] in Hstop.
  subst stop. unfold Run_EXCHANGE2.
  rewrite <- Hbb. apply exchange2_opens_wire2.
  - exact Hopens.
  - exact Hwire.
  - rewrite Hpb. exact Hsmall.
  - record_simpl. exact Hagree.
  - record_simpl. rewrite Hagree. exact Hzero.
  - unfold mp_reply. record_simpl. rewrite Hsc, Hcalls, Hl, Hlog, Hm2.
    apply Hscript.
Qed.

End protocol_exchanges.

(** *** The theorems apply, on the parties with small DH scalars *)

Lemma doubles_cipher_law : cipher_round_trip (E := doubles.externals).
Proof. intros k x Hk Hx. apply doubles_cipher_round_trip; assumption. Qed.

Lemma doubles_dh_law : dh_commutes (E := doubles.externals).
Proof. intros x y _ _. apply doubles_dh_commutes. Qed.

Lemma doubles_box_law : box_opens (E := doubles.externals).
Proof. intros m n k. apply doubles_box_opens. Qed.

Lemma doubles_length_law : box_length (E := doubles.externals).
Proof. intros m n k. apply doubles_Seal_length. Qed.

Lemma doubles_encoder_law : encoder_total (E := doubles.externals).
Proof. intros p. eexists. reflexivity. Qed.

Lemma carol_ready : ready (E := doubles.externals) fixtures.carol_EXCHANGE1.
Proof.
  split; [|split; [|split]].
  - vm_compute. repeat split; reflexivity.
  - vm_compute. discriminate.
  - vm_compute. reflexivity.
  - exists (drop 32 (message1 fixtures.carol_EXCHANGE1)).
    split; vm_compute; reflexivity.
Qed.

Lemma dave_ready : ready (E := doubles.externals) fixtures.dave_EXCHANGE1.
Proof.
  split; [|split; [|split]].
  - vm_compute. repeat split; reflexivity.
  - vm_compute. discriminate.
  - vm_compute. reflexivity.
  - exists (drop 32 (message1 fixtures.dave_EXCHANGE1)).
    split; vm_compute; reflexivity.
Qed.

Lemma derived_keys_agree_witness :
  key fixtures.carol_EXCHANGE1 = key fixtures.dave_EXCHANGE1.
Proof.
  apply (derived_keys_agree (E := doubles.externals)
           fixtures.carol_rand fixtures.dave_rand
           (doubles.scripted 80 [Val fixtures.dave_message1;
                                 Val fixtures.dave_message2])
           (doubles.scripted 80 [Val fixtures.carol_message1])
           (doubles.text_secret "correct horse")
           (bytes_of "from carol") (bytes_of "from dave") false
           (doubles.force fixtures.carol)
           (doubles.force (fixtures.party fixtures.dave_rand
                             [Val fixtures.carol_message1] "from dave"))
           (snd (derivePassword (E := doubles.externals)
                   (set_Testing false (doubles.force fixtures.carol))))
           (snd (derivePassword (E := doubles.externals)
                   (set_Testing false
                      (doubles.force
                         (fixtures.party fixtures.dave_rand
                            [Val fixtures.carol_message1] "from dave")))))).
  - vm_compute. reflexivity.
  - vm_compute. reflexivity.
  - vm_compute. reflexivity.
  - vm_compute. reflexivity.
Defined.

Lemma derivePassword_ready_witness :
  status (snd (derivePassword (E := doubles.externals)
                 (set_Testing false (doubles.force fixtures.carol))))
  = KeyExchange_INIT.
Proof.
  apply (derivePassword_ready (E := doubles.externals)
           fixtures.carol_rand
           (doubles.scripted 80 [Val fixtures.dave_message1;
                                 Val fixtures.dave_message2])
           (doubles.text_secret "correct horse") (bytes_of "from carol") false
           (doubles.force fixtures.carol)).
  - vm_compute. reflexivity.
  - vm_compute. reflexivity.
Defined.

Lemma exchange1_shared_keys_agree_witness :
  sharedKey (snd (exchange1 (E := doubles.externals) fixtures.carol_EXCHANGE1))
  = sharedKey (snd (exchange1 (E := doubles.externals) fixtures.dave_EXCHANGE1)).
Proof.
  apply (exchange1_shared_keys_agree (E := doubles.externals)
           fixtures.carol_EXCHANGE1 fixtures.dave_EXCHANGE1).
  - exact doubles_cipher_law.
  - exact doubles_dh_law.
  - exact carol_ready.
  - exact dave_ready.
  - vm_compute. reflexivity.
  - vm_compute. reflexivity.
  - vm_compute. reflexivity.
  - vm_compute. reflexivity.
  - vm_compute. reflexivity.
Defined.

Lemma dave_wire2 :
  wire2 (E := doubles.externals) fixtures.dave_EXCHANGE2
    (message2 fixtures.dave_EXCHANGE2).
Proof.
  exists (take 24 (message2 fixtures.dave_EXCHANGE2)),
    (take 27 (drop 80 fixtures.dave_rand)).
  repeat split; vm_compute; reflexivity.
Qed.

Lemma exchange2_returns_peer_payload_witness :
  fst (exchange2 (E := doubles.externals) fixtures.carol_EXCHANGE2)
  = Ok (bytes_of "from dave").
Proof.
  rewrite (exchange2_returns_peer_payload (E := doubles.externals)
             fixtures.carol_EXCHANGE2 fixtures.dave_EXCHANGE2).
  - reflexivity.
  - exact doubles_box_law.
  - exact dave_wire2.
  - vm_compute. reflexivity.
  - vm_compute. reflexivity.
  - vm_compute. reflexivity.
  - vm_compute. reflexivity.
Defined.

Lemma Run_returns_peer_payload_witness :
  fst (Run (E := doubles.externals) fixtures.carol_EXCHANGE1)
  = Ok (bytes_of "from dave").
Proof.
  apply (Run_returns_peer_payload (E := doubles.externals)
           fixtures.carol_EXCHANGE1 fixtures.dave_EXCHANGE1
           (snd (exchange1 (E := doubles.externals) fixtures.dave_EXCHANGE1))).
  - exact doubles_cipher_law.
  - exact doubles_dh_law.
  - exact doubles_box_law.
  - exact doubles_length_law.
  - exact doubles_encoder_law.
  - reflexivity.
  - exact carol_ready.
  - exact dave_ready.
  - vm_compute. reflexivity.
  - vm_compute. reflexivity.
  - vm_compute. reflexivity.
  - vm_compute. reflexivity.
  - vm_compute. reflexivity.
  - vm_compute. reflexivity.
  - intros c msg. vm_compute. reflexivity.
  - reflexivity.
  - reflexivity.
  - vm_compute. lia.
Defined.

(** ** More on the handlers of keys.go *)

Section keys_more.
Context {G : keys.Glue}.

(** X25.  The outcomes of a registration.  The response is 401 exactly
    when the request carries no credentials, 200 exactly when it carries
    credentials, its body can be read and the body parses, and 500
    otherwise.  Every response other than 200 leaves the store as it was;
    a 200 response has an empty body and the store holds the request body,
    verbatim, under the SHA-1 identifier of the user name.  The password is
    never looked at. *)
Theorem registerKeys_outcomes (req : keys.Request) (db : keys.DB) :
  let resp := fst (keys.registerKeys req db) in
  let db' := snd (keys.registerKeys req db) in
  (keys.StatusCode resp = 401 <-> keys.BasicAuth req = None)
  /\ (keys.StatusCode resp = 200
      <-> exists uname password body preKeys,
            keys.BasicAuth req = Some (uname, password)
            /\ keys.Body req = Val body
            /\ keys.json_Unmarshal body = Val preKeys)
  /\ (keys.StatusCode resp = 200 \/ keys.StatusCode resp = 401
      \/ keys.StatusCode resp = 500)
  /\ (keys.StatusCode resp <> 200 -> db' = db)
  /\ (forall uname password body,
         keys.BasicAuth req = Some (uname, password) ->
         keys.Body req = Val body ->
         keys.StatusCode resp = 200 ->
         db' = keys.writeDB (keys.sha1_Sum uname) (bytes_of "k") body db
         /\ keys.Written resp = [])
  /\ (forall uname password password',
         keys.BasicAuth req = Some (uname, password) ->
         keys.registerKeys
           (keys.mkRequest (Some (uname, password')) (keys.Body req)) db
         = keys.registerKeys req db).
Proof.
  cbv zeta.
  destruct req as [[[uname password]|] [body|e]]; unfold keys.registerKeys;
    cbn [keys.BasicAuth keys.Body];
    try destruct (keys.json_Unmarshal body) as [preKeys|e'] eqn:Hjson;
    cbn [fst snd keys.StatusCode keys.Written keys.http_Error].
  all: split; [split; intros H; first [discriminate H | reflexivity]|].
  all: split;
    [split;
     [intros H;
      first [discriminate H
            | do 4 eexists; repeat split; first [reflexivity | eassumption]]
     |intros (u & p & b & k & H1 & H2 & H3);
      first [reflexivity | congruence]]|].
  all: split; [auto|].
  all: split; [intros H; first [reflexivity | exfalso; apply H; reflexivity]|].
  all: split;
    [intros u p b H1 H2 H3; first [discriminate H3 | split; congruence]
    |intros u p p' H1;
     first [discriminate H1
           | injection H1 as <- <-; rewrite ?Hjson; reflexivity]].
Qed.

(** X26.  Every stored bundle parses.  A registration only stores a body
    the parser accepts, so a store in which every value parses stays so
    under any registration, successful or not. *)
Theorem registerKeys_keeps_parseable (req : keys.Request) (db : keys.DB) :
  all_parse db -> all_parse (snd (keys.registerKeys req db)).
Proof.
  intros Hall. unfold keys.registerKeys.
  destruct (keys.BasicAuth req) as [[uname password]|]; [|exact Hall].
  destruct (keys.Body req) as [body|e]; [|exact Hall].
  destruct (keys.json_Unmarshal body) as [preKeys|e] eqn:Hjson; [|exact Hall].
  cbn [snd]. unfold keys.writeDB. intros k value Hk.
  apply lookup_insert_Some in Hk as [[_ <-]|[_ Hk]]; [eauto|].
  eapply Hall. exact Hk.
Qed.

(** X27.  The outcomes of a lookup on a store in which every value
    parses.  The response is 401 exactly when the request carries no
    credentials.  With credentials, the response is 200 with the stored
    bytes, verbatim, when the store has an entry under the encoded number of
    the user name, and the server error 500 when it has none.  Neither the
    password nor the request body is looked at. *)
Theorem recipientKeys_outcomes (req : keys.Request) (db : keys.DB) :
  all_parse db ->
  (keys.StatusCode (keys.recipientKeys req db) = 401
   <-> keys.BasicAuth req = None)
  /\ (forall uname password,
         keys.BasicAuth req = Some (uname, password) ->
         keys.recipientKeys req db
         = match db !! keys.db_key (keys.encodeNumber uname) (bytes_of "k") with
           | Some value => keys.mkResponse 200 value
           | None => keys.http_Error "server error" 500
           end)
  /\ (forall uname password password' body',
         keys.BasicAuth req = Some (uname, password) ->
         keys.recipientKeys (keys.mkRequest (Some (uname, password')) body') db
         = keys.recipientKeys req db).
Proof.
  intros Hall. destruct req as [[[uname password]|] body];
    unfold keys.recipientKeys, keys.readDB; cbn [keys.BasicAuth].
  - destruct (db !! keys.db_key (keys.encodeNumber uname) (bytes_of "k"))
      as [value|] eqn:Hvalue.
    + destruct (Hall _ _ Hvalue) as [preKeys Hjson]. rewrite Hjson.
      cbn [keys.StatusCode]. repeat split; try discriminate.
      * intros u p [= <- <-]. rewrite Hvalue. reflexivity.
      * intros u p p' b' [= <- <-]. rewrite Hvalue, Hjson. reflexivity.
    + cbn [keys.StatusCode keys.http_Error]. repeat split; try discriminate.
      * intros u p [= <- <-]. rewrite Hvalue. reflexivity.
      * intros u p p' b' [= <- <-]. rewrite Hvalue. reflexivity.
  - cbn [keys.StatusCode keys.http_Error]. repeat split; try discriminate.
Qed.

(** X28.  A registration replaces the user's entry and touches no other.
    After two successful registrations under the same user name the store
    is what the second one alone would have left (the first bundle is
    gone); and a registration changes no entry other than the one under the
    SHA-1 identifier of its user name. *)
Theorem registerKeys_replaces (uname password1 password2 : list byte)
  (body1 body2 : list byte) (db : keys.DB) :
  let first := keys.mkRequest (Some (uname, password1)) (Val body1) in
  let second := keys.mkRequest (Some (uname, password2)) (Val body2) in
  keys.StatusCode (fst (keys.registerKeys second (snd (keys.registerKeys first db))))
  = 200 ->
  snd (keys.registerKeys second (snd (keys.registerKeys first db)))
  = snd (keys.registerKeys second db)
  /\ (forall k, k <> keys.db_key (keys.sha1_Sum uname) (bytes_of "k") ->
                snd (keys.registerKeys second (snd (keys.registerKeys first db)))
                !! k = db !! k).
Proof.
  cbv zeta. unfold keys.registerKeys. cbn [keys.BasicAuth keys.Body].
  destruct (keys.json_Unmarshal body2) as [keys2|e]; cbn [fst snd];
    [|discriminate].
  intros _.
  destruct (keys.json_Unmarshal body1) as [keys1|e]; cbn [snd];
    unfold keys.writeDB.
  - split; [apply insert_insert_eq|].
    intros k Hk. rewrite !lookup_insert_ne by congruence. reflexivity.
  - split; [reflexivity|].
    intros k Hk. rewrite lookup_insert_ne by congruence. reflexivity.
Qed.

End keys_more.

(** The theorems apply, with the stand-in glue. *)
Lemma registerKeys_outcomes_witness :
  snd (keys.registerKeys (G := doubles.glue)
         (keys.mkRequest (Some (bytes_of "alice", [])) (Val [])) ∅)
  = ∅.
Proof.
  apply (registerKeys_outcomes (G := doubles.glue)
           (keys.mkRequest (Some (bytes_of "alice", [])) (Val [])) ∅).
  discriminate.
Defined.

Lemma all_parse_empty : all_parse (G := doubles.glue) ∅.
Proof. intros k value Hk. rewrite lookup_empty in Hk. discriminate. Qed.

Lemma registerKeys_keeps_parseable_witness :
  exists preKeys,
    keys.json_Unmarshal (Glue := doubles.glue) (bytes_of "{}") = Val preKeys.
Proof.
  apply (registerKeys_keeps_parseable (G := doubles.glue)
           (keys.mkRequest (Some (bytes_of "alice", [])) (Val (bytes_of "{}")))
           ∅ all_parse_empty
           (keys.db_key (keys.sha1_Sum (Glue := doubles.glue) (bytes_of "alice"))
              (bytes_of "k"))).
  apply lookup_insert_eq.
Defined.

Lemma recipientKeys_outcomes_witness :
  keys.recipientKeys (G := doubles.glue)
    (keys.mkRequest (Some (bytes_of "alice", [])) (Val [])) ∅
  = keys.http_Error "server error" 500.
Proof.
  destruct (recipientKeys_outcomes (G := doubles.glue)
              (keys.mkRequest (Some (bytes_of "alice", [])) (Val [])) ∅
              all_parse_empty) as (_ & Hlookup & _).
  rewrite (Hlookup (bytes_of "alice") []); reflexivity.
Defined.

Lemma registerKeys_replaces_witness :
  snd (keys.registerKeys (G := doubles.glue)
         (keys.mkRequest (Some (bytes_of "alice", [])) (Val (bytes_of "{2}")))
         (snd (keys.registerKeys (G := doubles.glue)
                 (keys.mkRequest (Some (bytes_of "alice", []))
                    (Val (bytes_of "{1}"))) ∅)))
  = snd (keys.registerKeys (G := doubles.glue)
           (keys.mkRequest (Some (bytes_of "alice", [])) (Val (bytes_of "{2}")))
           ∅).
Proof.
  apply (registerKeys_replaces (G := doubles.glue) (bytes_of "alice") [] []
           (bytes_of "{1}") (bytes_of "{2}") ∅).
  reflexivity.
Defined.

(** ** [Run] at the edges: a current serialised form, and no room *)

Section run_edges.
Context {E : Externals}.

Lemma snapshot_after_call (k : KeyExchange) (id message : list byte) :
  snapshot (after_call k id message) = snapshot k.
Proof. reflexivity. Qed.

Lemma persisted_after_call (k : KeyExchange) (id message : list byte) :
  persisted k -> persisted (after_call k id message).
Proof.
  unfold persisted. rewrite snapshot_after_call. intros Hp. exact Hp.
Qed.

Lemma Run_EXCHANGE1_Ok_persisted kx payload kx' :
  Run_EXCHANGE1 kx = (Ok payload, kx') -> persisted kx'.
Proof.
  rewrite Run_EXCHANGE1_eq.
  destruct (exchange1 kx) as [[[]|e|p] k1]; try discriminate.
  intros Hafter.
  apply after_step_Ok in Hafter as (bytes & c & Hm & _ & _ & Hnext).
  unfold Run_EXCHANGE2 in Hnext. apply exchange2_inv in Hnext as [-> _].
  apply persisted_after_call. unfold persisted.
  rewrite snapshot_set_ShutdownChan, snapshot_set_serialised. exact Hm.
Qed.

(** X29.  A successful [Run] leaves the serialised form current.  When
    [Run] returns a payload, [Marshal] is the encoding of the struct as it
    stands (status EXCHANGE2, with the keys and both messages), provided
    this was so before the call in case the call started in status
    EXCHANGE2, where nothing is written. *)
Theorem Run_Ok_persisted (kx : KeyExchange) (payload : list byte)
  (kx' : KeyExchange) :
  Run kx = (Ok payload, kx') ->
  status kx <> KeyExchange_EXCHANGE2 \/ persisted kx ->
  persisted kx' /\ status kx' = KeyExchange_EXCHANGE2.
Proof.
  intros Hrun Hbefore.
  assert (Hst : status kx' = KeyExchange_EXCHANGE2).
  { pose proof Hrun as Hinv.
    apply Run_Ok_inv in Hinv as [_ (k & Hk & Hs)].
    apply exchange2_inv in Hk as [-> _]. exact Hs. }
  split; [|exact Hst].
  rewrite Run_eq in Hrun. destruct (status kx) eqn:Hs.
  - rewrite Run_INIT_eq in Hrun.
    destruct (derivePassword kx) as [[[]|e|p] k1]; try discriminate.
    apply after_step_Ok in Hrun as (bytes & c & _ & _ & _ & Hnext).
    eapply Run_EXCHANGE1_Ok_persisted. exact Hnext.
  - eapply Run_EXCHANGE1_Ok_persisted. exact Hrun.
  - destruct Hbefore as [Hne|Hp]; [congruence|].
    apply exchange2_inv in Hrun as [-> _].
    apply persisted_after_call. exact Hp.
  - discriminate.
Qed.

(** X30.  [Run] without room.  The size check is made at construction
    only; a struct whose payload does not fit its meeting place (as a reload
    over a smaller meeting place gives) fails as follows.  From status
    EXCHANGE1, once the meeting place has answered with at least 32 bytes,
    [Run] panics with a run-time error of one of the expressions that
    allocate and slice the padded block.  From status INIT over a meeting
    place with messages shorter than 32 bytes, [Run] never returns a payload
    and never calls the meeting place. *)
Theorem Run_without_room (kx : KeyExchange) :
  (forall reply,
      status kx = KeyExchange_EXCHANGE1 ->
      ~ fits kx ->
      mp_reply kx (meeting1 kx) (message1 kx) = Val reply ->
      32 <= len reply ->
      exists site,
        site ∈ size_sites /\ fst (Run kx) = Panic (runtime_error site))
  /\ (status kx = KeyExchange_INIT ->
      Padding (meetingPlace kx) < 32 ->
      (forall payload, fst (Run kx) <> Ok payload)
      /\ calls (meetingPlace (snd (Run kx))) = calls (meetingPlace kx)).
Proof.
  split.
  - intros reply Hst Hnofit Hreply Hlong.
    rewrite Run_eq, Hst, Run_EXCHANGE1_eq.
    destruct (exchange1 kx) as [o k1] eqn:Hstep.
    apply exchange1_inv in Hstep as [_ Hends].
    inversion Hends as [e He | r He Hs | r site He Hl Hnf Hsite
                       | r e He Hl Hf _ | r filler nonce He Hl Hf _ _ _ _ _];
      subst; try congruence; try contradiction.
    + rewrite Hreply in He. injection He as <-. lia.
    + exists site. split; [exact Hsite|reflexivity].
  - intros Hst Hsmall.
    rewrite Run_eq, Hst, Run_INIT_eq.
    destruct (derivePassword kx) as [o k1] eqn:Hstep.
    apply derivePassword_inv in Hstep as [Hch Hends].
    apply derive_changed_frame in Hch as (_ & _ & _ & _ & Hmp & _).
    inversion Hends as [Hpad _ _ | o' Hd Hne | Hpad | e Hpad _]; subst;
      try lia.
    + destruct o as [[]|e|p]; [exfalso; apply Hne; reflexivity| |];
        cbn [fst snd]; (split; [intros payload; discriminate|]);
        rewrite Hmp; reflexivity.
    + cbn [fst snd]. split; [intros payload; discriminate|].
      rewrite Hmp. reflexivity.
Qed.

End run_edges.

(** The theorems apply, on the party with a small DH scalar. *)
Lemma Run_Ok_persisted_witness :
  persisted (E := doubles.externals)
    (snd (Run (E := doubles.externals) fixtures.carol_EXCHANGE2)).
Proof.
  apply (Run_Ok_persisted (E := doubles.externals) fixtures.carol_EXCHANGE2
           (bytes_of "from dave")
           (snd (Run (E := doubles.externals) fixtures.carol_EXCHANGE2))).
  - vm_compute. reflexivity.
  - right. vm_compute. reflexivity.
Defined.

Lemma Run_without_room_witness :
  calls (meetingPlace
           (snd (Run (E := doubles.externals)
                   (set_meetingPlace (doubles.scripted 16 [])
                      (doubles.force fixtures.carol)))))
  = [].
Proof.
  apply (Run_without_room (E := doubles.externals)
           (set_meetingPlace (doubles.scripted 16 [])
              (doubles.force fixtures.carol))).
  - reflexivity.
  - vm_compute. reflexivity.
Defined.
